(** * CoinKrazy wager settlement: poker tables, sports parlays, eligibility

    A shallow embedding of the three services of the repository
    (PokerService, SportsParleyService, SweepstakesService), of the route
    handlers that call them (POST /parlays and the poker routes) and of
    the betting slip of the sports page, with the properties of the wager
    ledger proved or refuted on it.

    Modelling conventions.
    - The SQL database is a record of relations.  A relation whose rows are
      only appended and scanned is a list of rows in insertion order; a
      query is a [filter], [rows[0]] is [head], an UPDATE is an [fmap].
      [user_balances], [users] and [sports_events] are keyed by their
      identifier (the upsert of [sports_events] names [event_id] as its
      conflict key) and are finite maps.
    - The in-memory [Map]s of the services ([eventCache], [activeTables])
      are finite maps with string keys.
    - A JavaScript [number] holding an amount of coins, a blind, a score or
      odds is given by its value, an exact rational ([Q]); counts and user
      identifiers are integers.  The potential payout of a parlay, the one
      amount that the runtime computes by a chain of products, is computed
      in binary64 as the runtime computes it: [to_binary64] gives the
      [number] an argument stands for, and a row holds the value of the
      number it is given ([src/] has no schema, so that what the type of a
      column does to a number is not modelled).  The bounds [bigBlind * 20]
      and [bigBlind * 500] of [createTable] are exact products, as they are
      in binary64 for a big blind of at most 44 significant bits.  Dates
      are left out except for the calendar year used by the age check and
      the time of acceptance that [acceptTerms] writes.
    - Identifiers built from [Date.now()] and [Math.random()] are extra
      arguments of the operation that generates them.
    - An [async] method is a computation in the monad [M]: it reads and
      writes the database and either returns or throws.  The database is
      threaded through a throw, so that "a failed call changes nothing" is
      a statement to prove and not a feature of the monad.
    - [PokerService] reaches the database through [databaseService.query],
      except in [dealHand], [completeHand] and [getTableHistory], which
      call [this.pool.query].  The class declares no member [pool], its
      constructor assigns none and [getInstance] takes no argument, so
      that [this.pool] is [undefined] and the call throws a [TypeError]
      before the query is issued.  [SportsParleyService] declares [pool]
      and assigns it in its constructor: there [this.pool.query] is a
      query on the database.
    - The relation [sweepstakes_compliance], which only [acceptTerms],
      [getComplianceStatus] and [verifyEligibilityForEntry] touch, is kept
      beside the database of the other methods, in [sweeps_db].
    - A route handler is a function of the fields of the request body, a
      missing field being [None], and of the database; [userId] is what
      [verifyToken] has set.  A handler of the sports page is a function of
      the React state it reads, and returns the new state or the request
      it sends. *)

From Stdlib Require Import Ascii QArith Qround Lqa Floats.
From stdpp Require Import base strings list gmap fin_maps.

Set Default Proof Using "Type".
Set Warnings "-inexact-float".

(** ** Numbers *)

(** [x < y] on JavaScript numbers. *)
Definition Qltb (x y : Q) : bool := negb (Qle_bool y x).

(** [x <= y] on JavaScript numbers. *)
Definition Qleb (x y : Q) : bool := Qle_bool x y.

Definition Z2SF (z : Z) : spec_float :=
  match z with
  | Z0 => S754_zero false
  | Zpos m => S754_finite false m 0
  | Zneg m => S754_finite true m 0
  end.

(** The [number] a rational stands for: the binary64 nearest to it, ties to
    even, by the correctly rounded division of numerator by denominator.
    It is the number itself when the rational is the value of a binary64. *)
Definition to_binary64 (q : Q) : float :=
  SF2Prim (SFdiv prec emax (Z2SF (Qnum q)) (S754_finite false (Qden q) 0)).

(** The value of a finite binary64, in lowest terms; [Infinity] and [NaN]
    have none. *)
Definition value_of (x : float) : option Q :=
  match Prim2SF x with
  | S754_zero _ => Some 0%Q
  | S754_finite s m e =>
    let n := if s then Zneg m else Zpos m in
    Some (Qred match e with
               | Zneg k => n # 2 ^ k
               | _ => (n * 2 ^ e)%Z # 1
               end)
  | _ => None
  end.

(** What a row holds for a [number] passed to a query: its value.
    [Infinity] and [NaN], which a product of numbers reaches only through
    an overflow, are outside the amounts of the model; 0 stands for them. *)
Definition stored (x : float) : Q := default 0%Q (value_of x).

(** ** Data model *)

Inductive table_status := TableOpen | TablePlaying | TableClosed.

Inductive position :=
  | Button | SmallBlind | BigBlind | UnderTheGun | MiddlePosition | Cutoff | Dealer.

Inductive hand_status := PreFlop | Flop | Turn | River | Finished.

Inductive sport := Nfl | Nba | Mlb | Nhl | Ncaa.

Inductive event_status := Scheduled | InProgress | Completed | Postponed.

Inductive parlay_status := Pending | Won | Lost | PendingResults.

Inductive leg_result := LegWon | LegLost | LegPending.

Inductive pick := PickHome | PickAway | PickOver | PickUnder.

Inductive bet_type := Spread | Moneyline | OverUnder.

Inductive transaction_type := Bet | Win.

Global Instance hand_status_eq_dec : EqDecision hand_status.
Proof. solve_decision. Defined.
Global Instance event_status_eq_dec : EqDecision event_status.
Proof. solve_decision. Defined.
Global Instance parlay_status_eq_dec : EqDecision parlay_status.
Proof. solve_decision. Defined.
Global Instance leg_result_eq_dec : EqDecision leg_result.
Proof. solve_decision. Defined.
Global Instance transaction_type_eq_dec : EqDecision transaction_type.
Proof. solve_decision. Defined.

(** Row of [poker_tables]. *)
Record poker_tables_row := {
  pt_table_id : string;
  pt_name : string;
  pt_small_blind : Q;
  pt_big_blind : Q;
  pt_max_players : Z;
  pt_min_buy_in : Q;
  pt_max_buy_in : Q;
  pt_status : table_status;
  pt_total_pot : option Q
}.

(** Row of [poker_players]: one seat. *)
Record poker_players_row := {
  pp_table_id : string;
  pp_user_id : Z;
  pp_stack : Q;
  pp_position : position;
  pp_is_active : bool;
  pp_total_wins : Z;
  pp_total_losses : Z
}.

(** Row of [poker_hands]. *)
Record poker_hands_row := {
  ph_hand_id : string;
  ph_table_id : string;
  ph_small_blind_amount : Q;
  ph_big_blind_amount : Q;
  ph_pot : Q;
  ph_status : hand_status;
  ph_winner_id : option Z;
  ph_winning_hand : option string
}.

(** Row of [transactions]. *)
Record transactions_row := {
  tx_user_id : Z;
  tx_transaction_type : transaction_type;
  tx_currency : string;
  tx_amount : Q;
  tx_description : string;
  tx_status : string
}.

(** The interface [PokerTable] (without [createdAt]). *)
Record PokerTable := {
  tableId : string;
  name : string;
  stakes_smallBlind : Q;
  stakes_bigBlind : Q;
  maxPlayers : Z;
  currentPlayers : Z;
  status : table_status;
  totalPot : Q;
  minBuyIn : Q;
  maxBuyIn : Q
}.

(** The interface [PokerHand] (without [startedAt]). *)
Record PokerHand := {
  handId : string;
  hand_tableId : string;
  buttonPosition : Z;
  smallBlindAmount : Q;
  bigBlindAmount : Q;
  pot : Q;
  community : list string;
  hand_status_of : hand_status
}.

(** The interface [SportsEvent] (without [startTime]). *)
Record SportsEvent := {
  eventId : string;
  ev_sport : sport;
  homeTeam : string;
  awayTeam : string;
  ev_status : event_status;
  homeScore : option Q;
  awayScore : option Q;
  spread : option Q;
  overUnder : option Q;
  moneylineHome : option Q;
  moneylineAway : option Q
}.

(** Row of [sports_events], keyed by [event_id]. *)
Record sports_events_row := {
  se_sport : sport;
  se_home_team : string;
  se_away_team : string;
  se_home_score : Q;
  se_away_score : Q;
  se_status : event_status
}.

(** The interface [ParlayLeg]: a leg as the caller sends it. *)
Record ParlayLeg := {
  legId : string;
  leg_eventId : string;
  leg_pick : pick;
  betType : bet_type;
  odds : Q;
  wager : Q;
  result : option leg_result
}.

(** Row of [sports_parlays]. *)
Record sports_parlays_row := {
  sp_parlay_id : string;
  sp_user_id : Z;
  sp_total_wager : Q;
  sp_potential_payout : Q;
  sp_status : parlay_status
}.

(** Row of [parlay_legs]; [pl_result] is [None] for SQL NULL. *)
Record parlay_legs_row := {
  pl_leg_id : string;
  pl_parlay_id : string;
  pl_event_id : string;
  pl_pick : pick;
  pl_bet_type : bet_type;
  pl_odds : Q;
  pl_result : option leg_result
}.

(** The interface [SportsParlay] (without the two dates). *)
Record SportsParlay := {
  parlay_id : string;
  user_id : Z;
  legs : list ParlayLeg;
  total_wager : Q;
  potential_payout : float;
  parlay_status_of : parlay_status
}.

(** Row of [users], keyed by [id]: the columns the eligibility check reads.
    [u_birth_year] is [new Date(user.date_of_birth).getFullYear()]. *)
Record users_row := {
  u_birth_year : Z;
  u_state : option string;
  u_country : option string
}.

(** Row of [compliance_logs]. *)
Record compliance_logs_row := {
  cl_user_id : Z;
  cl_check_type : string;
  cl_age : Z;
  cl_state : option string;
  cl_is_eligible : bool;
  cl_reason : option string
}.

(** The interface [ComplianceCheck] (without [timestamp]). *)
Record ComplianceCheck := {
  userId : Z;
  userAge : Z;
  userState : option string;
  isEligible : bool;
  reason : option string
}.

(** The database and the two in-memory caches. *)
Record db := {
  poker_tables : list poker_tables_row;
  poker_players : list poker_players_row;
  poker_hands : list poker_hands_row;
  user_balances : gmap Z Q;
  transactions : list transactions_row;
  sports_events : gmap string sports_events_row;
  sports_parlays : list sports_parlays_row;
  parlay_legs : list parlay_legs_row;
  users : gmap Z users_row;
  compliance_logs : list compliance_logs_row;
  activeTables : gmap string PokerTable;
  eventCache : gmap string SportsEvent
}.

Definition with_poker_tables (f : list poker_tables_row → list poker_tables_row) (s : db) : db :=
  {| poker_tables := f (poker_tables s); poker_players := poker_players s;
     poker_hands := poker_hands s; user_balances := user_balances s;
     transactions := transactions s; sports_events := sports_events s;
     sports_parlays := sports_parlays s; parlay_legs := parlay_legs s;
     users := users s; compliance_logs := compliance_logs s;
     activeTables := activeTables s; eventCache := eventCache s |}.

Definition with_poker_players (f : list poker_players_row → list poker_players_row) (s : db) : db :=
  {| poker_tables := poker_tables s; poker_players := f (poker_players s);
     poker_hands := poker_hands s; user_balances := user_balances s;
     transactions := transactions s; sports_events := sports_events s;
     sports_parlays := sports_parlays s; parlay_legs := parlay_legs s;
     users := users s; compliance_logs := compliance_logs s;
     activeTables := activeTables s; eventCache := eventCache s |}.

Definition with_poker_hands (f : list poker_hands_row → list poker_hands_row) (s : db) : db :=
  {| poker_tables := poker_tables s; poker_players := poker_players s;
     poker_hands := f (poker_hands s); user_balances := user_balances s;
     transactions := transactions s; sports_events := sports_events s;
     sports_parlays := sports_parlays s; parlay_legs := parlay_legs s;
     users := users s; compliance_logs := compliance_logs s;
     activeTables := activeTables s; eventCache := eventCache s |}.

Definition with_user_balances (f : gmap Z Q → gmap Z Q) (s : db) : db :=
  {| poker_tables := poker_tables s; poker_players := poker_players s;
     poker_hands := poker_hands s; user_balances := f (user_balances s);
     transactions := transactions s; sports_events := sports_events s;
     sports_parlays := sports_parlays s; parlay_legs := parlay_legs s;
     users := users s; compliance_logs := compliance_logs s;
     activeTables := activeTables s; eventCache := eventCache s |}.

Definition with_transactions (f : list transactions_row → list transactions_row) (s : db) : db :=
  {| poker_tables := poker_tables s; poker_players := poker_players s;
     poker_hands := poker_hands s; user_balances := user_balances s;
     transactions := f (transactions s); sports_events := sports_events s;
     sports_parlays := sports_parlays s; parlay_legs := parlay_legs s;
     users := users s; compliance_logs := compliance_logs s;
     activeTables := activeTables s; eventCache := eventCache s |}.

Definition with_sports_events (f : gmap string sports_events_row → gmap string sports_events_row) (s : db) : db :=
  {| poker_tables := poker_tables s; poker_players := poker_players s;
     poker_hands := poker_hands s; user_balances := user_balances s;
     transactions := transactions s; sports_events := f (sports_events s);
     sports_parlays := sports_parlays s; parlay_legs := parlay_legs s;
     users := users s; compliance_logs := compliance_logs s;
     activeTables := activeTables s; eventCache := eventCache s |}.

Definition with_sports_parlays (f : list sports_parlays_row → list sports_parlays_row) (s : db) : db :=
  {| poker_tables := poker_tables s; poker_players := poker_players s;
     poker_hands := poker_hands s; user_balances := user_balances s;
     transactions := transactions s; sports_events := sports_events s;
     sports_parlays := f (sports_parlays s); parlay_legs := parlay_legs s;
     users := users s; compliance_logs := compliance_logs s;
     activeTables := activeTables s; eventCache := eventCache s |}.

Definition with_parlay_legs (f : list parlay_legs_row → list parlay_legs_row) (s : db) : db :=
  {| poker_tables := poker_tables s; poker_players := poker_players s;
     poker_hands := poker_hands s; user_balances := user_balances s;
     transactions := transactions s; sports_events := sports_events s;
     sports_parlays := sports_parlays s; parlay_legs := f (parlay_legs s);
     users := users s; compliance_logs := compliance_logs s;
     activeTables := activeTables s; eventCache := eventCache s |}.

Definition with_compliance_logs (f : list compliance_logs_row → list compliance_logs_row) (s : db) : db :=
  {| poker_tables := poker_tables s; poker_players := poker_players s;
     poker_hands := poker_hands s; user_balances := user_balances s;
     transactions := transactions s; sports_events := sports_events s;
     sports_parlays := sports_parlays s; parlay_legs := parlay_legs s;
     users := users s; compliance_logs := f (compliance_logs s);
     activeTables := activeTables s; eventCache := eventCache s |}.

Definition with_activeTables (f : gmap string PokerTable → gmap string PokerTable) (s : db) : db :=
  {| poker_tables := poker_tables s; poker_players := poker_players s;
     poker_hands := poker_hands s; user_balances := user_balances s;
     transactions := transactions s; sports_events := sports_events s;
     sports_parlays := sports_parlays s; parlay_legs := parlay_legs s;
     users := users s; compliance_logs := compliance_logs s;
     activeTables := f (activeTables s); eventCache := eventCache s |}.

Definition with_eventCache (f : gmap string SportsEvent → gmap string SportsEvent) (s : db) : db :=
  {| poker_tables := poker_tables s; poker_players := poker_players s;
     poker_hands := poker_hands s; user_balances := user_balances s;
     transactions := transactions s; sports_events := sports_events s;
     sports_parlays := sports_parlays s; parlay_legs := parlay_legs s;
     users := users s; compliance_logs := compliance_logs s;
     activeTables := activeTables s; eventCache := f (eventCache s) |}.

(** ** The monad of service methods *)

(** What a method throws: [new Error(msg)], or the [TypeError] the runtime
    raises when a property of [undefined] is read. *)
Inductive msg_part :=
  | Text (s : string)
  | Num (x : Q).

(** The message is the list of the parts of its template literal, a number
    interpolated in it being kept as a number. *)
Inductive exn :=
  | Error (msg : list msg_part)
  | TypeError (msg : string).

Definition M (A : Type) : Type := db → (exn + A) * db.

Global Instance M_ret : MRet M := λ A a s, (inr a, s).

Global Instance M_bind : MBind M := λ A B k m s,
  match m s with
  | (inl e, s') => (inl e, s')
  | (inr a, s') => k a s'
  end.

Definition throw {A} (e : exn) : M A := λ s, (inl e, s).

Definition gets {A} (f : db → A) : M A := λ s, (inr (f s), s).

Definition modify (f : db → db) : M unit := λ s, (inr tt, f s).

(** The database after a call, whatever the outcome. *)
Definition after {A} (m : M A) (s : db) : db := snd (m s).

(** The outcome of a call. *)
Definition outcome {A} (m : M A) (s : db) : exn + A := fst (m s).

(** ** PokerService *)

Definition TableNotFound : exn := Error [Text "Table not found"].
Definition InvalidBuyIn (lo hi : Q) : exn :=
  Error [Text "Buy-in must be between "; Num lo; Text " and "; Num hi].
Definition TableFull : exn := Error [Text "Table is full"].
Definition InsufficientBuyIn : exn := Error [Text "Insufficient balance for buy-in"].
Definition PlayerNotFound : exn := Error [Text "Player not found at this table"].

(** Reading property [prop] of [undefined]. *)
Definition undefined_read (prop : string) : exn :=
  TypeError ("Cannot read properties of undefined (reading '" +:+ prop +:+ "')").

(** [WHERE table_id = $1 AND is_active = TRUE] on [poker_players]. *)
Definition active_at (tableId : string) (r : poker_players_row) : Prop :=
  pp_table_id r = tableId ∧ pp_is_active r = true.

(** [WHERE table_id = $1 AND user_id = $2] on [poker_players]. *)
Definition seat_of (tableId : string) (userId : Z) (r : poker_players_row) : Prop :=
  pp_table_id r = tableId ∧ pp_user_id r = userId.

Global Instance active_at_dec tableId r : Decision (active_at tableId r).
Proof. unfold active_at. apply _. Defined.
Global Instance seat_of_dec tableId userId r : Decision (seat_of tableId userId r).
Proof. unfold seat_of. apply _. Defined.

(** [SET is_active = FALSE]. *)
Definition deactivate (r : poker_players_row) : poker_players_row :=
  {| pp_table_id := pp_table_id r; pp_user_id := pp_user_id r;
     pp_stack := pp_stack r; pp_position := pp_position r;
     pp_is_active := false;
     pp_total_wins := pp_total_wins r; pp_total_losses := pp_total_losses r |}.

(** [SET total_wins = total_wins + 1]. *)
Definition add_win (r : poker_players_row) : poker_players_row :=
  {| pp_table_id := pp_table_id r; pp_user_id := pp_user_id r;
     pp_stack := pp_stack r; pp_position := pp_position r;
     pp_is_active := pp_is_active r;
     pp_total_wins := pp_total_wins r + 1; pp_total_losses := pp_total_losses r |}.

(** [SET status = 'finished', winner_id = $2, winning_hand = $3]. *)
Definition finish (winnerId : Z) (winningHand : string) (r : poker_hands_row) : poker_hands_row :=
  {| ph_hand_id := ph_hand_id r; ph_table_id := ph_table_id r;
     ph_small_blind_amount := ph_small_blind_amount r;
     ph_big_blind_amount := ph_big_blind_amount r;
     ph_pot := ph_pot r;
     ph_status := Finished;
     ph_winner_id := Some winnerId; ph_winning_hand := Some winningHand |}.

(** [UPDATE t SET ... WHERE P]: every row satisfying [P] is rewritten. *)
Definition update_where {A} (P : A → Prop) `{∀ r, Decision (P r)} (f : A → A)
    (rows : list A) : list A :=
  (λ r, if decide (P r) then f r else r) <$> rows.

(** [INSERT INTO transactions ... VALUES ($1, kind, 'SC', $2, descr, 'completed')]. *)
Definition log_transaction (userId : Z) (kind : transaction_type) (amount : Q)
    (descr : string) : M unit :=
  modify (with_transactions (λ l, l ++
    [{| tx_user_id := userId; tx_transaction_type := kind; tx_currency := "SC";
        tx_amount := amount; tx_description := descr; tx_status := "completed" |}])).

(** [UPDATE user_balances SET sweeps_coins = sweeps_coins + $2 WHERE user_id = $1]. *)
Definition add_coins (userId : Z) (amount : Q) : M unit :=
  modify (with_user_balances (alter (λ c, c + amount)%Q userId)).

(** [UPDATE user_balances SET sweeps_coins = sweeps_coins - $2 WHERE user_id = $1]. *)
Definition sub_coins (userId : Z) (amount : Q) : M unit :=
  modify (with_user_balances (alter (λ c, c - amount)%Q userId)).

Definition createTable (tableId name : string) (smallBlind bigBlind : Q)
    (maxPlayers : Z) : M PokerTable :=
  let minBuyIn := (bigBlind * 20)%Q in
  let maxBuyIn := (bigBlind * 500)%Q in
  modify (with_poker_tables (λ l, l ++
    [{| pt_table_id := tableId; pt_name := name;
        pt_small_blind := smallBlind; pt_big_blind := bigBlind;
        pt_max_players := maxPlayers;
        pt_min_buy_in := minBuyIn; pt_max_buy_in := maxBuyIn;
        pt_status := TableOpen; pt_total_pot := None |}]));;
  let table :=
    {| tableId := tableId; name := name;
       stakes_smallBlind := smallBlind; stakes_bigBlind := bigBlind;
       maxPlayers := maxPlayers; currentPlayers := 0;
       status := TableOpen; totalPot := 0;
       minBuyIn := minBuyIn; maxBuyIn := maxBuyIn |} in
  modify (with_activeTables (<[tableId := table]>));;
  mret table.

Definition joinTable (tableId : string) (userId : Z) (buyIn : Q) : M bool :=
  tableResult ← gets (λ s, filter (λ r, pt_table_id r = tableId) (poker_tables s));
  match head tableResult with
  | None => throw TableNotFound
  | Some table =>
    if Qltb buyIn (pt_min_buy_in table) || Qltb (pt_max_buy_in table) buyIn
    then throw (InvalidBuyIn (pt_min_buy_in table) (pt_max_buy_in table))
    else
      count ← gets (λ s, length (filter (active_at tableId) (poker_players s)));
      if bool_decide (pt_max_players table ≤ Z.of_nat count)%Z
      then throw TableFull
      else
        balanceResult ← gets (λ s, user_balances s !! userId);
        match balanceResult with
        | None => throw InsufficientBuyIn
        | Some sweeps_coins =>
          if Qltb sweeps_coins buyIn then throw InsufficientBuyIn
          else
            modify (with_poker_players (λ l, l ++
              [{| pp_table_id := tableId; pp_user_id := userId; pp_stack := buyIn;
                  pp_position := UnderTheGun; pp_is_active := true;
                  pp_total_wins := 0; pp_total_losses := 0 |}]));;
            sub_coins userId buyIn;;
            log_transaction userId Bet buyIn "Poker table buy-in";;
            mret true
        end
  end.

Definition leaveTable (tableId : string) (userId : Z) (cashOut : Q) : M bool :=
  result ← gets (λ s, deactivate <$> filter (seat_of tableId userId) (poker_players s));
  modify (with_poker_players (update_where (seat_of tableId userId) deactivate));;
  match head result with
  | None => throw PlayerNotFound
  | Some _ =>
    add_coins userId cashOut;;
    log_transaction userId Win cashOut "Poker table cash out";;
    mret true
  end.

(** The member [pool] of the instance of [PokerService]: [undefined]. *)
Definition PokerService_pool : option unit := None.

(** [await this.pool.query(...)] in [PokerService]. *)
Definition pool_query {A} (query : M A) : M A :=
  match PokerService_pool with
  | Some _ => query
  | None => throw (undefined_read "query")
  end.

Definition dealHand (handId tableId : string) : M PokerHand :=
  tableResult ← pool_query
    (gets (λ s, filter (λ r, pt_table_id r = tableId) (poker_tables s)));
  match head tableResult with
  | None => throw (undefined_read "small_blind")
  | Some table =>
    let smallBlindAmount := pt_small_blind table in
    let bigBlindAmount := pt_big_blind table in
    let totalPot := (smallBlindAmount + bigBlindAmount)%Q in
    modify (with_poker_hands (λ l, l ++
      [{| ph_hand_id := handId; ph_table_id := tableId;
          ph_small_blind_amount := smallBlindAmount;
          ph_big_blind_amount := bigBlindAmount;
          ph_pot := totalPot; ph_status := PreFlop;
          ph_winner_id := None; ph_winning_hand := None |}]));;
    mret {| handId := handId; hand_tableId := tableId; buttonPosition := 0;
            smallBlindAmount := smallBlindAmount;
            bigBlindAmount := bigBlindAmount;
            pot := totalPot; community := []; hand_status_of := PreFlop |}
  end.

Definition completeHand (handId : string) (winnerId : Z) (winningHand : string) : M unit :=
  handResult ← pool_query
    (gets (λ s, filter (λ r, ph_hand_id r = handId) (poker_hands s)));
  let hand := head handResult in
  modify (with_poker_hands
    (update_where (λ r, ph_hand_id r = handId) (finish winnerId winningHand)));;
  match hand with
  | None => throw (undefined_read "pot")
  | Some hand =>
    let pot := ph_pot hand in
    add_coins winnerId pot;;
    log_transaction winnerId Win pot ("Poker hand win with " +:+ winningHand);;
    modify (with_poker_players (update_where (λ r, pp_user_id r = winnerId) add_win))
  end.

(** ** SportsParleyService *)

Definition WagerNotPositive : exn := Error [Text "Wager must be greater than 0"].
Definition InsufficientParlay : exn := Error [Text "Insufficient balance for parlay wager"].
Definition EventNotFound (eventId : string) : exn :=
  Error [Text "Event "; Text eventId; Text " not found"].
Definition EventNotFoundOnUpdate : exn := Error [Text "Event not found"].

(** The three events the constructor seeds the cache with. *)
Definition mockEvents : list SportsEvent :=
  [ {| eventId := "nfl_001"; ev_sport := Nfl;
       homeTeam := "Kansas City Chiefs"; awayTeam := "Buffalo Bills";
       ev_status := Scheduled; homeScore := None; awayScore := None;
       spread := Some (-7 # 2)%Q; overUnder := Some (95 # 2)%Q;
       moneylineHome := Some (-170)%Q; moneylineAway := Some 145%Q |};
    {| eventId := "nba_001"; ev_sport := Nba;
       homeTeam := "Los Angeles Lakers"; awayTeam := "Denver Nuggets";
       ev_status := Scheduled; homeScore := None; awayScore := None;
       spread := Some (-2)%Q; overUnder := Some 218%Q;
       moneylineHome := Some (-115)%Q; moneylineAway := Some (-105)%Q |};
    {| eventId := "mlb_001"; ev_sport := Mlb;
       homeTeam := "New York Yankees"; awayTeam := "Boston Red Sox";
       ev_status := Scheduled; homeScore := None; awayScore := None;
       spread := Some (-3 # 2)%Q; overUnder := Some (17 # 2)%Q;
       moneylineHome := Some (-140)%Q; moneylineAway := Some 120%Q |} ].

(** [initializeMockEvents]. *)
Definition initializeMockEvents (cache : gmap string SportsEvent) : gmap string SportsEvent :=
  fold_left (λ c event, <[eventId event := event]> c) mockEvents cache.

Definition getEvent (eventId : string) : M (option SportsEvent) :=
  gets (λ s, eventCache s !! eventId).

(** The payout loop of [createParlay]: one factor [odds / 100] per leg, in
    leg order, after the leg's event has been looked up; the quotient and
    the product are those of binary64. *)
Fixpoint payout_loop (legs : list ParlayLeg) (potentialPayout : float) : M float :=
  match legs with
  | [] => mret potentialPayout
  | leg :: rest =>
    event ← getEvent (leg_eventId leg);
    match event with
    | None => throw (EventNotFound (leg_eventId leg))
    | Some _ =>
      let odds := to_binary64 (odds leg) in
      payout_loop rest (potentialPayout * (odds / 100))%float
    end
  end.

(** The insertion loop of [createParlay]; [legIdOf i] is the identifier
    generated for the leg at index [i]. *)
Fixpoint insert_legs (parlay_id : string) (legIdOf : nat → string) (i : nat)
    (legs : list ParlayLeg) : M unit :=
  match legs with
  | [] => mret tt
  | leg :: rest =>
    modify (with_parlay_legs (λ l, l ++
      [{| pl_leg_id := legIdOf i; pl_parlay_id := parlay_id;
          pl_event_id := leg_eventId leg; pl_pick := leg_pick leg;
          pl_bet_type := betType leg; pl_odds := odds leg; pl_result := None |}]));;
    insert_legs parlay_id legIdOf (S i) rest
  end.

Definition createParlay (parlay_id : string) (legIdOf : nat → string)
    (userId : Z) (legs : list ParlayLeg) (totalWager : Q) : M SportsParlay :=
  if Qleb totalWager 0 then throw WagerNotPositive
  else
    balanceResult ← gets (λ s, user_balances s !! userId);
    match balanceResult with
    | None => throw InsufficientParlay
    | Some sweeps_coins =>
      if Qltb sweeps_coins totalWager then throw InsufficientParlay
      else
        potentialPayout ← payout_loop legs (to_binary64 totalWager);
        modify (with_sports_parlays (λ l, l ++
          [{| sp_parlay_id := parlay_id; sp_user_id := userId;
              sp_total_wager := totalWager;
              sp_potential_payout := stored potentialPayout; sp_status := Pending |}]));;
        insert_legs parlay_id legIdOf 0 legs;;
        sub_coins userId totalWager;;
        log_transaction userId Bet totalWager ("Sports parlay " +:+ parlay_id);;
        mret {| parlay_id := parlay_id; user_id := userId; legs := legs;
                total_wager := totalWager; potential_payout := potentialPayout;
                parlay_status_of := Pending |}
    end.

(** A row of the candidate query of [resolveParlaysForEvent]. *)
Record candidate := {
  c_parlay_id : string;
  c_user_id : Z;
  c_total_wager : Q;
  c_potential_payout : Q
}.

Definition candidate_of (sp : sports_parlays_row) : candidate :=
  {| c_parlay_id := sp_parlay_id sp; c_user_id := sp_user_id sp;
     c_total_wager := sp_total_wager sp;
     c_potential_payout := sp_potential_payout sp |}.

(** Equality of two result rows, as [SELECT DISTINCT] compares them. *)
Definition candidate_eqb (a b : candidate) : bool :=
  bool_decide (c_parlay_id a = c_parlay_id b) &&
  bool_decide (c_user_id a = c_user_id b) &&
  Qeq_bool (c_total_wager a) (c_total_wager b) &&
  Qeq_bool (c_potential_payout a) (c_potential_payout b).

(** [SELECT DISTINCT]: a row equal to one already seen is dropped. *)
Fixpoint distinct_from (seen rows : list candidate) : list candidate :=
  match rows with
  | [] => []
  | c :: rest =>
    if existsb (candidate_eqb c) seen then distinct_from seen rest
    else c :: distinct_from (c :: seen) rest
  end.

Definition distinct (rows : list candidate) : list candidate := distinct_from [] rows.

(** The candidate query: pending parlays joined with their legs on the
    event. *)
Definition candidates (eventId : string) (s : db) : list candidate :=
  distinct (
    sp ← sports_parlays s;
    pl ← parlay_legs s;
    if decide (sp_parlay_id sp = pl_parlay_id pl ∧
               pl_event_id pl = eventId ∧ sp_status sp = Pending)
    then [candidate_of sp] else []).

(** The legs query: the legs of a parlay joined with the parlay's rows. *)
Definition legs_query (pid : string) (s : db) : list parlay_legs_row :=
  pl ← parlay_legs s;
  sp ← sports_parlays s;
  if decide (pl_parlay_id pl = sp_parlay_id sp ∧ pl_parlay_id pl = pid)
  then [pl] else [].

(** [SET status = $2] on [sports_parlays]. *)
Definition set_status (st : parlay_status) (r : sports_parlays_row) : sports_parlays_row :=
  {| sp_parlay_id := sp_parlay_id r; sp_user_id := sp_user_id r;
     sp_total_wager := sp_total_wager r;
     sp_potential_payout := sp_potential_payout r; sp_status := st |}.

(** The first loop over the legs: [allLegsResolved]. *)
Definition allLegsResolved (legsResult : list parlay_legs_row) : bool :=
  fold_left (λ acc leg, if pl_result leg is None then false else acc) legsResult true.

(** [legsResult.rows.every(leg => leg.result === "won")]. *)
Definition allLegsWon (legsResult : list parlay_legs_row) : bool :=
  forallb (λ leg, bool_decide (pl_result leg = Some LegWon)) legsResult.

(** The body of the loop over the candidate parlays. *)
Definition resolve_parlay (parlay : candidate) : M unit :=
  legsResult ← gets (legs_query (c_parlay_id parlay));
  if allLegsResolved legsResult then
    let parlay_status := if allLegsWon legsResult then Won else Lost in
    modify (with_sports_parlays
      (update_where (λ r, sp_parlay_id r = c_parlay_id parlay) (set_status parlay_status)));;
    if decide (parlay_status = Won) then
      add_coins (c_user_id parlay) (c_potential_payout parlay);;
      log_transaction (c_user_id parlay) Win (c_potential_payout parlay)
        ("Sports parlay win " +:+ c_parlay_id parlay)
    else mret tt
  else mret tt.

(** [for (const x of l) { await body(x) }]. *)
Fixpoint for_each {A} (l : list A) (body : A → M unit) : M unit :=
  match l with
  | [] => mret tt
  | x :: rest => body x;; for_each rest body
  end.

Definition resolveParlaysForEvent (eventId : string) : M unit :=
  event ← gets (λ s, eventCache s !! eventId);
  match event with
  | None => mret tt
  | Some event =>
    if decide (ev_status event ≠ Completed) then mret tt
    else
      result ← gets (candidates eventId);
      for_each result resolve_parlay
  end.

(** [event.homeScore = homeScore; event.awayScore = awayScore] on the
    cached object. *)
Definition set_scores (homeScore awayScore : Q) (event : SportsEvent) : SportsEvent :=
  {| eventId := eventId event; ev_sport := ev_sport event;
     homeTeam := homeTeam event; awayTeam := awayTeam event;
     ev_status := ev_status event;
     homeScore := Some homeScore; awayScore := Some awayScore;
     spread := spread event; overUnder := overUnder event;
     moneylineHome := moneylineHome event; moneylineAway := moneylineAway event |}.

(** [INSERT INTO sports_events ... ON CONFLICT (event_id) DO UPDATE SET
    home_score, away_score, status = 'in-progress']. *)
Definition upsert_score (event : SportsEvent) (homeScore awayScore : Q)
    (row : option sports_events_row) : option sports_events_row :=
  Some match row with
       | Some r =>
         {| se_sport := se_sport r; se_home_team := se_home_team r;
            se_away_team := se_away_team r;
            se_home_score := homeScore; se_away_score := awayScore;
            se_status := InProgress |}
       | None =>
         {| se_sport := ev_sport event; se_home_team := homeTeam event;
            se_away_team := awayTeam event;
            se_home_score := homeScore; se_away_score := awayScore;
            se_status := InProgress |}
       end.

Definition updateEventScore (eventId : string) (homeScore awayScore : Q) : M unit :=
  event ← gets (λ s, eventCache s !! eventId);
  match event with
  | None => throw EventNotFoundOnUpdate
  | Some event =>
    modify (with_eventCache (<[eventId := set_scores homeScore awayScore event]>));;
    modify (with_sports_events (partial_alter (upsert_score event homeScore awayScore) eventId));;
    resolveParlaysForEvent eventId
  end.

(** ** The POST /parlays route handler *)

Inductive response_body :=
  | ErrorBody (error : list msg_part)
  | ParlayBody (parlay : SportsParlay).

Record response := {
  res_status : Z;
  res_json : response_body
}.

(** [error.message]. *)
Definition message (e : exn) : list msg_part :=
  match e with
  | Error msg => msg
  | TypeError msg => [Text msg]
  end.

(** The handler after [verifyToken] has set [userId].  [legs] is [None]
    when the body has no [legs] or [legs] is not an array; [totalWager] is
    [None] when the body has no [totalWager]. *)
Definition post_parlays (parlay_id : string) (legIdOf : nat → string) (userId : Z)
    (legs : option (list ParlayLeg)) (totalWager : option Q) (s : db) : response * db :=
  match legs with
  | None | Some [] =>
    ({| res_status := 400; res_json := ErrorBody [Text "Invalid parlay legs"] |}, s)
  | Some legs =>
    match totalWager with
    | None => ({| res_status := 400; res_json := ErrorBody [Text "Invalid wager amount"] |}, s)
    | Some totalWager =>
      if Qeq_bool totalWager 0 || Qleb totalWager 0
      then ({| res_status := 400; res_json := ErrorBody [Text "Invalid wager amount"] |}, s)
      else
        match createParlay parlay_id legIdOf userId legs totalWager s with
        | (inr parlay, s') => ({| res_status := 201; res_json := ParlayBody parlay |}, s')
        | (inl error, s') =>
          ({| res_status := 400;
              res_json := ErrorBody (if message error is [Text ""]
                                     then [Text "Failed to create parlay"]
                                     else message error) |}, s')
        end
    end
  end.

(** ** SweepstakesService *)

Definition ineligibleStates : list string := ["MT"; "SC"; "TN"; "VT"].

Definition eligibleCountries : list string := ["US"; "CA"].

Definition UserNotFound : exn := Error [Text "User not found"].

(** [toUpperCase] on the ASCII letters. *)
Definition upper_ascii (c : ascii) : ascii :=
  let n := nat_of_ascii c in
  if (97 <=? n)%nat && (n <=? 122)%nat then ascii_of_nat (n - 32) else c.

(** [toUpperCase] on a string in UTF-8.  Beyond the ASCII letters it maps
    the characters whose upper case is made of ASCII letters: U+00DF to SS,
    U+0131 to I, U+017F to S, and the ligatures U+FB00 to U+FB06 to FF, FI,
    FL, FFI, FFL, ST and ST.  Every other character beyond ASCII is left
    as it is; its upper case has a character beyond ASCII as well, so that
    whether the result is one of the codes of [ineligibleStates] and
    [eligibleCountries], which is all the services ask of it, is as in the
    runtime. *)
Fixpoint toUpperCase (s : string) : string :=
  match s with
  | EmptyString => EmptyString
  | String "195" (String "159" rest) => "SS" +:+ toUpperCase rest
  | String "196" (String "177" rest) => "I" +:+ toUpperCase rest
  | String "197" (String "191" rest) => "S" +:+ toUpperCase rest
  | String "239" (String "172" (String "128" rest)) => "FF" +:+ toUpperCase rest
  | String "239" (String "172" (String "129" rest)) => "FI" +:+ toUpperCase rest
  | String "239" (String "172" (String "130" rest)) => "FL" +:+ toUpperCase rest
  | String "239" (String "172" (String "131" rest)) => "FFI" +:+ toUpperCase rest
  | String "239" (String "172" (String "132" rest)) => "FFL" +:+ toUpperCase rest
  | String "239" (String "172" (String "133" rest)) => "ST" +:+ toUpperCase rest
  | String "239" (String "172" (String "134" rest)) => "ST" +:+ toUpperCase rest
  | String c rest => String (upper_ascii c) (toUpperCase rest)
  end.

(** [list.includes(x)] for [x] a string or [undefined]. *)
Definition includes (l : list string) (x : option string) : bool :=
  match x with
  | Some v => bool_decide (v ∈ l)
  | None => false
  end.

(** [x || d] for [x] a string or [undefined]: the empty string is falsy. *)
Definition or_else (x : option string) (d : string) : string :=
  match x with
  | Some EmptyString | None => d
  | Some v => v
  end.

Definition AgeReason : string := "Must be 18+ years old".
Definition StateReason (state : option string) : string :=
  "Sweepstakes not available in " +:+ default "undefined" state.
Definition CountryReason : string := "Only available in US and Canada".

Definition isAgeEligible (thisYear : Z) (user : users_row) : bool :=
  bool_decide (18 ≤ thisYear - u_birth_year user)%Z.

Definition isStateEligible (user : users_row) : bool :=
  negb (includes ineligibleStates (toUpperCase <$> u_state user)).

Definition isCountryEligible (user : users_row) : bool :=
  includes eligibleCountries (Some (or_else (toUpperCase <$> u_country user) "US")).

Definition logComplianceCheck (userId age : Z) (state : option string)
    (isEligible : bool) (reason : option string) : M unit :=
  modify (with_compliance_logs (λ l, l ++
    [{| cl_user_id := userId; cl_check_type := "eligibility"; cl_age := age;
        cl_state := state; cl_is_eligible := isEligible; cl_reason := reason |}])).

(** [thisYear] is [new Date().getFullYear()]. *)
Definition checkEligibility (thisYear : Z) (userId : Z) : M ComplianceCheck :=
  result ← gets (λ s, users s !! userId);
  match result with
  | None => throw UserNotFound
  | Some user =>
    let age := (thisYear - u_birth_year user)%Z in
    let isEligible :=
      isAgeEligible thisYear user && isStateEligible user && isCountryEligible user in
    let reason :=
      if negb (isAgeEligible thisYear user) then Some AgeReason
      else if negb (isStateEligible user) then Some (StateReason (u_state user))
      else if negb (isCountryEligible user) then Some CountryReason
      else None in
    logComplianceCheck userId age (u_state user) isEligible reason;;
    mret {| userId := userId; userAge := age; userState := u_state user;
            isEligible := isEligible; reason := reason |}
  end.

(** ** Calls and reachable states *)

(** A call of a public method of the services, with the identifiers and the
    year it draws from the clock and the random generator. *)
Inductive call :=
  | CreateTable (tableId name : string) (smallBlind bigBlind : Q) (maxPlayers : Z)
  | JoinTable (tableId : string) (userId : Z) (buyIn : Q)
  | LeaveTable (tableId : string) (userId : Z) (cashOut : Q)
  | DealHand (handId tableId : string)
  | CompleteHand (handId : string) (winnerId : Z) (winningHand : string)
  | CreateParlay (parlay_id : string) (legIdOf : nat → string) (userId : Z)
      (legs : list ParlayLeg) (totalWager : Q)
  | UpdateEventScore (eventId : string) (homeScore awayScore : Q)
  | CheckEligibility (thisYear userId : Z).

(** The database after the call has returned or thrown. *)
Definition run (c : call) (s : db) : db :=
  match c with
  | CreateTable tableId name smallBlind bigBlind maxPlayers =>
    after (createTable tableId name smallBlind bigBlind maxPlayers) s
  | JoinTable tableId userId buyIn => after (joinTable tableId userId buyIn) s
  | LeaveTable tableId userId cashOut => after (leaveTable tableId userId cashOut) s
  | DealHand handId tableId => after (dealHand handId tableId) s
  | CompleteHand handId winnerId winningHand =>
    after (completeHand handId winnerId winningHand) s
  | CreateParlay parlay_id legIdOf userId legs totalWager =>
    after (createParlay parlay_id legIdOf userId legs totalWager) s
  | UpdateEventScore eventId homeScore awayScore =>
    after (updateEventScore eventId homeScore awayScore) s
  | CheckEligibility thisYear userId => after (checkEligibility thisYear userId) s
  end.

(** Every balance is non-negative. *)
Definition balances_nonneg (s : db) : Prop :=
  ∀ u c, user_balances s !! u = Some c → (0 <= c)%Q.

(** A database before any wager: users and non-negative balances only, and
    the caches as the constructors leave them. *)
Definition initial (s : db) : Prop :=
  poker_tables s = [] ∧ poker_players s = [] ∧ poker_hands s = [] ∧
  transactions s = [] ∧ sports_events s = ∅ ∧ sports_parlays s = [] ∧
  parlay_legs s = [] ∧ compliance_logs s = [] ∧ activeTables s = ∅ ∧
  eventCache s = initializeMockEvents ∅ ∧ balances_nonneg s.

Inductive reachable : db → Prop :=
  | reachable_initial s : initial s → reachable s
  | reachable_run c s : reachable s → reachable (run c s).

(** The number of active seats of a user at a table. *)
Definition active_seats (tableId : string) (userId : Z) (s : db) : nat :=
  length (filter (λ r, seat_of tableId userId r ∧ pp_is_active r = true) (poker_players s)).

(** ** Derived definitions

    What the proofs say about the operations: the database a successful
    call leaves, the products the loops compute, and the decisions of the
    resolution loop. *)

(** What the payout loop leaves of its accumulator: one binary64 quotient
    and one binary64 product per leg, in leg order. *)
Definition payout_from (legs : list ParlayLeg) (potentialPayout : float) : float :=
  fold_left (λ potentialPayout leg,
               potentialPayout * (to_binary64 (odds leg) / 100))%float
    legs potentialPayout.

(** The potential payout of a wager on the legs. *)
Definition payout_of (legs : list ParlayLeg) (totalWager : Q) : float :=
  payout_from legs (to_binary64 totalWager).

(** The rows the insertion loop appends. *)
Fixpoint leg_rows (parlay_id : string) (legIdOf : nat → string) (i : nat)
    (legs : list ParlayLeg) : list parlay_legs_row :=
  match legs with
  | [] => []
  | leg :: rest =>
    {| pl_leg_id := legIdOf i; pl_parlay_id := parlay_id;
       pl_event_id := leg_eventId leg; pl_pick := leg_pick leg;
       pl_bet_type := betType leg; pl_odds := odds leg; pl_result := None |}
    :: leg_rows parlay_id legIdOf (S i) rest
  end.

(** The database after a successful [createParlay]. *)
Definition parlay_created (parlay_id : string) (legIdOf : nat → string) (userId : Z)
    (legs : list ParlayLeg) (totalWager : Q) (s : db) : db :=
  with_transactions (λ l, l ++
    [{| tx_user_id := userId; tx_transaction_type := Bet; tx_currency := "SC";
        tx_amount := totalWager; tx_description := "Sports parlay " +:+ parlay_id;
        tx_status := "completed" |}])
  (with_user_balances (alter (λ c, c - totalWager)%Q userId)
  (with_parlay_legs (λ l, l ++ leg_rows parlay_id legIdOf 0 legs)
  (with_sports_parlays (λ l, l ++
    [{| sp_parlay_id := parlay_id; sp_user_id := userId;
        sp_total_wager := totalWager;
        sp_potential_payout := stored (payout_of legs totalWager);
        sp_status := Pending |}]) s))).

Definition terminal (st : parlay_status) : Prop := st = Won ∨ st = Lost.

(** What the loop body decides for a parlay from its legs. *)
Definition legs_resolved (pid : string) (s : db) : bool :=
  allLegsResolved (legs_query pid s).

Definition verdict (pid : string) (s : db) : parlay_status :=
  if allLegsWon (legs_query pid s) then Won else Lost.

(** A candidate that the loop body pays. *)
Definition wins (s : db) (c : candidate) : bool :=
  legs_resolved (c_parlay_id c) s && allLegsWon (legs_query (c_parlay_id c) s).

Definition win_transaction (c : candidate) : transactions_row :=
  {| tx_user_id := c_user_id c; tx_transaction_type := Win; tx_currency := "SC";
     tx_amount := c_potential_payout c;
     tx_description := "Sports parlay win " +:+ c_parlay_id c;
     tx_status := "completed" |}.

Definition credit (b : gmap Z Q) (c : candidate) : gmap Z Q :=
  alter (λ x, x + c_potential_payout c)%Q (c_user_id c) b.

Definition resolve_step (s : db) (c : candidate) : db := after (resolve_parlay c) s.

(** The product of the spec, on exact numbers: [Π (leg.odds / 100)]. *)
Fixpoint odds_product (legs : list ParlayLeg) : Q :=
  match legs with
  | [] => 1
  | leg :: rest => (odds leg / 100) * odds_product rest
  end.

(** The database after a successful [leaveTable]. *)
Definition table_left (tableId : string) (userId : Z) (cashOut : Q) (s : db) : db :=
  with_transactions (λ l, l ++
    [{| tx_user_id := userId; tx_transaction_type := Win; tx_currency := "SC";
        tx_amount := cashOut; tx_description := "Poker table cash out";
        tx_status := "completed" |}])
  (with_user_balances (alter (λ c, c + cashOut)%Q userId)
  (with_poker_players (update_where (seat_of tableId userId) deactivate) s)).

(** The database after a successful [joinTable]. *)
Definition table_joined (tableId : string) (userId : Z) (buyIn : Q) (s : db) : db :=
  with_transactions (λ l, l ++
    [{| tx_user_id := userId; tx_transaction_type := Bet; tx_currency := "SC";
        tx_amount := buyIn; tx_description := "Poker table buy-in";
        tx_status := "completed" |}])
  (with_user_balances (alter (λ c, c - buyIn)%Q userId)
  (with_poker_players (λ l, l ++
    [{| pp_table_id := tableId; pp_user_id := userId; pp_stack := buyIn;
        pp_position := UnderTheGun; pp_is_active := true;
        pp_total_wins := 0; pp_total_losses := 0 |}]) s)).

(** The database after [updateEventScore] has stored the scores. *)
Definition score_updated (eventId : string) (homeScore awayScore : Q)
    (event : SportsEvent) (s : db) : db :=
  with_sports_events (partial_alter (upsert_score event homeScore awayScore) eventId)
    (with_eventCache (<[eventId := set_scores homeScore awayScore event]>) s).

(** ** Concrete databases *)

Definition empty_db : db :=
  {| poker_tables := []; poker_players := []; poker_hands := [];
     user_balances := ∅; transactions := []; sports_events := ∅;
     sports_parlays := []; parlay_legs := []; users := ∅;
     compliance_logs := []; activeTables := ∅;
     eventCache := initializeMockEvents ∅ |}.

(** Two users: user 7 owns nothing, user 8 owns 1000 coins. *)
Definition fresh_db : db :=
  with_user_balances (λ _, {[ 7%Z := 0%Q; 8%Z := 1000%Q ]}) empty_db.

Definition run_all (calls : list call) (s : db) : db :=
  fold_left (λ s c, run c s) calls s.

(** A table has been opened. *)
Definition table_db : db :=
  run_all [CreateTable "t1" "low" 1 2 6] fresh_db.

(** User 8 joins the same table twice. *)
Definition two_seats_db : db :=
  run_all [CreateTable "t1" "low" 1 2 6; JoinTable "t1" 8 40; JoinTable "t1" 8 40] fresh_db.

(** User 8 has joined a table and left it with the buy-in. *)
Definition left_db : db :=
  run_all [CreateTable "t1" "low" 1 2 6; JoinTable "t1" 8 40; LeaveTable "t1" 8 40]
    fresh_db.

(** The same with a finished hand, won by user 8, put in [poker_hands];
    no call of the services leaves such a row. *)
Definition finished_hand_db : db :=
  with_poker_hands (λ _,
    [{| ph_hand_id := "h1"; ph_table_id := "t1"; ph_small_blind_amount := 1;
        ph_big_blind_amount := 2; ph_pot := 3; ph_status := Finished;
        ph_winner_id := Some 8%Z; ph_winning_hand := Some "flush" |}]) left_db.

Definition leg_on (eventId : string) (o : Q) : ParlayLeg :=
  {| legId := ""; leg_eventId := eventId; leg_pick := PickHome; betType := Moneyline;
     odds := o; wager := 0; result := None |}.

Definition two_legs : list ParlayLeg := [leg_on "nfl_001" 150; leg_on "nba_001" 120].

Definition leg_ids (i : nat) : string :=
  match i with
  | O => "leg_a"
  | _ => "leg_b"
  end.

(** User 8 has staked 10 coins on a parlay of two legs. *)
Definition staked_db : db :=
  run (CreateParlay "p1" leg_ids 8 two_legs 10) fresh_db.

Definition set_result (res : option leg_result) (r : parlay_legs_row) : parlay_legs_row :=
  {| pl_leg_id := pl_leg_id r; pl_parlay_id := pl_parlay_id r;
     pl_event_id := pl_event_id r; pl_pick := pl_pick r;
     pl_bet_type := pl_bet_type r; pl_odds := pl_odds r; pl_result := res |}.

Definition complete (event : SportsEvent) : SportsEvent :=
  {| eventId := eventId event; ev_sport := ev_sport event;
     homeTeam := homeTeam event; awayTeam := awayTeam event;
     ev_status := Completed;
     homeScore := homeScore event; awayScore := awayScore event;
     spread := spread event; overUnder := overUnder event;
     moneylineHome := moneylineHome event; moneylineAway := moneylineAway event |}.

(** The same after a results feed has marked both legs won and the first
    event completed. *)
Definition settled_db : db :=
  with_eventCache (alter complete "nfl_001")
    (with_parlay_legs (fmap (set_result (Some LegWon))) staked_db).

Definition one_seat_db : db :=
  run_all [CreateTable "t1" "low" 1 2 6; JoinTable "t1" 8 40] fresh_db.

(** A user born in 2000 in Tennessee, without a country; one born in 2015
    in Ohio, without a country; one born in 1990 in France. *)
Definition users_db : db :=
  {| poker_tables := []; poker_players := []; poker_hands := [];
     user_balances := ∅; transactions := []; sports_events := ∅;
     sports_parlays := []; parlay_legs := [];
     users := {[ 1%Z := {| u_birth_year := 2000; u_state := Some "tn";
                            u_country := None |};
                 2%Z := {| u_birth_year := 2015; u_state := Some "OH";
                            u_country := None |};
                 3%Z := {| u_birth_year := 1990; u_state := None;
                            u_country := Some "fr" |} ]};
     compliance_logs := []; activeTables := ∅;
     eventCache := initializeMockEvents ∅ |}.

(** ** Statistics *)

Global Instance table_status_eq_dec : EqDecision table_status.
Proof. solve_decision. Defined.

Definition sql_sum_Q (l : list Q) : option Q :=
  match l with
  | [] => None
  | _ => Some (foldr Qplus 0%Q l)
  end.

(** [AVG(x)]: NULL over no rows. *)
Definition sql_avg_Q (l : list Q) : option Q :=
  match l with
  | [] => None
  | _ => Some (foldr Qplus 0%Q l / inject_Z (Z.of_nat (length l)))%Q
  end.

(** The row [getAdminStats] of [PokerService] returns. *)
Record PokerAdminStats := {
  total_tables : nat;
  open_tables : nat;
  active_players : nat;
  tables_with_players : nat;
  total_pots_distributed : option Q;
  avg_pot_size : option Q
}.

(** The query selects [FROM poker_tables LIMIT 1]: without a table it has no
    row and the method returns [undefined]. *)
Definition getAdminStats : M (option PokerAdminStats) :=
  gets (λ s,
    match poker_tables s with
    | [] => None
    | _ =>
      let finished := filter (λ r, ph_status r = Finished) (poker_hands s) in
      Some {| total_tables := length (poker_tables s);
              open_tables := length (filter (λ r, pt_status r = TableOpen) (poker_tables s));
              active_players :=
                length (filter (λ r, pp_is_active r = true) (poker_players s));
              tables_with_players :=
                length (remove_dups (pp_table_id <$> poker_players s));
              total_pots_distributed := sql_sum_Q (ph_pot <$> finished);
              avg_pot_size := sql_avg_Q (ph_pot <$> finished) |}
    end).

(** ** What the public calls never do *)

(** No event completed, no parlay settled, no leg with a result. *)
Definition unsettled (s : db) : Prop :=
  (∀ id event, eventCache s !! id = Some event → ev_status event = Scheduled) ∧
  Forall (λ r, sp_status r = Pending) (sports_parlays s) ∧
  Forall (λ l, pl_result l = None) (parlay_legs s).

(** No hand in [poker_hands], and no win on the ledger but a cash-out. *)
Definition no_pot_paid (s : db) : Prop :=
  poker_hands s = [] ∧
  ∀ t, t ∈ transactions s → tx_transaction_type t = Win →
       tx_description t = "Poker table cash out".

(** ** The betting slip of the client *)

(** The interface [ParlayLeg] of the sports page: a leg on the slip. *)
Record SlipLeg := {
  slip_eventId : string;
  slip_pick : pick;
  slip_betType : bet_type;
  slip_odds : Q;
  slip_wager : Q
}.

(** [addLegToParlay]: the new value of the state [parlay]. *)
Definition addLegToParlay (parlay : list SlipLeg) (event : SportsEvent)
    (pick : pick) (betType : bet_type) (odds : Q) : list SlipLeg :=
  if existsb (λ leg, bool_decide (slip_eventId leg = eventId event)) parlay
  then parlay
  else parlay ++
    [{| slip_eventId := eventId event; slip_pick := pick; slip_betType := betType;
        slip_odds := odds; slip_wager := 0 |}].

(** [removeLegFromParlay]: the new value of the state [parlay]. *)
Definition removeLegFromParlay (parlay : list SlipLeg) (eventId : string) : list SlipLeg :=
  filter (λ leg, slip_eventId leg ≠ eventId) parlay.

(** [Math.round]: the integer nearest to a finite number, a half going up;
    a result of zero keeps the sign of the argument, and zeros, [Infinity]
    and [NaN] are returned as they are. *)
Definition Math_round (x : float) : float :=
  match Prim2SF x, value_of x with
  | S754_finite negative _ _, Some q =>
    match Qfloor (q + (1 # 2)) with
    | Z0 => if negative then neg_zero else zero
    | z => SF2Prim (binary_normalize prec emax z 0 false)
    end
  | _, _ => x
  end.

(** [calculatePotentialPayout], from the states [parlay] and [totalWager]. *)
Definition calculatePotentialPayout (parlay : list SlipLeg) (totalWager : Q) : float :=
  if Qeq_bool totalWager 0 then 0%float
  else
    let payout := fold_left (λ payout leg,
                               payout * (to_binary64 (slip_odds leg) / 100))%float
                    parlay (to_binary64 totalWager) in
    (Math_round (payout * 100) / 100)%float.

(** A leg of the slip as the handler receives it in the JSON body: without
    identifier and without result. *)
Definition sent_leg (leg : SlipLeg) : ParlayLeg :=
  {| legId := ""; leg_eventId := slip_eventId leg; leg_pick := slip_pick leg;
     betType := slip_betType leg; odds := slip_odds leg; wager := slip_wager leg;
     result := None |}.

(** [placeBet]: the body of the request it sends, if it sends one. *)
Definition placeBet (parlay : list SlipLeg) (totalWager : Q)
    : option (list ParlayLeg * Q) :=
  if bool_decide (length parlay = 0%nat) || Qeq_bool totalWager 0 then None
  else Some (sent_leg <$> parlay, totalWager).

(** ** SweepstakesService: terms and entry *)

(** Row of [sweepstakes_compliance], keyed by [user_id] (the conflict key
    of the upsert), without [id]. *)
Record sweepstakes_compliance_row := {
  sc_terms_accepted : bool;
  sc_disclaimer_accepted : bool;
  sc_privacy_accepted : bool;
  sc_accepted_at : Z
}.

(** The database together with the relation [sweepstakes_compliance]. *)
Record sweeps_db := {
  sweepstakes_compliance : gmap Z sweepstakes_compliance_row;
  rest_of_db : db
}.

Definition SM (A : Type) : Type := sweeps_db → (exn + A) * sweeps_db.

(** A method of the other relations, run on the whole database. *)
Definition lift {A} (m : M A) : SM A :=
  λ s, let (r, b) := m (rest_of_db s) in
       (r, {| sweepstakes_compliance := sweepstakes_compliance s; rest_of_db := b |}).

(** [now] is the [CURRENT_TIMESTAMP] of the upsert. *)
Definition acceptTerms (now : Z) (userId : Z) : SM bool :=
  λ s, (inr true,
        {| sweepstakes_compliance :=
             <[userId := {| sc_terms_accepted := true; sc_disclaimer_accepted := true;
                            sc_privacy_accepted := true; sc_accepted_at := now |}]>
               (sweepstakes_compliance s);
           rest_of_db := rest_of_db s |}).

Definition getComplianceStatus (userId : Z) : SM (option sweepstakes_compliance_row) :=
  λ s, (inr (sweepstakes_compliance s !! userId), s).

(** What [verifyEligibilityForEntry] returns. *)
Record Verification := {
  eligible : bool;
  verification_message : string
}.

Definition verifyEligibilityForEntry (thisYear userId : Z) : SM Verification :=
  λ s,
    match lift (checkEligibility thisYear userId) s with
    | (inl e, s1) => (inl e, s1)
    | (inr eligibility, s1) =>
      match getComplianceStatus userId s1 with
      | (inl e, s2) => (inl e, s2)
      | (inr compliance, s2) =>
        if negb (isEligible eligibility) then
          (inr {| eligible := false;
                  verification_message :=
                    or_else (reason eligibility) "User not eligible for sweepstakes" |}, s2)
        else if negb (default false (sc_terms_accepted <$> compliance)) then
          (inr {| eligible := false;
                  verification_message :=
                    "Must accept sweepstakes terms before participation" |}, s2)
        else
          (inr {| eligible := true;
                  verification_message :=
                    "User is eligible for sweepstakes participation" |}, s2)
      end
    end.

(** ** The poker route handlers *)

Inductive poker_body :=
  | PokerError (error : list msg_part)
  | PokerMessage (message : string)
  | PokerTableBody (table : PokerTable)
  | PokerHandBody (hand : PokerHand).

Record poker_response := {
  pres_status : Z;
  pres_json : poker_body
}.

(** [error.message || fallback]. *)
Definition message_or (e : exn) (fallback : string) : list msg_part :=
  if message e is [Text ""] then [Text fallback] else message e.

(** POST /tables.  A field of the body is [None] when it is missing;
    [!x] also holds for the empty string and for 0, and [maxPlayers || 6]
    replaces a missing or zero [maxPlayers] by 6. *)
Definition post_tables (tableId : string) (name : option string)
    (smallBlind bigBlind : option Q) (maxPlayers : option Z) (s : db)
    : poker_response * db :=
  match name, smallBlind, bigBlind with
  | Some name, Some smallBlind, Some bigBlind =>
    if bool_decide (name = "") || Qeq_bool smallBlind 0 || Qeq_bool bigBlind 0
    then ({| pres_status := 400;
             pres_json := PokerError
               [Text "Missing required fields: name, smallBlind, bigBlind"] |}, s)
    else
      let maxPlayers := match maxPlayers with
                        | Some 0%Z | None => 6%Z
                        | Some n => n
                        end in
      match createTable tableId name smallBlind bigBlind maxPlayers s with
      | (inr table, s') => ({| pres_status := 201; pres_json := PokerTableBody table |}, s')
      | (inl _, s') =>
        ({| pres_status := 500;
            pres_json := PokerError [Text "Failed to create poker table"] |}, s')
      end
  | _, _, _ =>
    ({| pres_status := 400;
        pres_json := PokerError
          [Text "Missing required fields: name, smallBlind, bigBlind"] |}, s)
  end.

(** POST /tables/:tableId/join, after [verifyToken] has set [userId]. *)
Definition post_join (tableId : string) (userId : Z) (buyIn : option Q) (s : db)
    : poker_response * db :=
  match buyIn with
  | None =>
    ({| pres_status := 400; pres_json := PokerError [Text "Invalid buy-in amount"] |}, s)
  | Some buyIn =>
    if Qeq_bool buyIn 0 || Qleb buyIn 0
    then ({| pres_status := 400;
             pres_json := PokerError [Text "Invalid buy-in amount"] |}, s)
    else
      match joinTable tableId userId buyIn s with
      | (inr true, s') =>
        ({| pres_status := 200; pres_json := PokerMessage "Successfully joined table" |}, s')
      | (inr false, s') =>
        ({| pres_status := 500; pres_json := PokerError [Text "Failed to join table"] |}, s')
      | (inl error, s') =>
        ({| pres_status := 400;
            pres_json := PokerError (message_or error "Failed to join poker table") |}, s')
      end
  end.

(** POST /tables/:tableId/leave, after [verifyToken] has set [userId]. *)
Definition post_leave (tableId : string) (userId : Z) (cashOut : option Q) (s : db)
    : poker_response * db :=
  match cashOut with
  | None =>
    ({| pres_status := 400; pres_json := PokerError [Text "Invalid cash out amount"] |}, s)
  | Some cashOut =>
    if Qeq_bool cashOut 0 || Qleb cashOut 0
    then ({| pres_status := 400;
             pres_json := PokerError [Text "Invalid cash out amount"] |}, s)
    else
      match leaveTable tableId userId cashOut s with
      | (inr true, s') =>
        ({| pres_status := 200;
            pres_json := PokerMessage "Successfully left table and cashed out" |}, s')
      | (inr false, s') =>
        ({| pres_status := 500; pres_json := PokerError [Text "Failed to leave table"] |}, s')
      | (inl error, s') =>
        ({| pres_status := 400;
            pres_json := PokerError (message_or error "Failed to leave table") |}, s')
      end
  end.

(** POST /tables/:tableId/deal. *)
Definition post_deal (handId tableId : string) (s : db) : poker_response * db :=
  match dealHand handId tableId s with
  | (inr hand, s') => ({| pres_status := 200; pres_json := PokerHandBody hand |}, s')
  | (inl _, s') =>
    ({| pres_status := 500; pres_json := PokerError [Text "Failed to deal hand"] |}, s')
  end.

(** POST /hands/:handId/complete: [!winnerId] holds for a missing winner
    and for the user 0, [!winningHand] for a missing and for an empty
    string. *)
Definition post_complete (handId : string) (winnerId : option Z)
    (winningHand : option string) (s : db) : poker_response * db :=
  match winnerId, winningHand with
  | Some winnerId, Some winningHand =>
    if bool_decide (winnerId = 0%Z) || bool_decide (winningHand = "")
    then ({| pres_status := 400;
             pres_json := PokerError
               [Text "Missing required fields: winnerId, winningHand"] |}, s)
    else
      match completeHand handId winnerId winningHand s with
      | (inr _, s') =>
        ({| pres_status := 200; pres_json := PokerMessage "Hand completed successfully" |}, s')
      | (inl _, s') =>
        ({| pres_status := 500;
            pres_json := PokerError [Text "Failed to complete hand"] |}, s')
      end
  | _, _ =>
    ({| pres_status := 400;
        pres_json := PokerError
          [Text "Missing required fields: winnerId, winningHand"] |}, s)
  end.

(** ** The statistics of the parlays *)

(** The row [getAdminStats] of [SportsParleyService] returns. *)
Record SportsAdminStats := {
  total_parlays : nat;
  winning_parlays : nat;
  losing_parlays : nat;
  pending_parlays : nat;
  total_wagers : option Q;
  total_payouts : option Q
}.

(** [getAdminStats] of [SportsParleyService].  The query selects
    [FROM sports_parlays LIMIT 1]: without a parlay it has no row and the
    method returns [undefined]. *)
Definition getAdminStats_sports : M (option SportsAdminStats) :=
  gets (λ s,
    match sports_parlays s with
    | [] => None
    | _ =>
      let with_status st := filter (λ r, sp_status r = st) (sports_parlays s) in
      Some {| total_parlays := length (sports_parlays s);
              winning_parlays := length (with_status Won);
              losing_parlays := length (with_status Lost);
              pending_parlays := length (with_status Pending);
              total_wagers := sql_sum_Q (sp_total_wager <$> sports_parlays s);
              total_payouts := sql_sum_Q (sp_potential_payout <$> with_status Won) |}
    end).

(** [SUM(potential_payout) ... WHERE status = 'won'], read as 0 when it is
    NULL. *)
Definition won_payouts (rows : list sports_parlays_row) : Q :=
  foldr Qplus 0%Q (sp_potential_payout <$> filter (λ r, sp_status r = Won) rows).

(** ** Further concrete databases *)

(** A table with a big blind of 10: the bounds are 200 and 5000. *)
Definition ten_blind_db : db := after (createTable "t2" "mid" 5 10 6) fresh_db.

(** A table for two, with both seats taken. *)
Definition full_table_db : db :=
  run_all [CreateTable "t3" "duo" 1 2 2; JoinTable "t3" 8 40; JoinTable "t3" 8 40]
    fresh_db.

(** A leg sent with the result "won" already in it. *)
Definition won_leg : ParlayLeg :=
  {| legId := "mine"; leg_eventId := "nfl_001"; leg_pick := PickAway;
     betType := Spread; odds := 200; wager := 5; result := Some LegWon |}.

(** The parlay of [staked_db] with its first leg won and its event
    completed; the second leg has no result yet. *)
Definition half_settled_db : db :=
  with_eventCache (alter complete "nfl_001")
    (with_parlay_legs (λ l, match l with
                            | leg :: rest => set_result (Some LegWon) leg :: rest
                            | [] => []
                            end) staked_db).

(** The parlay of [staked_db] with its first leg won, its second leg
    carrying the value pending as result, and the first event completed. *)
Definition pending_leg_db : db :=
  with_eventCache (alter complete "nfl_001")
    (with_parlay_legs (λ l, match l with
                            | leg :: rest =>
                              set_result (Some LegWon) leg
                              :: (set_result (Some LegPending) <$> rest)
                            | [] => []
                            end) staked_db).

(** The database after a stake and a final score for each of its events. *)
Definition scored_db : db :=
  run_all [CreateParlay "p1" leg_ids 8 two_legs 10;
           UpdateEventScore "nfl_001" 31 17; UpdateEventScore "nba_001" 99 102] fresh_db.

Definition lakers_game : SportsEvent :=
  {| eventId := "nba_001"; ev_sport := Nba;
     homeTeam := "Los Angeles Lakers"; awayTeam := "Denver Nuggets";
     ev_status := Scheduled; homeScore := None; awayScore := None;
     spread := Some (-2)%Q; overUnder := Some 218%Q;
     moneylineHome := Some (-115)%Q; moneylineAway := Some (-105)%Q |}.

Definition lakers_slip : list SlipLeg :=
  addLegToParlay [] lakers_game PickHome Moneyline (-115).

Definition chiefs_game : SportsEvent :=
  {| eventId := "nfl_001"; ev_sport := Nfl;
     homeTeam := "Kansas City Chiefs"; awayTeam := "Buffalo Bills";
     ev_status := Scheduled; homeScore := None; awayScore := None;
     spread := Some (-7 # 2)%Q; overUnder := Some (95 # 2)%Q;
     moneylineHome := Some (-170)%Q; moneylineAway := Some 145%Q |}.

(** The home side of the spread of one game at 110 and the away side of
    the moneyline of another at 145. *)
Definition spread_slip : list SlipLeg :=
  addLegToParlay (addLegToParlay [] lakers_game PickHome Spread 110)
    chiefs_game PickAway Moneyline 145.

(** User 2, too young, has accepted the terms; user 4, born in 1990 in
    Ohio, has not. *)
Definition entry_db : sweeps_db :=
  {| sweepstakes_compliance :=
       {[ 2%Z := {| sc_terms_accepted := true; sc_disclaimer_accepted := true;
                    sc_privacy_accepted := true;
                    sc_accepted_at := 1700000000 |} ]};
     rest_of_db :=
       {| poker_tables := []; poker_players := []; poker_hands := [];
          user_balances := ∅; transactions := []; sports_events := ∅;
          sports_parlays := []; parlay_legs := [];
          users := <[4%Z := {| u_birth_year := 1990; u_state := Some "oh";
                               u_country := Some "us" |}]> (users users_db);
          compliance_logs := []; activeTables := ∅;
          eventCache := initializeMockEvents ∅ |} |}.

(** * Properties *)

(** ** Comparisons *)

Lemma Qltb_lt x y : Qltb x y = true ↔ (x < y)%Q.
Proof.
  unfold Qltb. rewrite negb_true_iff, <- not_true_iff_false, Qle_bool_iff.
  split; [apply Qnot_le_lt | apply Qlt_not_le].
Qed.

Lemma Qltb_ge x y : Qltb x y = false ↔ (y <= x)%Q.
Proof. unfold Qltb. rewrite negb_false_iff. apply Qle_bool_iff. Qed.

Lemma Qleb_le x y : Qleb x y = true ↔ (x <= y)%Q.
Proof. apply Qle_bool_iff. Qed.

Lemma Qleb_gt x y : Qleb x y = false ↔ (y < x)%Q.
Proof.
  unfold Qleb. rewrite <- not_true_iff_false, Qle_bool_iff.
  split; [apply Qnot_le_lt | apply Qlt_not_le].
Qed.

(** ** Proof support *)

Ltac unfold_M :=
  unfold after, outcome, add_coins, sub_coins, log_transaction, getEvent,
    logComplianceCheck in *;
  unfold mbind, M_bind, mret, M_ret, gets, throw, modify in *; simpl in *.

Lemma nonneg_alter_add (m : gmap Z Q) (u : Z) (x : Q) :
  (0 <= x)%Q →
  (∀ v c, m !! v = Some c → (0 <= c)%Q) →
  ∀ v c, alter (λ c, c + x)%Q u m !! v = Some c → (0 <= c)%Q.
Proof.
  intros Hx Hm v c. rewrite lookup_alter. case_decide as Huv.
  - subst v. destruct (m !! u) as [c0|] eqn:Hu; simpl; [|done].
    intros [= <-]. specialize (Hm _ _ Hu). lra.
  - apply Hm.
Qed.

Lemma nonneg_alter_sub (m : gmap Z Q) (u : Z) (x c0 : Q) :
  m !! u = Some c0 → (x <= c0)%Q →
  (∀ v c, m !! v = Some c → (0 <= c)%Q) →
  ∀ v c, alter (λ c, c - x)%Q u m !! v = Some c → (0 <= c)%Q.
Proof.
  intros Hu Hx Hm v c. rewrite lookup_alter. case_decide as Huv.
  - subst v. rewrite Hu. simpl. intros [= <-]. lra.
  - apply Hm.
Qed.

(** *** The balances after each call *)

Lemma joinTable_balances tableId userId buyIn s :
  user_balances (after (joinTable tableId userId buyIn) s) = user_balances s ∨
  ∃ c, user_balances s !! userId = Some c ∧ (buyIn <= c)%Q ∧
       user_balances (after (joinTable tableId userId buyIn) s) =
       alter (λ c, c - buyIn)%Q userId (user_balances s).
Proof.
  unfold joinTable. unfold_M.
  destruct (head _) as [table|]; [|by left].
  destruct (_ || _); [by left|].
  case_bool_decide; [by left|].
  destruct (user_balances s !! userId) as [c|] eqn:Hc; [|by left].
  destruct (Qltb c buyIn) eqn:Hlt; [by left|].
  right. exists c. split_and!; [done| by apply Qltb_ge |done].
Qed.

Lemma leaveTable_balances tableId userId cashOut s :
  user_balances (after (leaveTable tableId userId cashOut) s) = user_balances s ∨
  user_balances (after (leaveTable tableId userId cashOut) s) =
  alter (λ c, c + cashOut)%Q userId (user_balances s).
Proof.
  unfold leaveTable. unfold_M.
  destruct (head _); [by right | by left].
Qed.

(** [dealHand] and [completeHand] throw at [this.pool.query], before any
    read and any write. *)
Lemma dealHand_throws handId tableId s :
  dealHand handId tableId s = (inl (undefined_read "query"), s).
Proof. reflexivity. Qed.

Lemma completeHand_throws handId winnerId winningHand s :
  completeHand handId winnerId winningHand s = (inl (undefined_read "query"), s).
Proof. reflexivity. Qed.

(** *** Creating a parlay *)

Lemma payout_loop_cases legs p s :
  payout_loop legs p s = (inr (payout_from legs p), s) ∨
  ∃ leg, leg ∈ legs ∧ eventCache s !! leg_eventId leg = None ∧
         payout_loop legs p s = (inl (EventNotFound (leg_eventId leg)), s).
Proof.
  revert p. induction legs as [|leg rest IH]; intros p; simpl.
  - by left.
  - unfold_M. destruct (eventCache s !! leg_eventId leg) eqn:Hev.
    + destruct (IH (p * (to_binary64 (odds leg) / 100))%float)
        as [->|(l & Hl & Hnone & ->)].
      * by left.
      * right. exists l. split_and!; [by right|done|done].
    + right. exists leg. split_and!; [by left|done|done].
Qed.

Lemma insert_legs_spec parlay_id legIdOf i legs s :
  insert_legs parlay_id legIdOf i legs s =
  (inr tt, with_parlay_legs (λ l, l ++ leg_rows parlay_id legIdOf i legs) s).
Proof.
  revert i s. induction legs as [|leg rest IH]; intros i s; simpl.
  - unfold_M. f_equal. destruct s; unfold with_parlay_legs; simpl.
    by rewrite app_nil_r.
  - unfold_M. rewrite IH. f_equal.
    unfold with_parlay_legs; simpl. by rewrite <- app_assoc.
Qed.

Lemma createParlay_cases parlay_id legIdOf userId legs totalWager s :
  (∃ e, createParlay parlay_id legIdOf userId legs totalWager s = (inl e, s)) ∨
  (∃ c, (0 < totalWager)%Q ∧ user_balances s !! userId = Some c ∧ (totalWager <= c)%Q ∧
        Forall (λ leg, is_Some (eventCache s !! leg_eventId leg)) legs ∧
        createParlay parlay_id legIdOf userId legs totalWager s =
        (inr {| parlay_id := parlay_id; user_id := userId; legs := legs;
                total_wager := totalWager;
                potential_payout := payout_of legs totalWager;
                parlay_status_of := Pending |},
         parlay_created parlay_id legIdOf userId legs totalWager s)).
Proof.
  unfold createParlay.
  destruct (Qleb totalWager 0) eqn:Hw; [left; by eexists|].
  unfold_M.
  destruct (user_balances s !! userId) as [c|] eqn:Hc; [|left; by eexists].
  destruct (Qltb c totalWager) eqn:Hlt; [left; by eexists|].
  destruct (payout_loop_cases legs (to_binary64 totalWager) s)
    as [Hp|(leg & Hin & Hnone & Hp)]; rewrite Hp; [|left; by eexists].
  right. exists c. rewrite insert_legs_spec.
  split_and!; [by apply Qleb_gt|done|by apply Qltb_ge| |done].
  clear -Hp. revert Hp. generalize (to_binary64 totalWager).
  induction legs as [|leg rest IH]; intros p Hp; [constructor|].
  simpl in Hp. unfold_M.
  destruct (eventCache s !! leg_eventId leg) eqn:Hev; [|done].
  constructor; [by eexists|]. by eapply IH.
Qed.

(** What [createParlay] throws has a message, so that the handler shows
    it. *)
Lemma createParlay_error_message parlay_id legIdOf userId legs totalWager s e s' :
  createParlay parlay_id legIdOf userId legs totalWager s = (inl e, s') →
  s' = s ∧ message e ≠ [Text ""].
Proof.
  unfold createParlay.
  destruct (Qleb totalWager 0) eqn:Hw; [by intros [= <- <-]|].
  unfold_M.
  destruct (user_balances s !! userId) as [c|] eqn:Hc; [|by intros [= <- <-]].
  destruct (Qltb c totalWager) eqn:Hlt; [by intros [= <- <-]|].
  destruct (payout_loop_cases legs (to_binary64 totalWager) s)
    as [Hp|(leg & Hin & Hnone & Hp)]; rewrite Hp; [|by intros [= <- <-]].
  by rewrite insert_legs_spec.
Qed.

Lemma createParlay_balances parlay_id legIdOf userId legs totalWager s :
  user_balances (after (createParlay parlay_id legIdOf userId legs totalWager) s)
    = user_balances s ∨
  ∃ c, user_balances s !! userId = Some c ∧ (totalWager <= c)%Q ∧
       user_balances (after (createParlay parlay_id legIdOf userId legs totalWager) s) =
       alter (λ c, c - totalWager)%Q userId (user_balances s).
Proof.
  unfold after.
  destruct (createParlay_cases parlay_id legIdOf userId legs totalWager s)
    as [[e ->]|(c & _ & Hc & Hle & _ & ->)]; [by left|].
  right. by exists c.
Qed.

(** *** Resolution of parlays *)

Lemma allLegsResolved_forallb l :
  allLegsResolved l = forallb (λ leg, bool_decide (pl_result leg ≠ None)) l.
Proof.
  unfold allLegsResolved.
  assert (∀ acc, fold_left (λ acc leg, if pl_result leg is None then false else acc) l acc
                 = acc && forallb (λ leg, bool_decide (pl_result leg ≠ None)) l) as H.
  { induction l as [|leg l IH]; intros acc; simpl.
    - by rewrite andb_true_r.
    - rewrite IH. destruct (pl_result leg); simpl.
      + done.
      + by rewrite andb_false_r. }
  by rewrite H.
Qed.

Lemma verdict_terminal pid s : terminal (verdict pid s).
Proof. unfold verdict, terminal. destruct (allLegsWon _); auto. Qed.

(** The loop body never throws; this is the database it leaves. *)
Lemma resolve_parlay_spec c s :
  resolve_parlay c s =
  (inr tt,
   if legs_resolved (c_parlay_id c) s then
     let s1 := with_sports_parlays
       (update_where (λ r, sp_parlay_id r = c_parlay_id c)
          (set_status (verdict (c_parlay_id c) s))) s in
     if wins s c then
       with_transactions (λ l, l ++ [win_transaction c])
         (with_user_balances (λ b, credit b c) s1)
     else s1
   else s).
Proof.
  unfold resolve_parlay, wins, legs_resolved, verdict. unfold_M.
  destruct (allLegsResolved _); [|done]. simpl.
  destruct (allLegsWon _); simpl; try case_decide; done.
Qed.

Lemma for_each_resolve cs s :
  for_each cs resolve_parlay s = (inr tt, fold_left resolve_step cs s).
Proof.
  revert s. induction cs as [|c cs IH]; intros s; simpl; [done|].
  unfold resolve_step at 2, after. unfold mbind, M_bind.
  rewrite resolve_parlay_spec. simpl. apply IH.
Qed.

Lemma resolveParlaysForEvent_spec eventId s :
  resolveParlaysForEvent eventId s =
  (inr tt,
   match eventCache s !! eventId with
   | Some event =>
     if decide (ev_status event = Completed)
     then fold_left resolve_step (candidates eventId s) s else s
   | None => s
   end).
Proof.
  unfold resolveParlaysForEvent. unfold_M.
  destruct (eventCache s !! eventId) as [event|]; [|done].
  destruct (decide (ev_status event = Completed)) as [Hc|Hc].
  - rewrite decide_False by (intros H; by apply H).
    apply for_each_resolve.
  - by rewrite decide_True.
Qed.

(** The legs query reads the parlays only through their identifiers. *)
Lemma legs_query_ext pid s s' :
  parlay_legs s = parlay_legs s' →
  sp_parlay_id <$> sports_parlays s = sp_parlay_id <$> sports_parlays s' →
  legs_query pid s = legs_query pid s'.
Proof.
  unfold legs_query. intros <- Hids.
  induction (parlay_legs s) as [|pl legs IH]; [done|].
  simpl. f_equal; [|done]. clear IH.
  revert Hids. generalize (sports_parlays s'). 
  induction (sports_parlays s) as [|sp sps IH]; intros [|sp' sps'] Hids; try done.
  simpl in *. injection Hids as Hid Hids. rewrite Hid. f_equal. by apply IH.
Qed.

Lemma update_where_status_ids (P : sports_parlays_row → Prop) `{∀ r, Decision (P r)} st rows :
  sp_parlay_id <$> update_where P (set_status st) rows = sp_parlay_id <$> rows.
Proof.
  unfold update_where. rewrite <- list_fmap_compose.
  apply list_fmap_ext. intros i r _. simpl. by case_decide.
Qed.

(** One step of the loop keeps the legs, the cache and the parlay
    identifiers, hence every later decision of the loop. *)
Lemma resolve_step_frame s c :
  parlay_legs (resolve_step s c) = parlay_legs s ∧
  eventCache (resolve_step s c) = eventCache s ∧
  sp_parlay_id <$> sports_parlays (resolve_step s c) = sp_parlay_id <$> sports_parlays s.
Proof.
  unfold resolve_step, after. rewrite resolve_parlay_spec. simpl.
  destruct (legs_resolved _ _); [|done].
  destruct (wins s c); simpl; split_and!; try done;
    apply update_where_status_ids.
Qed.

Lemma resolve_step_legs_query s c pid :
  legs_query pid (resolve_step s c) = legs_query pid s.
Proof.
  destruct (resolve_step_frame s c) as (Hl & _ & Hids). by apply legs_query_ext.
Qed.

Lemma resolve_fold_legs_query cs s pid :
  legs_query pid (fold_left resolve_step cs s) = legs_query pid s.
Proof.
  revert s. induction cs as [|c cs IH]; intros s; simpl; [done|].
  by rewrite IH, resolve_step_legs_query.
Qed.

Lemma resolve_fold_frame cs s :
  parlay_legs (fold_left resolve_step cs s) = parlay_legs s ∧
  eventCache (fold_left resolve_step cs s) = eventCache s.
Proof.
  revert s. induction cs as [|c cs IH]; intros s; simpl; [done|].
  destruct (IH (resolve_step s c)) as [-> ->].
  destruct (resolve_step_frame s c) as (-> & -> & _). done.
Qed.

Lemma candidate_eqb_refl c : candidate_eqb c c = true.
Proof.
  unfold candidate_eqb. rewrite !bool_decide_eq_true_2 by done.
  simpl. rewrite !(proj2 (Qeq_bool_iff _ _)); [done| |]; reflexivity.
Qed.

Lemma candidate_eqb_parlay_id a b :
  candidate_eqb a b = true → c_parlay_id a = c_parlay_id b.
Proof.
  unfold candidate_eqb. rewrite !andb_true_iff, !bool_decide_eq_true. tauto.
Qed.

Lemma distinct_from_subset seen rows c : c ∈ distinct_from seen rows → c ∈ rows.
Proof.
  revert seen. induction rows as [|x rest IH]; intros seen; simpl; [done|].
  destruct (existsb _ seen).
  - intros H. right. by eapply IH.
  - intros [->|H]%elem_of_cons; [by left|]. right. by eapply IH.
Qed.

Lemma distinct_from_complete seen rows c :
  c ∈ rows →
  (∃ y, y ∈ seen ∧ candidate_eqb c y = true) ∨
  (∃ y, y ∈ distinct_from seen rows ∧ candidate_eqb c y = true).
Proof.
  revert seen. induction rows as [|x rest IH]; intros seen; simpl.
  - by intros ?%elem_of_nil.
  - intros [->|Hin]%elem_of_cons.
    + destruct (existsb (candidate_eqb x) seen) eqn:Hex.
      * left. apply existsb_exists in Hex as (y & Hy & Heq).
        exists y. split; [by apply list_elem_of_In|done].
      * right. exists x. split; [by left|apply candidate_eqb_refl].
    + destruct (existsb (candidate_eqb x) seen) eqn:Hex.
      * by apply IH.
      * destruct (IH (x :: seen) Hin) as [(y & [->|Hy]%elem_of_cons & Heq)|(y & Hy & Heq)].
        -- right. exists x. split; [by left|done].
        -- left. by exists y.
        -- right. exists y. split; [by right|done].
Qed.

(** [SELECT DISTINCT] returns no row twice. *)
Lemma distinct_from_fresh seen rows c :
  c ∈ distinct_from seen rows → existsb (candidate_eqb c) seen = false.
Proof.
  revert seen. induction rows as [|x rest IH]; intros seen; simpl.
  - by intros ?%elem_of_nil.
  - destruct (existsb (candidate_eqb x) seen) eqn:Hex; [apply IH|].
    intros [->|Hin]%elem_of_cons; [done|].
    apply IH in Hin. simpl in Hin. by apply orb_false_elim in Hin as [_ ?].
Qed.

Lemma distinct_NoDup rows : NoDup (distinct rows).
Proof.
  unfold distinct. generalize (@nil candidate).
  induction rows as [|x rest IH]; intros seen; simpl; [constructor|].
  destruct (existsb (candidate_eqb x) seen); [apply IH|].
  constructor; [|apply IH].
  intros Hin%distinct_from_fresh. simpl in Hin.
  by rewrite candidate_eqb_refl in Hin.
Qed.

(** Who the candidates are. *)
Lemma elem_of_candidates eventId s c :
  c ∈ candidates eventId s →
  ∃ sp pl, sp ∈ sports_parlays s ∧ pl ∈ parlay_legs s ∧
           sp_parlay_id sp = pl_parlay_id pl ∧ pl_event_id pl = eventId ∧
           sp_status sp = Pending ∧ c = candidate_of sp.
Proof.
  unfold candidates, distinct. intros Hin%distinct_from_subset.
  apply list_elem_of_bind in Hin as (sp & Hin & Hsp).
  apply list_elem_of_bind in Hin as (pl & Hin & Hpl).
  case_decide as Hd; [|by apply elem_of_nil in Hin].
  apply list_elem_of_singleton in Hin. destruct Hd as (? & ? & ?).
  by exists sp, pl.
Qed.

Lemma candidates_complete eventId s sp pl :
  sp ∈ sports_parlays s → pl ∈ parlay_legs s →
  sp_parlay_id sp = pl_parlay_id pl → pl_event_id pl = eventId →
  sp_status sp = Pending →
  ∃ c, c ∈ candidates eventId s ∧ c_parlay_id c = sp_parlay_id sp.
Proof.
  intros Hsp Hpl Hid Hev Hst. unfold candidates, distinct.
  match goal with |- ∃ c, c ∈ distinct_from [] ?rows ∧ _ =>
    destruct (distinct_from_complete [] rows (candidate_of sp))
      as [(y & Hy & _)|(y & Hy & Heq)]
  end.
  - apply list_elem_of_bind. exists sp. split; [|done].
    apply list_elem_of_bind. exists pl. split; [|done].
    rewrite decide_True by done. by apply list_elem_of_singleton.
  - by apply elem_of_nil in Hy.
  - exists y. split; [done|]. by apply candidate_eqb_parlay_id in Heq.
Qed.

Lemma candidates_NoDup eventId s : NoDup (candidates eventId s).
Proof. apply distinct_NoDup. Qed.

(** The parlays after one step of the loop. *)
Lemma resolve_step_parlays s c :
  sports_parlays (resolve_step s c) =
  if legs_resolved (c_parlay_id c) s
  then update_where (λ r, sp_parlay_id r = c_parlay_id c)
         (set_status (verdict (c_parlay_id c) s)) (sports_parlays s)
  else sports_parlays s.
Proof.
  unfold resolve_step, after. rewrite resolve_parlay_spec. simpl.
  destruct (legs_resolved _ _); [|done]. by destruct (wins s c).
Qed.

Lemma elem_of_update_where {A} (P : A → Prop) `{∀ r, Decision (P r)} f rows (r' : A) :
  r' ∈ update_where P f rows ↔
  ∃ r, r ∈ rows ∧ r' = if decide (P r) then f r else r.
Proof.
  unfold update_where. rewrite list_elem_of_fmap.
  split; intros (r & H1 & H2); exists r; by split.
Qed.

(** A parlay still pending after the loop was pending, and the same row,
    before it. *)
Lemma resolve_step_pending s c r :
  r ∈ sports_parlays (resolve_step s c) → sp_status r = Pending →
  r ∈ sports_parlays s.
Proof.
  rewrite resolve_step_parlays. destruct (legs_resolved _ _); [|done].
  intros (r0 & Hr0 & ->)%elem_of_update_where. case_decide; [|done].
  simpl. by destruct (verdict_terminal (c_parlay_id c) s) as [-> | ->].
Qed.

Lemma resolve_fold_pending cs s r :
  r ∈ sports_parlays (fold_left resolve_step cs s) → sp_status r = Pending →
  r ∈ sports_parlays s.
Proof.
  revert s. induction cs as [|c cs IH]; intros s; simpl; [done|].
  intros Hr Hst. eapply resolve_step_pending; [|done]. by apply IH.
Qed.

(** Once every row of a parlay is won or lost, it stays so. *)
Lemma resolve_step_terminal s c pid :
  (∀ r, r ∈ sports_parlays s → sp_parlay_id r = pid → terminal (sp_status r)) →
  ∀ r, r ∈ sports_parlays (resolve_step s c) → sp_parlay_id r = pid →
       terminal (sp_status r).
Proof.
  intros Hs r. rewrite resolve_step_parlays. destruct (legs_resolved _ _); [|apply Hs].
  intros (r0 & Hr0 & ->)%elem_of_update_where. case_decide; simpl.
  - intros _. apply verdict_terminal.
  - by apply Hs.
Qed.

Lemma resolve_fold_terminal cs s pid :
  (∀ r, r ∈ sports_parlays s → sp_parlay_id r = pid → terminal (sp_status r)) →
  ∀ r, r ∈ sports_parlays (fold_left resolve_step cs s) → sp_parlay_id r = pid →
       terminal (sp_status r).
Proof.
  revert s. induction cs as [|c cs IH]; intros s Hs; simpl; [done|].
  apply IH. by apply resolve_step_terminal.
Qed.

(** The step for a parlay whose legs all carry a result settles it. *)
Lemma resolve_step_settles s c :
  legs_resolved (c_parlay_id c) s = true →
  ∀ r, r ∈ sports_parlays (resolve_step s c) → sp_parlay_id r = c_parlay_id c →
       terminal (sp_status r).
Proof.
  intros Hres r. rewrite resolve_step_parlays, Hres.
  intros (r0 & Hr0 & ->)%elem_of_update_where. case_decide; simpl.
  - intros _. apply verdict_terminal.
  - done.
Qed.

Lemma resolve_fold_settles cs s c :
  c ∈ cs → legs_resolved (c_parlay_id c) s = true →
  ∀ r, r ∈ sports_parlays (fold_left resolve_step cs s) →
       sp_parlay_id r = c_parlay_id c → terminal (sp_status r).
Proof.
  revert s. induction cs as [|c0 cs IH]; intros s Hin Hres; simpl.
  - by apply elem_of_nil in Hin.
  - apply elem_of_cons in Hin as [->|Hin].
    + apply resolve_fold_terminal. by apply resolve_step_settles.
    + apply IH; [done|].
      unfold legs_resolved in *. by rewrite resolve_step_legs_query.
Qed.

(** The loop does nothing when no candidate has all its legs resolved. *)
Lemma resolve_fold_idle cs s :
  (∀ c, c ∈ cs → legs_resolved (c_parlay_id c) s = false) →
  fold_left resolve_step cs s = s.
Proof.
  induction cs as [|c cs IH]; intros Hcs; simpl; [done|].
  assert (resolve_step s c = s) as ->.
  { unfold resolve_step, after. rewrite resolve_parlay_spec. simpl.
    rewrite Hcs; [done|by left]. }
  apply IH. intros c' Hc'. apply Hcs. by right.
Qed.

(** After the loop, every remaining candidate has an unresolved leg. *)
Lemma resolve_fold_leaves_unresolved eventId s c :
  c ∈ candidates eventId (fold_left resolve_step (candidates eventId s) s) →
  legs_resolved (c_parlay_id c) (fold_left resolve_step (candidates eventId s) s) = false.
Proof.
  set (s1 := fold_left resolve_step (candidates eventId s) s).
  intros (sp & pl & Hsp & Hpl & Hid & Hev & Hst & ->)%elem_of_candidates.
  simpl. unfold legs_resolved. subst s1. rewrite resolve_fold_legs_query.
  destruct (allLegsResolved _) eqn:Hres; [exfalso|done].
  pose proof (resolve_fold_pending _ _ _ Hsp Hst) as Hsp0.
  rewrite (proj1 (resolve_fold_frame _ _)) in Hpl.
  destruct (candidates_complete eventId s sp pl) as (c & Hc & Hcid); [done..|].
  destruct (resolve_fold_settles (candidates eventId s) s c Hc) with (r := sp)
    as [Hw|Hl]; [by rewrite Hcid|done|done|congruence..].
Qed.

(** The ledger after one step of the loop. *)
Lemma resolve_step_ledger s c :
  user_balances (resolve_step s c) =
    (if wins s c then credit (user_balances s) c else user_balances s) ∧
  transactions (resolve_step s c) =
    (if wins s c then transactions s ++ [win_transaction c] else transactions s).
Proof.
  unfold resolve_step, after. rewrite resolve_parlay_spec. simpl.
  destruct (wins s c) eqn:Hwin.
  - apply andb_true_iff in Hwin as [-> _]. done.
  - by destruct (legs_resolved _ _).
Qed.

(** The balances and the transaction log after the loop: one credit and
    one record for each candidate that wins, in the order of the
    candidates. *)
Lemma resolve_fold_ledger cs s :
  user_balances (fold_left resolve_step cs s) =
    fold_left credit (List.filter (wins s) cs) (user_balances s) ∧
  transactions (fold_left resolve_step cs s) =
    transactions s ++ (win_transaction <$> List.filter (wins s) cs).
Proof.
  assert (∀ s0, (∀ pid, legs_query pid s0 = legs_query pid s) →
    user_balances (fold_left resolve_step cs s0) =
      fold_left credit (List.filter (wins s) cs) (user_balances s0) ∧
    transactions (fold_left resolve_step cs s0) =
      transactions s0 ++ (win_transaction <$> List.filter (wins s) cs)) as H.
  { induction cs as [|c cs IH]; intros s0 Hq; simpl.
    - by rewrite app_nil_r.
    - destruct (IH (resolve_step s0 c)) as [-> ->].
      { intros pid. by rewrite resolve_step_legs_query. }
      assert (wins s0 c = wins s c) as Hw.
      { unfold wins, legs_resolved. by rewrite Hq. }
      destruct (resolve_step_ledger s0 c) as [-> ->]. rewrite Hw.
      destruct (wins s c); simpl; [|done].
      by rewrite <- app_assoc. }
  by apply H.
Qed.

(** *** What the calls leave, and the reachable states *)

Lemma update_where_none {A} (P : A → Prop) `{∀ r, Decision (P r)} f (rows : list A) :
  filter P rows = [] → update_where P f rows = rows.
Proof.
  unfold update_where. induction rows as [|r rows IH]; [done|].
  rewrite filter_cons. case_decide; [done|]. intros Hnone.
  rewrite fmap_cons, decide_False by done. f_equal. by apply IH.
Qed.

Lemma filter_none {A} (P : A → Prop) `{∀ r, Decision (P r)} (rows : list A) :
  (∀ r, r ∈ rows → ¬ P r) → filter P rows = [].
Proof.
  intros Hnone. apply elem_of_nil_inv.
  intros r [HP Hr]%list_elem_of_filter. by apply (Hnone r).
Qed.

(** [leaveTable] throws exactly when the user has no seat, active or not,
    at the table, and then it changes nothing. *)
Lemma leaveTable_spec tableId userId cashOut s :
  leaveTable tableId userId cashOut s =
  if decide (filter (seat_of tableId userId) (poker_players s) = [])
  then (inl PlayerNotFound, s)
  else (inr true, table_left tableId userId cashOut s).
Proof.
  unfold leaveTable. unfold_M.
  case_decide as Hnone.
  - rewrite Hnone. simpl. f_equal. destruct s; unfold with_poker_players; simpl in *.
    by rewrite update_where_none.
  - destruct (filter _ _); done.
Qed.

(** What [joinTable] checks, and nothing else: the table exists, the
    buy-in is within its bounds, fewer seats are active than the table
    allows, and the balance covers the buy-in. *)
Lemma joinTable_cases tableId userId buyIn s :
  (∃ e, joinTable tableId userId buyIn s = (inl e, s)) ∨
  (∃ table c,
     head (filter (λ r, pt_table_id r = tableId) (poker_tables s)) = Some table ∧
     (pt_min_buy_in table <= buyIn)%Q ∧ (buyIn <= pt_max_buy_in table)%Q ∧
     (Z.of_nat (length (filter (active_at tableId) (poker_players s)))
        < pt_max_players table)%Z ∧
     user_balances s !! userId = Some c ∧ (buyIn <= c)%Q ∧
     joinTable tableId userId buyIn s = (inr true, table_joined tableId userId buyIn s)).
Proof.
  unfold joinTable. unfold_M.
  destruct (head _) as [table|]; [|left; by eexists].
  destruct (Qltb buyIn _) eqn:Hlo; simpl; [left; by eexists|].
  destruct (Qltb _ buyIn) eqn:Hhi; simpl; [left; by eexists|].
  case_bool_decide as Hfull; [left; by eexists|].
  destruct (user_balances s !! userId) as [c|] eqn:Hc; [|left; by eexists].
  destruct (Qltb c buyIn) eqn:Hlt; [left; by eexists|].
  right. exists table, c.
  split_and!; [done| by apply Qltb_ge | by apply Qltb_ge | lia | done
              | by apply Qltb_ge | done].
Qed.

Lemma joinTable_error_message tableId userId buyIn s e s' :
  joinTable tableId userId buyIn s = (inl e, s') →
  s' = s ∧ message e ≠ [Text ""].
Proof.
  unfold joinTable. unfold_M.
  destruct (head _) as [table|]; [|by intros [= <- <-]].
  destruct (Qltb buyIn _) eqn:Hlo; simpl; [by intros [= <- <-]|].
  destruct (Qltb _ buyIn) eqn:Hhi; simpl; [by intros [= <- <-]|].
  case_bool_decide; [by intros [= <- <-]|].
  destruct (user_balances s !! userId) as [c|] eqn:Hc; [|by intros [= <- <-]].
  destruct (Qltb c buyIn) eqn:Hlt; [by intros [= <- <-]|done].
Qed.

Lemma leg_rows_spec parlay_id legIdOf i legs :
  pl_event_id <$> leg_rows parlay_id legIdOf i legs = leg_eventId <$> legs ∧
  pl_pick <$> leg_rows parlay_id legIdOf i legs = leg_pick <$> legs ∧
  pl_bet_type <$> leg_rows parlay_id legIdOf i legs = betType <$> legs ∧
  pl_odds <$> leg_rows parlay_id legIdOf i legs = odds <$> legs ∧
  pl_leg_id <$> leg_rows parlay_id legIdOf i legs = legIdOf <$> seq i (length legs) ∧
  Forall (λ r, pl_parlay_id r = parlay_id ∧ pl_result r = None)
    (leg_rows parlay_id legIdOf i legs).
Proof.
  revert i. induction legs as [|leg legs IH]; intros i; [by split_and!|].
  destruct (IH (S i)) as (H1 & H2 & H3 & H4 & H5 & H6).
  cbn [leg_rows length seq]. rewrite !fmap_cons. cbn [pl_event_id pl_pick pl_bet_type pl_odds pl_leg_id].
  rewrite H1, H2, H3, H4, H5. split_and!; try done. by constructor.
Qed.

(** What [updateEventScore] does to an event that is not completed. *)
Lemma updateEventScore_spec eventId homeScore awayScore s event :
  eventCache s !! eventId = Some event → ev_status event ≠ Completed →
  updateEventScore eventId homeScore awayScore s =
  (inr tt, score_updated eventId homeScore awayScore event s).
Proof.
  intros Hev Hst. unfold updateEventScore. unfold_M. rewrite Hev.
  rewrite resolveParlaysForEvent_spec. simpl.
  rewrite lookup_insert_eq. simpl. by rewrite decide_False.
Qed.

Lemma initial_unsettled s : initial s → unsettled s.
Proof.
  intros (_ & _ & _ & _ & _ & Hp & Hl & _ & _ & Hc & _).
  split_and!; [|by rewrite Hp|by rewrite Hl].
  rewrite Hc. unfold initializeMockEvents, mockEvents. simpl.
  intros id event. rewrite !lookup_insert_Some, lookup_empty.
  intros [[_ <-]|[_ [[_ <-]|[_ [[_ <-]|[_ ?]]]]]]; done.
Qed.

Lemma run_unsettled c s : unsettled s → unsettled (run c s).
Proof.
  intros (Hc & Hp & Hl).
  destruct c as [tableId name sb bb mp|tableId userId buyIn|tableId userId cashOut
                |handId tableId|handId winnerId winningHand
                |parlay_id legIdOf userId legs totalWager
                |eventId homeScore awayScore|thisYear userId]; simpl.
  - done.
  - unfold after.
    destruct (joinTable_cases tableId userId buyIn s)
      as [[e ->]|(table & c & _ & _ & _ & _ & _ & _ & ->)]; done.
  - unfold after. rewrite leaveTable_spec. by case_decide.
  - done.
  - done.
  - unfold after.
    destruct (createParlay_cases parlay_id legIdOf userId legs totalWager s)
      as [[e ->]|(c & _ & _ & _ & _ & ->)]; [done|].
    split_and!; simpl; [done| |].
    + apply Forall_app. split; [done|]. by constructor.
    + apply Forall_app. split; [done|].
      destruct (leg_rows_spec parlay_id legIdOf 0 legs) as (_ & _ & _ & _ & _ & H).
      eapply Forall_impl; [exact H|]. by intros r [_ ?].
  - destruct (eventCache s !! eventId) as [event|] eqn:Hev.
    + assert (ev_status event ≠ Completed) as Hst by by rewrite (Hc _ _ Hev).
      unfold after. rewrite (updateEventScore_spec _ _ _ _ _ Hev Hst). simpl.
      split_and!; simpl; [|done|done].
      intros id event'. rewrite lookup_insert_Some.
      intros [[_ <-]|[_ Hid]]; [|by eapply Hc]. simpl. by eapply Hc.
    + unfold after, updateEventScore. unfold_M. by rewrite Hev.
  - unfold after, checkEligibility. unfold_M. by destruct (users s !! userId).
Qed.

Lemma reachable_unsettled s : reachable s → unsettled s.
Proof.
  induction 1 as [s Hinit|c s _ IH]; [by apply initial_unsettled|by apply run_unsettled].
Qed.

(** *** The concrete databases *)

Lemma fresh_db_initial : initial fresh_db.
Proof.
  repeat split. intros u c. unfold fresh_db; simpl.
  intros [[_ <-]|[_ [_ <-]%lookup_singleton_Some]]%lookup_insert_Some; lra.
Qed.

Lemma reachable_run_all calls s : reachable s → reachable (run_all calls s).
Proof.
  revert s. induction calls as [|c calls IH]; intros s Hs; simpl; [done|].
  apply IH. by constructor.
Qed.

(** ** Balances never go negative (C1) *)

Lemma credit_fold_nonneg cs (b : gmap Z Q) :
  Forall (λ c, 0 <= c_potential_payout c)%Q cs →
  (∀ v x, b !! v = Some x → (0 <= x)%Q) →
  ∀ v x, fold_left credit cs b !! v = Some x → (0 <= x)%Q.
Proof.
  revert b. induction cs as [|c cs IH]; intros b Hcs Hb; simpl; [done|].
  inversion Hcs as [|? ? Hc Hcs']; subst.
  apply IH; [done|]. unfold credit. by apply nonneg_alter_add.
Qed.

(** In any database, reachable or not: the resolution keeps the balances
    non-negative when no pending parlay has a negative potential payout. *)
Lemma resolve_balances_nonneg eventId s :
  (∀ r, r ∈ sports_parlays s → sp_status r = Pending → (0 <= sp_potential_payout r)%Q) →
  balances_nonneg s →
  balances_nonneg (after (resolveParlaysForEvent eventId) s).
Proof.
  intros Hpay Hs. unfold after. rewrite resolveParlaysForEvent_spec. simpl.
  destruct (eventCache s !! eventId) as [event|]; [|done].
  case_decide; [|done].
  unfold balances_nonneg. rewrite (proj1 (resolve_fold_ledger _ _)).
  apply credit_fold_nonneg; [|done].
  apply Forall_forall. intros c [Hc _]%list_elem_of_In%filter_In.
  apply list_elem_of_In, elem_of_candidates in Hc
    as (sp & pl & Hsp & _ & _ & _ & Hst & ->).
  simpl. by apply Hpay.
Qed.

(** C1.  In every reachable database whose balances are all non-negative,
    [joinTable], [leaveTable] with a non-negative cash-out, [createParlay],
    [completeHand] and [resolveParlaysForEvent] leave every balance
    non-negative, whatever their other arguments and whether they return or
    throw.  A buy-in and a wager are debited only from a balance that
    covers them, and the one credit made is a cash-out: [completeHand]
    throws before its credit, and in a reachable database no event is
    completed, so that the resolution credits no one. *)
Theorem balances_stay_nonneg s :
  reachable s → balances_nonneg s →
  (∀ tableId userId buyIn,
     balances_nonneg (after (joinTable tableId userId buyIn) s)) ∧
  (∀ tableId userId cashOut, (0 <= cashOut)%Q →
     balances_nonneg (after (leaveTable tableId userId cashOut) s)) ∧
  (∀ parlay_id legIdOf userId legs totalWager,
     balances_nonneg (after (createParlay parlay_id legIdOf userId legs totalWager) s)) ∧
  (∀ handId winnerId winningHand,
     balances_nonneg (after (completeHand handId winnerId winningHand) s)) ∧
  (∀ eventId, balances_nonneg (after (resolveParlaysForEvent eventId) s)).
Proof.
  intros Hreach Hs. split_and!.
  - intros tableId userId buyIn. unfold balances_nonneg.
    destruct (joinTable_balances tableId userId buyIn s) as [->|(c & Hc & Hle & ->)];
      [done|]. by eapply nonneg_alter_sub.
  - intros tableId userId cashOut Hcash. unfold balances_nonneg.
    destruct (leaveTable_balances tableId userId cashOut s) as [->| ->]; [done|].
    by apply nonneg_alter_add.
  - intros parlay_id legIdOf userId legs totalWager. unfold balances_nonneg.
    destruct (createParlay_balances parlay_id legIdOf userId legs totalWager s)
      as [->|(c & Hc & Hle & ->)]; [done|]. by eapply nonneg_alter_sub.
  - intros handId winnerId winningHand. unfold after.
    by rewrite completeHand_throws.
  - intros eventId. destruct (reachable_unsettled s Hreach) as (Hc & _ & _).
    unfold after. rewrite resolveParlaysForEvent_spec. simpl.
    destruct (eventCache s !! eventId) as [event|] eqn:Hev; [|done].
    rewrite decide_False; [done|]. by rewrite (Hc _ _ Hev).
Qed.

Lemma table_db_balances : user_balances table_db = user_balances fresh_db.
Proof. vm_compute. reflexivity. Qed.

Lemma one_seat_db_nonneg : balances_nonneg one_seat_db.
Proof.
  intros u c.
  assert (user_balances one_seat_db = <[7%Z := 0%Q]> ({[8%Z := 960%Q]} : gmap Z Q))
    as -> by (vm_compute; reflexivity).
  intros [[_ <-]|[_ [_ <-]%lookup_singleton_Some]]%lookup_insert_Some; lra.
Qed.

Lemma left_db_nonneg : balances_nonneg left_db.
Proof.
  intros u c.
  assert (user_balances left_db = <[7%Z := 0%Q]> ({[8%Z := 1000%Q]} : gmap Z Q))
    as -> by (vm_compute; reflexivity).
  intros [[_ <-]|[_ [_ <-]%lookup_singleton_Some]]%lookup_insert_Some; lra.
Qed.

Lemma staked_db_nonneg : balances_nonneg staked_db.
Proof.
  intros u c.
  assert (user_balances staked_db = <[7%Z := 0%Q]> ({[8%Z := 990%Q]} : gmap Z Q))
    as -> by (vm_compute; reflexivity).
  intros [[_ <-]|[_ [_ <-]%lookup_singleton_Some]]%lookup_insert_Some; lra.
Qed.

(** The theorem at work on calls that return: a join at the table of
    [table_db], a cash-out from the seat of [one_seat_db], a wager from the
    fresh database; and on the completion of a hand and the resolution of
    an event in databases with a seat and with a stake. *)
Lemma balances_stay_nonneg_witness :
  (outcome (joinTable "t1" 8 40) table_db = inr true ∧
   balances_nonneg (after (joinTable "t1" 8 40) table_db)) ∧
  (outcome (leaveTable "t1" 8 25) one_seat_db = inr true ∧
   balances_nonneg (after (leaveTable "t1" 8 25) one_seat_db)) ∧
  ((∃ parlay, outcome (createParlay "p1" leg_ids 8 two_legs 10) fresh_db = inr parlay) ∧
   balances_nonneg (after (createParlay "p1" leg_ids 8 two_legs 10) fresh_db)) ∧
  balances_nonneg (after (completeHand "h1" 8 "pair") one_seat_db) ∧
  balances_nonneg (after (resolveParlaysForEvent "nfl_001") staked_db).
Proof.
  assert (reachable fresh_db) as Hfresh by (constructor; apply fresh_db_initial).
  assert (reachable table_db) as Htable by by apply reachable_run_all.
  assert (reachable one_seat_db) as Hseat by by apply reachable_run_all.
  assert (reachable staked_db) as Hstaked by by constructor.
  split_and!.
  - vm_compute. reflexivity.
  - apply (balances_stay_nonneg table_db Htable).
    unfold balances_nonneg. rewrite table_db_balances. apply fresh_db_initial.
  - vm_compute. reflexivity.
  - apply (balances_stay_nonneg one_seat_db Hseat one_seat_db_nonneg). lra.
  - eexists. vm_compute. reflexivity.
  - apply (balances_stay_nonneg fresh_db Hfresh), fresh_db_initial.
  - apply (balances_stay_nonneg one_seat_db Hseat one_seat_db_nonneg).
  - apply (balances_stay_nonneg staked_db Hstaked staked_db_nonneg).
Defined.

(** ** Resolution pays once (C2) *)

Lemma resolveParlaysForEvent_after eventId s event :
  eventCache s !! eventId = Some event → ev_status event = Completed →
  after (resolveParlaysForEvent eventId) s =
  fold_left resolve_step (candidates eventId s) s.
Proof.
  intros Hev Hst. unfold after. rewrite resolveParlaysForEvent_spec. simpl.
  rewrite Hev. by rewrite decide_True.
Qed.

Lemma resolveParlaysForEvent_noop eventId s :
  (∀ event, eventCache s !! eventId = Some event → ev_status event ≠ Completed) →
  after (resolveParlaysForEvent eventId) s = s.
Proof.
  intros Hev. unfold after. rewrite resolveParlaysForEvent_spec. simpl.
  destruct (eventCache s !! eventId) as [event|]; [|done].
  rewrite decide_False; [done|]. by apply Hev.
Qed.

Lemma resolveParlaysForEvent_twice eventId s :
  after (resolveParlaysForEvent eventId) (after (resolveParlaysForEvent eventId) s)
  = after (resolveParlaysForEvent eventId) s.
Proof.
  destruct (eventCache s !! eventId) as [event|] eqn:Hev.
  - destruct (decide (ev_status event = Completed)) as [Hst|Hst].
    + rewrite (resolveParlaysForEvent_after eventId s event) by done.
      set (s1 := fold_left resolve_step (candidates eventId s) s).
      assert (eventCache s1 !! eventId = Some event) as Hev1.
      { subst s1. by rewrite (proj2 (resolve_fold_frame _ _)). }
      rewrite (resolveParlaysForEvent_after eventId s1 event) by done.
      apply resolve_fold_idle. intros c Hc.
      by apply resolve_fold_leaves_unresolved.
    + assert (after (resolveParlaysForEvent eventId) s = s) as Hnoop.
      { apply resolveParlaysForEvent_noop. intros ev' Hev'. congruence. }
      by rewrite !Hnoop.
  - assert (after (resolveParlaysForEvent eventId) s = s) as Hnoop.
    { apply resolveParlaysForEvent_noop. intros ev' Hev'. congruence. }
    by rewrite !Hnoop.
Qed.

(** C2.  Resolving the parlays of an event twice in succession leaves the
    database the first resolution left: the second call credits nothing and
    logs nothing.  For a completed event the first call credits, and logs,
    the potential payout of each winning candidate (a pending parlay with a
    leg on the event, all of whose legs carry the result won) once, no
    candidate occurring twice, and it settles as won or lost every pending
    parlay with a leg on the event all of whose legs carry a result. *)
Theorem resolveParlaysForEvent_pays_once eventId s :
  let s1 := after (resolveParlaysForEvent eventId) s in
  let s2 := after (resolveParlaysForEvent eventId) s1 in
  s2 = s1 ∧
  ∀ event, eventCache s !! eventId = Some event → ev_status event = Completed →
    let winners := List.filter (wins s) (candidates eventId s) in
    NoDup winners ∧
    user_balances s1 = fold_left credit winners (user_balances s) ∧
    transactions s1 = transactions s ++ (win_transaction <$> winners) ∧
    user_balances s2 = fold_left credit winners (user_balances s) ∧
    ∀ sp pl r,
      sp ∈ sports_parlays s → sp_status sp = Pending →
      pl ∈ parlay_legs s → pl_parlay_id pl = sp_parlay_id sp → pl_event_id pl = eventId →
      legs_resolved (sp_parlay_id sp) s = true →
      r ∈ sports_parlays s1 → sp_parlay_id r = sp_parlay_id sp →
      terminal (sp_status r).
Proof.
  simpl. split; [apply resolveParlaysForEvent_twice|].
  intros event Hev Hst. rewrite resolveParlaysForEvent_twice.
  rewrite (resolveParlaysForEvent_after eventId s event) by done.
  destruct (resolve_fold_ledger (candidates eventId s) s) as [Hb Ht].
  split_and!; try done.
  - apply NoDup_ListNoDup, List.NoDup_filter, NoDup_ListNoDup, candidates_NoDup.
  - intros sp pl r Hsp Hpend Hpl Hid He Hres Hr Hrid.
    destruct (candidates_complete eventId s sp pl) as (c & Hc & Hcid); [done..|].
    eapply (resolve_fold_settles _ s c); [done| |done|].
    + by rewrite Hcid.
    + by rewrite Hcid.
Qed.

(** The theorem at work on [settled_db]: the parlay "p1" of user 8 is paid
    18 coins by the first call, and the second call changes nothing. *)
Lemma resolveParlaysForEvent_pays_once_witness :
  let s1 := after (resolveParlaysForEvent "nfl_001") settled_db in
  let s2 := after (resolveParlaysForEvent "nfl_001") s1 in
  user_balances settled_db !! 8%Z = Some 990%Q ∧
  user_balances s1 = fold_left credit
    [{| c_parlay_id := "p1"; c_user_id := 8; c_total_wager := 10;
        c_potential_payout := 18 |}] (user_balances settled_db) ∧
  user_balances s2 = user_balances s1.
Proof.
  simpl.
  destruct (resolveParlaysForEvent_pays_once "nfl_001" settled_db) as [H2 H1].
  assert (eventCache settled_db !! "nfl_001" =
          Some (complete {| eventId := "nfl_001"; ev_sport := Nfl;
            homeTeam := "Kansas City Chiefs"; awayTeam := "Buffalo Bills";
            ev_status := Scheduled; homeScore := None; awayScore := None;
            spread := Some (-7 # 2)%Q; overUnder := Some (95 # 2)%Q;
            moneylineHome := Some (-170)%Q; moneylineAway := Some 145%Q |}))
    as Hev by (vm_compute; reflexivity).
  destruct (H1 _ Hev eq_refl) as (_ & Hb & _).
  split_and!.
  - vm_compute. reflexivity.
  - rewrite Hb. vm_compute. reflexivity.
  - simpl in H2. by rewrite H2.
Defined.

(** The balance of user 8 through the two calls: 990, then 1008, then
    still 1008. *)
Example settled_db_balances :
  let s1 := after (resolveParlaysForEvent "nfl_001") settled_db in
  let s2 := after (resolveParlaysForEvent "nfl_001") s1 in
  Qred <$> user_balances settled_db !! 8%Z = Some 990%Q ∧
  Qred <$> user_balances s1 !! 8%Z = Some 1008%Q ∧
  Qred <$> user_balances s2 !! 8%Z = Some 1008%Q.
Proof. vm_compute. done. Qed.

(** ** The potential payout (C3) *)

(** C3, as the code has it.  A successful [createParlay] appends one row to
    [sports_parlays]; the potential payout it returns, whose value the row
    holds, is the binary64 number the loop leaves: the wager multiplied,
    leg after leg in leg order, by the quotient [odds / 100], every
    quotient and every product rounded to the nearest binary64.  With odds
    150 and 120 and a wager of 10 it is exactly 18. *)
Theorem createParlay_potential_payout parlay_id legIdOf userId legs totalWager s parlay s' :
  createParlay parlay_id legIdOf userId legs totalWager s = (inr parlay, s') →
  ∃ row,
    sports_parlays s' = sports_parlays s ++ [row] ∧
    sp_parlay_id row = parlay_id ∧ sp_user_id row = userId ∧
    sp_total_wager row = totalWager ∧ sp_status row = Pending ∧
    potential_payout parlay =
      fold_left (λ potentialPayout leg,
                   potentialPayout * (to_binary64 (odds leg) / 100))%float
        legs (to_binary64 totalWager) ∧
    (∀ value, value_of (potential_payout parlay) = Some value →
              sp_potential_payout row = value) ∧
    (odds <$> legs = [150%Q; 120%Q] → totalWager = 10%Q →
     potential_payout parlay = 18%float ∧ sp_potential_payout row = 18%Q).
Proof.
  intros Hrun.
  destruct (createParlay_cases parlay_id legIdOf userId legs totalWager s)
    as [[e He]|(c & _ & _ & _ & _ & Hok)]; [congruence|].
  rewrite Hok in Hrun. injection Hrun as <- <-.
  eexists. split_and!; try done.
  { simpl. unfold stored. by intros value ->. }
  simpl. intros Hodds ->.
  destruct legs as [|l1 [|l2 [|]]]; try done.
  injection Hodds as H1 H2. unfold payout_of, payout_from; simpl. rewrite H1, H2.
  split; vm_compute; reflexivity.
Qed.

(** The theorem at work: user 8 stakes 10 coins on the two legs with odds
    150 and 120. *)
Lemma createParlay_potential_payout_witness :
  ∃ row,
    sports_parlays staked_db = [row] ∧ sp_parlay_id row = "p1" ∧
    sp_potential_payout row = 18%Q.
Proof.
  assert (createParlay "p1" leg_ids 8 two_legs 10 fresh_db =
          (inr {| parlay_id := "p1"; user_id := 8; legs := two_legs;
                  total_wager := 10; potential_payout := 18%float;
                  parlay_status_of := Pending |}, staked_db)) as Hrun
    by (vm_compute; reflexivity).
  destruct (createParlay_potential_payout _ _ _ _ _ _ _ _ Hrun)
    as (row & Hrows & Hid & _ & _ & _ & _ & _ & H18).
  exists row. split_and!; [exact Hrows|exact Hid|].
  by destruct H18.
Defined.

(** C3 as stated fails on the numbers of the program.  With odds 110 and
    110 and a wager of 10 [createParlay] returns 12.100000000000001, whose
    value the row holds: it is more than the product 10 x 1.1 x 1.1, and
    it is not the binary64 nearest to that product, 12.1.  With odds 110
    and 120 it returns 13.2, where the wager times the binary64 product of
    the two quotients is 13.200000000000001.  And the legs of odds 105 and
    120 give 12.6 where the same legs in the other order give
    12.600000000000001. *)
Lemma createParlay_potential_payout_counterexample :
  (∃ parlay s',
     createParlay "p1" leg_ids 8 [leg_on "nfl_001" 110; leg_on "nba_001" 110] 10 fresh_db
       = (inr parlay, s') ∧
     potential_payout parlay = 12.100000000000001%float ∧
     potential_payout parlay ≠
       to_binary64 (10 * odds_product [leg_on "nfl_001" 110; leg_on "nba_001" 110]) ∧
     ∃ row, last (sports_parlays s') = Some row ∧
            (10 * odds_product [leg_on "nfl_001" 110; leg_on "nba_001" 110]
               < sp_potential_payout row)%Q) ∧
  (∃ parlay s',
     createParlay "p1" leg_ids 8 [leg_on "nfl_001" 110; leg_on "nba_001" 120] 10 fresh_db
       = (inr parlay, s') ∧
     potential_payout parlay = 13.2%float ∧
     (10 * ((110 / 100) * (120 / 100)))%float = 13.200000000000001%float ∧
     potential_payout parlay ≠ (10 * ((110 / 100) * (120 / 100)))%float) ∧
  (∃ parlay parlay' s' s'',
     createParlay "p1" leg_ids 8 [leg_on "nfl_001" 105; leg_on "nba_001" 120] 10 fresh_db
       = (inr parlay, s') ∧
     createParlay "p1" leg_ids 8 [leg_on "nba_001" 120; leg_on "nfl_001" 105] 10 fresh_db
       = (inr parlay', s'') ∧
     potential_payout parlay = 12.6%float ∧
     potential_payout parlay' = 12.600000000000001%float ∧
     potential_payout parlay ≠ potential_payout parlay').
Proof.
  split_and!.
  - eexists _, _. split; [vm_compute; reflexivity|]. simpl.
    split_and!.
    + reflexivity.
    + intros H%(f_equal value_of). vm_compute in H. discriminate.
    + eexists. split; [vm_compute; reflexivity|]. vm_compute. reflexivity.
  - eexists _, _. split; [vm_compute; reflexivity|]. simpl.
    split_and!.
    + reflexivity.
    + vm_compute. reflexivity.
    + intros H%(f_equal value_of). vm_compute in H. discriminate.
  - eexists _, _, _, _. split_and!; [vm_compute; reflexivity..| | |]; simpl.
    + reflexivity.
    + reflexivity.
    + intros H%(f_equal value_of). vm_compute in H. discriminate.
Qed.

(** ** Leaving a table (C4) *)

(** The part of C4 the code keeps: with an active seat at the table the
    call returns, the seat is inactive afterwards and the cash-out is
    credited. *)
Lemma leaveTable_active_seat tableId userId cashOut s :
  (0 < active_seats tableId userId s)%nat →
  outcome (leaveTable tableId userId cashOut) s = inr true ∧
  active_seats tableId userId (after (leaveTable tableId userId cashOut) s) = 0%nat ∧
  user_balances (after (leaveTable tableId userId cashOut) s) =
    alter (λ c, c + cashOut)%Q userId (user_balances s).
Proof.
  intros Hact. unfold outcome, after. rewrite leaveTable_spec.
  case_decide as Hnone.
  - exfalso. unfold active_seats in Hact.
    assert (filter (λ r, seat_of tableId userId r ∧ pp_is_active r = true)
              (poker_players s) = []) as Hnil; [|rewrite Hnil in Hact; simpl in Hact; lia].
    apply filter_none. intros r Hr [Hseat _].
    assert (r ∈ filter (seat_of tableId userId) (poker_players s)) as Hin
      by by apply list_elem_of_filter.
    rewrite Hnone in Hin. by apply elem_of_nil in Hin.
  - split_and!; [done| |done]. unfold active_seats, table_left. simpl.
    apply length_zero_iff_nil, filter_none.
    intros r (r0 & Hr0 & ->)%elem_of_update_where [Hseat Hactive].
    destruct (decide (seat_of tableId userId r0)); done.
Qed.

(** C4 fails on the code at a seat already left.  In [left_db], reached by
    [createTable], [joinTable] and [leaveTable], user 8 has one seat at
    table "t1" and it is inactive; a further [leaveTable] does not throw
    [PlayerNotFound] but returns [true] and credits the cash-out of 25:
    the balance goes from 1000 to 1025. *)
Theorem leaveTable_inactive_seat_pays_again :
  filter (seat_of "t1" 8) (poker_players left_db) =
    [{| pp_table_id := "t1"; pp_user_id := 8; pp_stack := 40;
        pp_position := UnderTheGun; pp_is_active := false;
        pp_total_wins := 0; pp_total_losses := 0 |}] ∧
  active_seats "t1" 8 left_db = 0%nat ∧
  outcome (leaveTable "t1" 8 25) left_db = inr true ∧
  outcome (leaveTable "t1" 8 25) left_db ≠ inl PlayerNotFound ∧
  user_balances left_db !! 8%Z = Some 1000%Q ∧
  user_balances (after (leaveTable "t1" 8 25) left_db) !! 8%Z = Some 1025%Q.
Proof. vm_compute. split_and!; done. Qed.

(** ** Completing a hand (C5) *)

(** C5.  A finished hand is not paid again.  For every hand that has a row
    in status finished, a further [completeHand] on its identifier throws
    the [TypeError] of [this.pool.query] and leaves the database as it
    was: no balance is credited, no win is logged and the hand keeps its
    winner. *)
Theorem completeHand_finished_hand_not_paid_again handId winnerId winningHand s hand :
  head (filter (λ r, ph_hand_id r = handId) (poker_hands s)) = Some hand →
  ph_status hand = Finished →
  outcome (completeHand handId winnerId winningHand) s = inl (undefined_read "query") ∧
  after (completeHand handId winnerId winningHand) s = s ∧
  user_balances (after (completeHand handId winnerId winningHand) s) = user_balances s ∧
  transactions (after (completeHand handId winnerId winningHand) s) = transactions s ∧
  head (filter (λ r, ph_hand_id r = handId)
          (poker_hands (after (completeHand handId winnerId winningHand) s))) = Some hand.
Proof.
  intros Hhand _. unfold outcome, after. rewrite completeHand_throws. by split_and!.
Qed.

(** The theorem at work on the finished hand of [finished_hand_db], won
    by user 8: a completion for user 7 pays nothing. *)
Lemma completeHand_finished_hand_not_paid_again_witness :
  user_balances (after (completeHand "h1" 7 "pair") finished_hand_db)
    = user_balances finished_hand_db ∧
  transactions (after (completeHand "h1" 7 "pair") finished_hand_db)
    = transactions finished_hand_db.
Proof.
  destruct (completeHand_finished_hand_not_paid_again "h1" 7 "pair" finished_hand_db
    {| ph_hand_id := "h1"; ph_table_id := "t1"; ph_small_blind_amount := 1;
       ph_big_blind_amount := 2; ph_pot := 3; ph_status := Finished;
       ph_winner_id := Some 8%Z; ph_winning_hand := Some "flush" |})
    as (_ & _ & Hb & Ht & _).
  - vm_compute. reflexivity.
  - reflexivity.
  - by split.
Defined.

(** ** One seat per user and table (C6) *)

(** C6, as the code has it.  [joinTable] does not look for a seat the user
    already has: every call that returns adds exactly one active seat for
    the user at the table, whether or not the user holds one there, and
    changes no other count of active seats. *)
Theorem joinTable_adds_a_seat tableId userId buyIn s joined :
  outcome (joinTable tableId userId buyIn) s = inr joined →
  joined = true ∧
  active_seats tableId userId (after (joinTable tableId userId buyIn) s) =
    S (active_seats tableId userId s) ∧
  ∀ tableId' userId', (tableId', userId') ≠ (tableId, userId) →
    active_seats tableId' userId' (after (joinTable tableId userId buyIn) s) =
    active_seats tableId' userId' s.
Proof.
  unfold outcome, after.
  destruct (joinTable_cases tableId userId buyIn s)
    as [[e ->]|(table & c & _ & _ & _ & _ & _ & _ & ->)]; simpl; [done|].
  intros [= <-]. split; [done|].
  unfold active_seats, seat_of. simpl. split.
  - rewrite filter_app, length_app, filter_cons_True by done. simpl. lia.
  - intros tableId' userId' Hne.
    rewrite filter_app, length_app, filter_cons_False; [simpl; lia|].
    simpl. intros [[-> ->] _]. done.
Qed.

(** The theorem at work: user 8, seated at "t1", joins it again. *)
Lemma joinTable_adds_a_seat_witness :
  active_seats "t1" 8 one_seat_db = 1%nat ∧
  active_seats "t1" 8 (after (joinTable "t1" 8 40) one_seat_db) = 2%nat.
Proof.
  split; [vm_compute; reflexivity|].
  destruct (joinTable_adds_a_seat "t1" 8 40 one_seat_db true) as (_ & Hseats & _).
  - vm_compute. reflexivity.
  - rewrite Hseats. vm_compute. reflexivity.
Defined.

(** C6 as stated fails: [two_seats_db] is reached from a fresh database by
    [createTable] and two calls of [joinTable] for user 8, both of which
    return, and in it user 8 holds two active seats at table "t1". *)
Lemma joinTable_adds_a_seat_counterexample :
  reachable two_seats_db ∧
  outcome (joinTable "t1" 8 40) one_seat_db = inr true ∧
  two_seats_db = after (joinTable "t1" 8 40) one_seat_db ∧
  active_seats "t1" 8 one_seat_db = 1%nat ∧
  active_seats "t1" 8 two_seats_db = 2%nat ∧
  ¬ (∀ s tableId userId, reachable s → (active_seats tableId userId s ≤ 1)%nat).
Proof.
  assert (reachable two_seats_db) as Hreach.
  { apply reachable_run_all. constructor. apply fresh_db_initial. }
  assert (active_seats "t1" 8 two_seats_db = 2%nat) as Htwo
    by (vm_compute; reflexivity).
  split_and!; [done|vm_compute; reflexivity|reflexivity|vm_compute; reflexivity|done|].
  intros H. specialize (H two_seats_db "t1" 8%Z Hreach). rewrite Htwo in H. lia.
Qed.

(** ** Empty legs (C7) *)

(** C7, as the code has it.  The check for empty legs is made by the
    POST /parlays handler: for a body whose [legs] is missing, is not an
    array or is empty it answers 400 "Invalid parlay legs", whatever the
    wager, without calling [createParlay]: the database, and so every
    parlay and balance, is as before. *)
Theorem post_parlays_rejects_empty_legs parlay_id legIdOf userId legs totalWager s :
  legs = None ∨ legs = Some [] →
  post_parlays parlay_id legIdOf userId legs totalWager s =
  ({| res_status := 400; res_json := ErrorBody [Text "Invalid parlay legs"] |}, s).
Proof. by intros [-> | ->]. Qed.

Lemma post_parlays_rejects_empty_legs_witness :
  post_parlays "p1" leg_ids 8 (Some []) (Some 10%Q) fresh_db =
  ({| res_status := 400; res_json := ErrorBody [Text "Invalid parlay legs"] |}, fresh_db).
Proof. apply post_parlays_rejects_empty_legs. by right. Defined.

(** C7 as stated fails: [createParlay] itself, called with no legs, a wager
    of 10 and a balance of 1000, returns a parlay whose potential payout is
    the wager, stores it and debits the wager. *)
Lemma post_parlays_rejects_empty_legs_counterexample :
  outcome (createParlay "p1" leg_ids 8 [] 10) fresh_db =
    inr {| parlay_id := "p1"; user_id := 8; legs := []; total_wager := 10;
           potential_payout := 10; parlay_status_of := Pending |} ∧
  sports_parlays fresh_db = [] ∧
  sports_parlays (after (createParlay "p1" leg_ids 8 [] 10) fresh_db) =
    [{| sp_parlay_id := "p1"; sp_user_id := 8; sp_total_wager := 10;
        sp_potential_payout := 10; sp_status := Pending |}] ∧
  user_balances fresh_db !! 8%Z = Some 1000%Q ∧
  user_balances (after (createParlay "p1" leg_ids 8 [] 10) fresh_db) !! 8%Z
    = Some 990%Q.
Proof. vm_compute. split_and!; done. Qed.

(** ** Score updates resolve nothing (C8) *)

(** C8.  For an event of the cache whose status is not completed,
    [updateEventScore] returns after two writes only: the scores of the
    cached event, and the scores and the status in-progress of the event's
    row in [sports_events].  Every other cached event and stored row, every
    parlay and its status, every leg and its result, every balance and the
    transaction log are as before. *)
Theorem updateEventScore_frame eventId homeScore awayScore s event :
  eventCache s !! eventId = Some event → ev_status event ≠ Completed →
  let s' := after (updateEventScore eventId homeScore awayScore) s in
  updateEventScore eventId homeScore awayScore s =
    (inr tt, score_updated eventId homeScore awayScore event s) ∧
  sports_parlays s' = sports_parlays s ∧
  parlay_legs s' = parlay_legs s ∧
  user_balances s' = user_balances s ∧
  transactions s' = transactions s ∧
  poker_tables s' = poker_tables s ∧ poker_players s' = poker_players s ∧
  poker_hands s' = poker_hands s ∧
  eventCache s' !! eventId = Some (set_scores homeScore awayScore event) ∧
  (∀ other, other ≠ eventId →
     eventCache s' !! other = eventCache s !! other ∧
     sports_events s' !! other = sports_events s !! other) ∧
  ∃ row, sports_events s' !! eventId = Some row ∧
         se_status row = InProgress ∧
         se_home_score row = homeScore ∧ se_away_score row = awayScore.
Proof.
  intros Hev Hst. simpl.
  assert (updateEventScore eventId homeScore awayScore s =
          (inr tt, score_updated eventId homeScore awayScore event s)) as Hrun.
  { unfold updateEventScore. unfold_M. rewrite Hev.
    rewrite resolveParlaysForEvent_spec. simpl.
    rewrite lookup_insert_eq. simpl. by rewrite decide_False. }
  unfold after. rewrite Hrun. simpl.
  split_and!; try done.
  - by rewrite lookup_insert_eq.
  - intros other Hne. split.
    + by rewrite lookup_insert_ne.
    + by rewrite lookup_partial_alter_ne.
  - rewrite lookup_partial_alter_eq. unfold upsert_score.
    eexists. split; [done|]. by destruct (sports_events s !! eventId).
Qed.

(** The theorem at work: a score for the scheduled event "nfl_001" of the
    staked parlay. *)
Lemma updateEventScore_frame_witness :
  sports_parlays (after (updateEventScore "nfl_001" 21 17) staked_db)
    = sports_parlays staked_db ∧
  parlay_legs (after (updateEventScore "nfl_001" 21 17) staked_db)
    = parlay_legs staked_db ∧
  user_balances (after (updateEventScore "nfl_001" 21 17) staked_db)
    = user_balances staked_db.
Proof.
  assert (eventCache staked_db !! "nfl_001" =
          Some {| eventId := "nfl_001"; ev_sport := Nfl;
            homeTeam := "Kansas City Chiefs"; awayTeam := "Buffalo Bills";
            ev_status := Scheduled; homeScore := None; awayScore := None;
            spread := Some (-7 # 2)%Q; overUnder := Some (95 # 2)%Q;
            moneylineHome := Some (-170)%Q; moneylineAway := Some 145%Q |})
    as Hev by (vm_compute; reflexivity).
  destruct (updateEventScore_frame "nfl_001" 21 17 staked_db _ Hev)
    as (_ & Hp & Hl & Hb & _); [done|].
  by split_and!.
Defined.

(** ** Dealing at a missing table (C9) *)

(** C9 fails on the code.  For every table, with a row or without one,
    [dealHand] throws the runtime [TypeError] for reading [query] of
    [undefined], raised at [this.pool.query] before the table is looked
    up, and not the error "Table not found"; it creates no hand and
    changes nothing. *)
Theorem dealHand_missing_table_type_error handId tableId s :
  dealHand handId tableId s =
    (inl (TypeError "Cannot read properties of undefined (reading 'query')"), s) ∧
  outcome (dealHand handId tableId) s ≠ inl TableNotFound ∧
  poker_hands (after (dealHand handId tableId) s) = poker_hands s.
Proof.
  unfold outcome, after. rewrite dealHand_throws. by split_and!.
Qed.

(** ** A missing country counts as US (C10) *)

(** C10.  For a user whose stored country is missing, [checkEligibility]
    returns, the country check passes, and the reason reported is never
    the country reason: when the user is found ineligible the reason is the
    age reason or the state reason. *)
Theorem checkEligibility_missing_country thisYear userId s user :
  users s !! userId = Some user → u_country user = None →
  isCountryEligible user = true ∧
  ∃ check,
    outcome (checkEligibility thisYear userId) s = inr check ∧
    isEligible check = isAgeEligible thisYear user && isStateEligible user ∧
    reason check ≠ Some CountryReason ∧
    (isEligible check = false →
     reason check = Some AgeReason ∨ reason check = Some (StateReason (u_state user))) ∧
    (isEligible check = true → reason check = None).
Proof.
  intros Huser Hcountry.
  assert (isCountryEligible user = true) as Hc.
  { unfold isCountryEligible. by rewrite Hcountry. }
  split; [done|].
  unfold outcome, checkEligibility. unfold_M. rewrite Huser. simpl.
  eexists. split; [done|]. simpl. rewrite Hc, andb_true_r.
  destruct (isAgeEligible thisYear user), (isStateEligible user); simpl;
    split_and!; try done; auto.
Qed.

(** The theorem at work on user 1. *)
Lemma checkEligibility_missing_country_witness :
  ∃ check,
    outcome (checkEligibility 2026 1) users_db = inr check ∧
    reason check ≠ Some CountryReason.
Proof.
  destruct (checkEligibility_missing_country 2026 1 users_db
              {| u_birth_year := 2000; u_state := Some "tn"; u_country := None |})
    as (_ & check & Hrun & _ & Hreason & _).
  - vm_compute. reflexivity.
  - reflexivity.
  - by exists check.
Defined.

(** The three reasons on the three users. *)
Example checkEligibility_reasons :
  outcome (checkEligibility 2026 1) users_db =
    inr {| userId := 1; userAge := 26; userState := Some "tn"; isEligible := false;
           reason := Some "Sweepstakes not available in tn" |} ∧
  outcome (checkEligibility 2026 2) users_db =
    inr {| userId := 2; userAge := 11; userState := Some "OH"; isEligible := false;
           reason := Some "Must be 18+ years old" |} ∧
  outcome (checkEligibility 2026 3) users_db =
    inr {| userId := 3; userAge := 36; userState := None; isEligible := false;
           reason := Some "Only available in US and Canada" |}.
Proof. vm_compute. done. Qed.

(** * Further properties *)

(** ** Joining, leaving, dealing and completing: further properties *)

(** X1.  [joinTable] is all or nothing.  A call that throws leaves the
    database as it was; a call that returns has appended one active seat
    whose stack is the buy-in, debited the buy-in from a balance that
    covered it, and logged one bet of that amount. *)
Theorem joinTable_all_or_nothing tableId userId buyIn s :
  let s' := after (joinTable tableId userId buyIn) s in
  (∀ e, outcome (joinTable tableId userId buyIn) s = inl e → s' = s) ∧
  (∀ joined, outcome (joinTable tableId userId buyIn) s = inr joined →
     joined = true ∧
     poker_players s' = poker_players s ++
       [{| pp_table_id := tableId; pp_user_id := userId; pp_stack := buyIn;
           pp_position := UnderTheGun; pp_is_active := true;
           pp_total_wins := 0; pp_total_losses := 0 |}] ∧
     (∃ c, user_balances s !! userId = Some c ∧ (buyIn <= c)%Q ∧
           user_balances s' = <[userId := (c - buyIn)%Q]> (user_balances s)) ∧
     transactions s' = transactions s ++
       [{| tx_user_id := userId; tx_transaction_type := Bet; tx_currency := "SC";
           tx_amount := buyIn; tx_description := "Poker table buy-in";
           tx_status := "completed" |}] ∧
     poker_tables s' = poker_tables s ∧ poker_hands s' = poker_hands s).
Proof.
  simpl. unfold outcome, after.
  destruct (joinTable_cases tableId userId buyIn s)
    as [[e ->]|(table & c & _ & _ & _ & _ & Hc & Hle & ->)]; simpl.
  - split; [done|]. by intros ? [=].
  - split; [by intros ? [=]|]. intros joined [= <-].
    split_and!; try done. exists c. split_and!; [done..|].
    apply map_eq. intros v. rewrite lookup_alter, lookup_insert.
    destruct (decide (userId = v)) as [<-|]; [by rewrite Hc|done].
Qed.

Lemma joinTable_all_or_nothing_witness :
  after (joinTable "t9" 8 40) fresh_db = fresh_db ∧
  user_balances (after (joinTable "t1" 8 40)
                   (after (createTable "t1" "low" 1 2 6) fresh_db)) !! 8%Z
    = Some (1000 - 40)%Q.
Proof.
  split.
  - apply (joinTable_all_or_nothing "t9" 8 40 fresh_db) with (e := TableNotFound).
    vm_compute. reflexivity.
  - destruct (joinTable_all_or_nothing "t1" 8 40
                (after (createTable "t1" "low" 1 2 6) fresh_db)) as [_ H].
    destruct (H true) as (_ & _ & (c & Hc & _ & ->) & _).
    + vm_compute. reflexivity.
    + rewrite lookup_insert_eq. f_equal.
      assert (Some c = Some 1000%Q) as [= ->]; [|done].
      rewrite <- Hc. vm_compute. reflexivity.
Defined.

(** X2.  The buy-in bounds are inclusive and are the only source of the
    buy-in error: for a table that exists, [joinTable] throws "Buy-in must
    be between min and max" exactly when the buy-in is below the table's
    minimum or above its maximum. *)
Theorem joinTable_buy_in_bounds tableId userId buyIn s table :
  head (filter (λ r, pt_table_id r = tableId) (poker_tables s)) = Some table →
  outcome (joinTable tableId userId buyIn) s
    = inl (InvalidBuyIn (pt_min_buy_in table) (pt_max_buy_in table)) ↔
  (buyIn < pt_min_buy_in table)%Q ∨ (pt_max_buy_in table < buyIn)%Q.
Proof.
  intros Htable. unfold outcome, joinTable. unfold_M. rewrite Htable.
  destruct (Qltb buyIn _) eqn:Hlo; simpl.
  { split; [|done]. intros _. left. by apply Qltb_lt. }
  destruct (Qltb _ buyIn) eqn:Hhi; simpl.
  { split; [|done]. intros _. right. by apply Qltb_lt. }
  apply Qltb_ge in Hlo, Hhi.
  split.
  - case_bool_decide; [done|].
    destruct (user_balances s !! userId) as [c|]; [|done].
    by destruct (Qltb c buyIn).
  - intros [H|H]; lra.
Qed.

Lemma joinTable_buy_in_bounds_witness :
  outcome (joinTable "t2" 8 199) ten_blind_db = inl (InvalidBuyIn (10 * 20) (10 * 500)) ∧
  outcome (joinTable "t2" 8 200) ten_blind_db = inr true.
Proof.
  split.
  - apply (joinTable_buy_in_bounds "t2" 8 199 ten_blind_db
      {| pt_table_id := "t2"; pt_name := "mid"; pt_small_blind := 5;
         pt_big_blind := 10; pt_max_players := 6; pt_min_buy_in := 10 * 20;
         pt_max_buy_in := 10 * 500; pt_status := TableOpen; pt_total_pot := None |}).
    + vm_compute. reflexivity.
    + left. simpl. lra.
  - vm_compute. reflexivity.
Defined.

(** X3.  A table is never overbooked by [joinTable]: a call that returns
    found fewer active seats than the table allows, so that afterwards the
    active seats at the table, one more than before, are at most
    [max_players]; with the buy-in in bounds and the table full the call
    throws "Table is full". *)
Theorem joinTable_capacity tableId userId buyIn s table :
  head (filter (λ r, pt_table_id r = tableId) (poker_tables s)) = Some table →
  let seats s := length (filter (active_at tableId) (poker_players s)) in
  (∀ joined, outcome (joinTable tableId userId buyIn) s = inr joined →
     seats (after (joinTable tableId userId buyIn) s) = S (seats s) ∧
     (Z.of_nat (seats (after (joinTable tableId userId buyIn) s))
        ≤ pt_max_players table)%Z) ∧
  ((pt_min_buy_in table <= buyIn)%Q → (buyIn <= pt_max_buy_in table)%Q →
   (pt_max_players table ≤ Z.of_nat (seats s))%Z →
   joinTable tableId userId buyIn s = (inl TableFull, s)).
Proof.
  intros Htable. simpl. split.
  - unfold outcome, after.
    destruct (joinTable_cases tableId userId buyIn s)
      as [[e ->]|(table' & c & Htable' & _ & _ & Hcount & _ & _ & ->)]; simpl;
      [by intros ? [=]|].
    intros _ _. rewrite Htable in Htable'. injection Htable' as <-.
    rewrite filter_app, length_app, filter_cons_True by done. simpl. lia.
  - intros Hlo%Qltb_ge Hhi%Qltb_ge Hfull.
    unfold joinTable. unfold_M. rewrite Htable, Hlo, Hhi. simpl.
    by rewrite bool_decide_eq_true_2.
Qed.

Lemma joinTable_capacity_witness :
  joinTable "t3" 8 40 full_table_db = (inl TableFull, full_table_db).
Proof.
  apply (joinTable_capacity "t3" 8 40 full_table_db
    {| pt_table_id := "t3"; pt_name := "duo"; pt_small_blind := 1;
       pt_big_blind := 2; pt_max_players := 2; pt_min_buy_in := 2 * 20;
       pt_max_buy_in := 2 * 500; pt_status := TableOpen; pt_total_pot := None |}).
  - vm_compute. reflexivity.
  - simpl. lra.
  - simpl. lra.
  - vm_compute. discriminate.
Defined.




(** X5.  Joining a table and leaving it with the buy-in as cash-out is a
    round trip for the balance: the second call returns, the user's balance
    is worth what it was, the user has no active seat at the table, and the
    log has gained the bet and the win. *)
Theorem joinTable_then_leaveTable tableId userId buyIn s joined :
  outcome (joinTable tableId userId buyIn) s = inr joined →
  let s1 := after (joinTable tableId userId buyIn) s in
  let s2 := after (leaveTable tableId userId buyIn) s1 in
  outcome (leaveTable tableId userId buyIn) s1 = inr true ∧
  (∃ c c', user_balances s !! userId = Some c ∧
           user_balances s2 !! userId = Some c' ∧ (c' == c)%Q) ∧
  (∀ other, other ≠ userId → user_balances s2 !! other = user_balances s !! other) ∧
  active_seats tableId userId s2 = 0%nat ∧
  transactions s2 = transactions s ++
    [{| tx_user_id := userId; tx_transaction_type := Bet; tx_currency := "SC";
        tx_amount := buyIn; tx_description := "Poker table buy-in";
        tx_status := "completed" |};
     {| tx_user_id := userId; tx_transaction_type := Win; tx_currency := "SC";
        tx_amount := buyIn; tx_description := "Poker table cash out";
        tx_status := "completed" |}].
Proof.
  simpl. unfold outcome, after.
  destruct (joinTable_cases tableId userId buyIn s)
    as [[e ->]|(table & c & _ & _ & _ & _ & Hc & _ & ->)]; simpl; [done|].
  intros _. rewrite leaveTable_spec.
  rewrite decide_False; cycle 1.
  { simpl. rewrite filter_app, filter_cons_True by done.
    intros [_ [=]]%app_eq_nil. }
  simpl. split_and!.
  - done.
  - exists c, (c - buyIn + buyIn)%Q. split_and!; [done| |ring].
    rewrite !lookup_alter, !decide_True by done. by rewrite Hc.
  - intros other Hne. by rewrite !lookup_alter, !decide_False by done.
  - unfold active_seats. simpl. apply length_zero_iff_nil, filter_none.
    intros r (r0 & Hr0 & ->)%elem_of_update_where [Hseat Hact].
    destruct (decide (seat_of tableId userId r0)); done.
  - by rewrite <- app_assoc.
Qed.

Lemma joinTable_then_leaveTable_witness :
  outcome (leaveTable "t1" 8 40) one_seat_db = inr true ∧
  active_seats "t1" 8 (after (leaveTable "t1" 8 40) one_seat_db) = 0%nat.
Proof.
  destruct (joinTable_then_leaveTable "t1" 8 40
              (after (createTable "t1" "low" 1 2 6) fresh_db) true)
    as (Hout & _ & _ & Hseats & _).
  - vm_compute. reflexivity.
  - split; [exact Hout|exact Hseats].
Defined.

Lemma run_no_pot_paid c s : unsettled s → no_pot_paid s → no_pot_paid (run c s).
Proof.
  intros (Hc & _ & _) [Hhands Hwins].
  destruct c as [tableId name sb bb mp|tableId userId buyIn|tableId userId cashOut
                |handId tableId|handId winnerId winningHand
                |parlay_id legIdOf userId legs totalWager
                |eventId homeScore awayScore|thisYear userId]; simpl.
  - done.
  - unfold after.
    destruct (joinTable_cases tableId userId buyIn s)
      as [[e ->]|(table & c & _ & _ & _ & _ & _ & _ & ->)]; [done|].
    split; [done|]. simpl. intros t [Ht| ->%list_elem_of_singleton]%elem_of_app; [|done].
    by apply Hwins.
  - unfold after. rewrite leaveTable_spec. case_decide; [done|].
    split; [done|]. simpl. intros t [Ht| ->%list_elem_of_singleton]%elem_of_app; [|done].
    by apply Hwins.
  - done.
  - done.
  - unfold after.
    destruct (createParlay_cases parlay_id legIdOf userId legs totalWager s)
      as [[e ->]|(c & _ & _ & _ & _ & ->)]; [done|].
    split; [done|]. simpl. intros t [Ht| ->%list_elem_of_singleton]%elem_of_app; [|done].
    by apply Hwins.
  - destruct (eventCache s !! eventId) as [event|] eqn:Hev.
    + assert (ev_status event ≠ Completed) as Hst by by rewrite (Hc _ _ Hev).
      unfold after. by rewrite (updateEventScore_spec _ _ _ _ _ Hev Hst).
    + unfold after, updateEventScore. unfold_M. by rewrite Hev.
  - unfold after, checkEligibility. unfold_M. by destruct (users s !! userId).
Qed.

Lemma reachable_no_pot_paid s : reachable s → no_pot_paid s.
Proof.
  induction 1 as [s Hinit|c s Hs IH].
  - destruct Hinit as (_ & _ & Hh & Ht & _). split; [done|].
    rewrite Ht. by intros t ?%elem_of_nil.
  - apply run_no_pot_paid; [by apply reachable_unsettled|done].
Qed.

(** X6.  No hand is ever dealt and no pot is ever paid.  [dealHand] and
    [completeHand] throw at [this.pool.query] whatever their arguments and
    leave the database as it was, so that in every database reached from
    an initial one by calls of the services [poker_hands] is empty and the
    only wins on the ledger are table cash-outs. *)
Theorem reachable_no_hand s :
  reachable s →
  poker_hands s = [] ∧
  (∀ t, t ∈ transactions s → tx_transaction_type t = Win →
        tx_description t = "Poker table cash out") ∧
  (∀ handId tableId, after (dealHand handId tableId) s = s) ∧
  (∀ handId winnerId winningHand, after (completeHand handId winnerId winningHand) s = s).
Proof.
  intros [Hhands Hwins]%reachable_no_pot_paid. by split_and!.
Qed.

(** The theorem at work after a deal at a table that exists and a
    completion of the hand it should have dealt. *)
Lemma reachable_no_hand_witness :
  poker_hands (run_all [CreateTable "t1" "low" 1 2 6; JoinTable "t1" 8 40;
                        DealHand "h1" "t1"; CompleteHand "h1" 8 "flush"] fresh_db) = [] ∧
  user_balances (run_all [CreateTable "t1" "low" 1 2 6; JoinTable "t1" 8 40;
                          DealHand "h1" "t1"; CompleteHand "h1" 8 "flush"] fresh_db)
    = user_balances one_seat_db.
Proof.
  split.
  - apply reachable_no_hand, reachable_run_all. constructor. apply fresh_db_initial.
  - vm_compute. reflexivity.
Defined.

(** X8.  The statistics of the tables never show a pot.  In every database
    reached from an initial one by calls of the services, [getAdminStats]
    returns a row exactly when a table exists, and the row counts the
    tables and reports neither a total of pots distributed nor an average
    pot, since no hand is ever finished. *)
Theorem getAdminStats_reports_no_pot s :
  reachable s →
  (outcome getAdminStats s = inr None ↔ poker_tables s = []) ∧
  (∀ stats, outcome getAdminStats s = inr (Some stats) →
     total_tables stats = length (poker_tables s) ∧
     total_pots_distributed stats = None ∧ avg_pot_size stats = None).
Proof.
  intros [Hhands _]%reachable_no_pot_paid.
  unfold outcome, getAdminStats, gets. simpl. rewrite Hhands.
  destruct (poker_tables s) as [|table tables]; split; try done.
  by intros stats [= <-].
Qed.

(** The theorem at work after a table has been opened, joined and left. *)
Lemma getAdminStats_reports_no_pot_witness :
  ∃ stats, outcome getAdminStats left_db = inr (Some stats) ∧
           total_tables stats = 1%nat ∧ total_pots_distributed stats = None.
Proof.
  destruct (getAdminStats_reports_no_pot left_db) as [_ H].
  - apply reachable_run_all. constructor. apply fresh_db_initial.
  - eexists. split; [vm_compute; reflexivity|].
    edestruct H as (Ht & Hp & _); [vm_compute; reflexivity|].
    split; [exact Ht|exact Hp].
Defined.

Lemma filter_update_where_stable {A} (P : A → Prop) `{∀ r, Decision (P r)}
    (Q : A → Prop) `{∀ r, Decision (Q r)} f (rows : list A) :
  (∀ r, Q (f r) ↔ Q r) →
  filter Q (update_where P f rows) =
  (λ r, if decide (P r) then f r else r) <$> filter Q rows.
Proof.
  intros Hf. unfold update_where. induction rows as [|r rows IH]; [done|].
  rewrite fmap_cons, (filter_cons Q r). destruct (decide (P r)) as [HP|HP].
  - rewrite filter_cons. destruct (decide (Q r)) as [HQ|HQ].
    + rewrite decide_True by by apply Hf.
      rewrite fmap_cons, decide_True by done. by rewrite IH.
    + rewrite decide_False by by rewrite Hf. done.
  - rewrite filter_cons. destruct (decide (Q r)) as [HQ|HQ].
    + rewrite fmap_cons, decide_False by done. by rewrite IH.
    + done.
Qed.

Lemma update_where_preserves {A B} (P : A → Prop) `{∀ r, Decision (P r)} f (g : A → B)
    (rows : list A) :
  (∀ r, g (f r) = g r) → g <$> update_where P f rows = g <$> rows.
Proof.
  intros Hg. unfold update_where. rewrite <- list_fmap_compose.
  apply list_fmap_ext. intros i r _. simpl. by case_decide.
Qed.

(** ** Creating a parlay: further properties *)

Lemma payout_loop_first_missing pre leg post p s :
  Forall (λ l, is_Some (eventCache s !! leg_eventId l)) pre →
  eventCache s !! leg_eventId leg = None →
  payout_loop (pre ++ leg :: post) p s = (inl (EventNotFound (leg_eventId leg)), s).
Proof.
  intros Hpre Hleg. revert p.
  induction Hpre as [|l pre [ev Hev] _ IH]; intros p; simpl; unfold_M.
  - by rewrite Hleg.
  - rewrite Hev. apply IH.
Qed.

(** X9.  [createParlay] checks the wager, then the balance, then the
    events of the legs in order, and a call that throws has written
    nothing: a wager that is not positive gives "Wager must be greater than
    0" whatever the balance and the legs; else a missing or insufficient
    balance gives "Insufficient balance for parlay wager" whatever the
    legs; else the first leg on an unknown event gives "Event ... not
    found"; in each case, and whenever the call throws, the database is
    unchanged. *)
Theorem createParlay_checks_in_order parlay_id legIdOf userId legs totalWager s :
  ((totalWager <= 0)%Q →
   createParlay parlay_id legIdOf userId legs totalWager s = (inl WagerNotPositive, s)) ∧
  ((0 < totalWager)%Q →
   (∀ c, user_balances s !! userId = Some c → (c < totalWager)%Q) →
   createParlay parlay_id legIdOf userId legs totalWager s = (inl InsufficientParlay, s)) ∧
  (∀ c pre leg post,
     (0 < totalWager)%Q → user_balances s !! userId = Some c → (totalWager <= c)%Q →
     legs = pre ++ leg :: post →
     Forall (λ l, is_Some (eventCache s !! leg_eventId l)) pre →
     eventCache s !! leg_eventId leg = None →
     createParlay parlay_id legIdOf userId legs totalWager s
       = (inl (EventNotFound (leg_eventId leg)), s)) ∧
  (∀ e, outcome (createParlay parlay_id legIdOf userId legs totalWager) s = inl e →
        after (createParlay parlay_id legIdOf userId legs totalWager) s = s).
Proof.
  split_and!.
  - intros Hw%Qleb_le. unfold createParlay. by rewrite Hw.
  - intros Hw%Qleb_gt Hbal. unfold createParlay. rewrite Hw. unfold_M.
    destruct (user_balances s !! userId) as [c|]; [|done].
    specialize (Hbal c eq_refl). apply Qltb_lt in Hbal. by rewrite Hbal.
  - intros c pre leg post Hw%Qleb_gt Hc Hle%Qltb_ge -> Hpre Hleg.
    unfold createParlay. rewrite Hw. unfold_M. rewrite Hc, Hle.
    by rewrite payout_loop_first_missing.
  - unfold outcome, after.
    destruct (createParlay_cases parlay_id legIdOf userId legs totalWager s)
      as [[e' ->]|(c & _ & _ & _ & _ & ->)]; [done|]. by intros e [=].
Qed.

Lemma createParlay_checks_in_order_witness :
  createParlay "p1" leg_ids 8 two_legs (-5) fresh_db = (inl WagerNotPositive, fresh_db) ∧
  createParlay "p1" leg_ids 7 two_legs 10 fresh_db = (inl InsufficientParlay, fresh_db) ∧
  createParlay "p1" leg_ids 8 [leg_on "nfl_001" 150; leg_on "nhl_404" 120] 10 fresh_db
    = (inl (EventNotFound "nhl_404"), fresh_db).
Proof.
  split_and!.
  - apply (createParlay_checks_in_order "p1" leg_ids 8 two_legs (-5) fresh_db). lra.
  - apply (createParlay_checks_in_order "p1" leg_ids 7 two_legs 10 fresh_db); [lra|].
    intros c. vm_compute. intros [= <-]. reflexivity.
  - destruct (createParlay_checks_in_order "p1" leg_ids 8
                [leg_on "nfl_001" 150; leg_on "nhl_404" 120] 10 fresh_db)
      as (_ & _ & H & _).
    apply (H 1000%Q [leg_on "nfl_001" 150] (leg_on "nhl_404" 120) []).
    + lra.
    + vm_compute. reflexivity.
    + lra.
    + reflexivity.
    + constructor; [|constructor]. vm_compute. by eexists.
    + vm_compute. reflexivity.
Defined.

(** X10.  A [createParlay] that returns stores one row per leg, in leg
    order, with the event, pick, bet type and odds the caller sent, under
    the identifiers generated in that order, every one with the parlay's
    identifier and with no result: the result, the wager and the identifier
    a caller puts in a leg are not stored.  Every event of the legs is in
    the cache, and the wager, which the balance covered, is debited and
    logged as one bet. *)
Theorem createParlay_stores_the_legs parlay_id legIdOf userId legs totalWager s parlay :
  outcome (createParlay parlay_id legIdOf userId legs totalWager) s = inr parlay →
  let s' := after (createParlay parlay_id legIdOf userId legs totalWager) s in
  ∃ rows,
    parlay_legs s' = parlay_legs s ++ rows ∧
    pl_event_id <$> rows = leg_eventId <$> legs ∧
    pl_pick <$> rows = leg_pick <$> legs ∧
    pl_bet_type <$> rows = betType <$> legs ∧
    pl_odds <$> rows = odds <$> legs ∧
    pl_leg_id <$> rows = legIdOf <$> seq 0 (length legs) ∧
    Forall (λ r, pl_parlay_id r = parlay_id ∧ pl_result r = None) rows ∧
    Forall (λ leg, is_Some (eventCache s !! leg_eventId leg)) legs ∧
    (∃ c, user_balances s !! userId = Some c ∧ (totalWager <= c)%Q ∧
          user_balances s' = <[userId := (c - totalWager)%Q]> (user_balances s)) ∧
    transactions s' = transactions s ++
      [{| tx_user_id := userId; tx_transaction_type := Bet; tx_currency := "SC";
          tx_amount := totalWager; tx_description := "Sports parlay " +:+ parlay_id;
          tx_status := "completed" |}].
Proof.
  simpl. unfold outcome, after.
  destruct (createParlay_cases parlay_id legIdOf userId legs totalWager s)
    as [[e' ->]|(c & _ & Hc & Hle & Hev & ->)]; [done|]. intros _. simpl.
  destruct (leg_rows_spec parlay_id legIdOf 0 legs) as (H1 & H2 & H3 & H4 & H5 & H6).
  eexists. split_and!; try done.
  exists c. split_and!; [done..|].
  apply map_eq. intros v. rewrite lookup_alter, lookup_insert.
  destruct (decide (userId = v)) as [<-|]; [by rewrite Hc|done].
Qed.

Lemma createParlay_stores_the_legs_witness :
  ∃ rows,
    parlay_legs (after (createParlay "p3" leg_ids 8 [won_leg] 10) fresh_db) = rows ∧
    pl_odds <$> rows = [200%Q] ∧
    Forall (λ r, pl_parlay_id r = "p3" ∧ pl_result r = None) rows.
Proof.
  destruct (createParlay_stores_the_legs "p3" leg_ids 8 [won_leg] 10 fresh_db
    {| parlay_id := "p3"; user_id := 8; legs := [won_leg]; total_wager := 10;
       potential_payout := 10 * (200 / 100); parlay_status_of := Pending |})
    as (rows & Hrows & _ & _ & _ & Hodds & _ & Hres & _).
  - vm_compute. reflexivity.
  - exists rows. split_and!; [exact Hrows|exact Hodds|exact Hres].
Defined.

(** ** Resolving parlays: further properties *)

(** The legs query returns the legs of the parlay, for a parlay that has a
    row. *)
Lemma elem_of_legs_query pid s pl :
  pl ∈ legs_query pid s ↔
  pl ∈ parlay_legs s ∧ pl_parlay_id pl = pid ∧
  ∃ sp, sp ∈ sports_parlays s ∧ sp_parlay_id sp = pid.
Proof.
  unfold legs_query. rewrite list_elem_of_bind. split.
  - intros (pl' & Hin & Hpl').
    apply list_elem_of_bind in Hin as (sp & Hin & Hsp).
    case_decide as Hd; [|by apply elem_of_nil in Hin].
    apply list_elem_of_singleton in Hin as ->. destruct Hd as [Hid Hpid].
    split_and!; [done..|]. exists sp. split; [done|congruence].
  - intros (Hpl & Hpid & sp & Hsp & Hid). exists pl. split; [|done].
    apply list_elem_of_bind. exists sp. split; [|done].
    rewrite decide_True by (split; congruence). by apply list_elem_of_singleton.
Qed.

Lemma legs_resolved_false pid s sp pl :
  sp ∈ sports_parlays s → sp_parlay_id sp = pid →
  pl ∈ parlay_legs s → pl_parlay_id pl = pid → pl_result pl = None →
  legs_resolved pid s = false.
Proof.
  intros Hsp Hid Hpl Hpid Hres. unfold legs_resolved.
  rewrite allLegsResolved_forallb. apply not_true_is_false.
  intros Hall. rewrite forallb_forall in Hall.
  specialize (Hall pl). rewrite bool_decide_eq_true in Hall.
  apply Hall; [|done]. apply list_elem_of_In, elem_of_legs_query.
  split_and!; [done..|]. by exists sp.
Qed.

Lemma legs_resolved_true pid s :
  (∀ pl, pl ∈ parlay_legs s → pl_parlay_id pl = pid → pl_result pl ≠ None) →
  legs_resolved pid s = true.
Proof.
  intros Hall. unfold legs_resolved. rewrite allLegsResolved_forallb.
  apply forallb_forall. intros pl (Hpl & Hpid & _)%list_elem_of_In%elem_of_legs_query.
  apply bool_decide_eq_true. by apply Hall.
Qed.

Lemma win_description_inj pid pid' :
  "Sports parlay win " +:+ pid = "Sports parlay win " +:+ pid' → pid = pid'.
Proof. simpl. by intros [=]. Qed.

(** The rows of a parlay that the loop does not settle are left alone. *)
Lemma resolve_fold_keeps cs s pid :
  legs_resolved pid s = false →
  filter (λ r, sp_parlay_id r = pid) (sports_parlays (fold_left resolve_step cs s))
  = filter (λ r, sp_parlay_id r = pid) (sports_parlays s).
Proof.
  revert s. induction cs as [|c cs IH]; intros s Hres; simpl; [done|].
  rewrite IH by (unfold legs_resolved in *; by rewrite resolve_step_legs_query).
  rewrite resolve_step_parlays.
  destruct (legs_resolved (c_parlay_id c) s) eqn:Hc; [|done].
  rewrite (filter_update_where_stable _ (λ r, sp_parlay_id r = pid)) by done.
  rewrite <- (list_fmap_id (filter _ (sports_parlays s))) at 2.
  apply list_fmap_ext. intros i r Hr.
  apply list_elem_of_lookup_2, list_elem_of_filter in Hr as [Hid _].
  rewrite decide_False; [done|]. intros Hid'. congruence.
Qed.

(** The new records of the log are the wins of the winning candidates. *)
Lemma resolve_no_win_logged eventId s pid :
  (∀ c, c ∈ candidates eventId s → c_parlay_id c = pid → wins s c = false) →
  ∃ new, transactions (after (resolveParlaysForEvent eventId) s) = transactions s ++ new ∧
         Forall (λ tx, tx_description tx ≠ "Sports parlay win " +:+ pid) new.
Proof.
  intros Hlose. unfold after. rewrite resolveParlaysForEvent_spec. simpl.
  destruct (eventCache s !! eventId) as [event|];
    [|exists []; by rewrite app_nil_r].
  case_decide; [|exists []; by rewrite app_nil_r].
  rewrite (proj2 (resolve_fold_ledger _ _)). eexists. split; [done|].
  apply Forall_fmap, Forall_forall. intros c [Hc Hwin]%list_elem_of_In%filter_In.
  simpl. intros Heq%win_description_inj.
  rewrite (Hlose c) in Hwin; [done|by apply list_elem_of_In|done].
Qed.

(** X11.  Resolution waits for every leg.  While a leg of a parlay has no
    result, [resolveParlaysForEvent], for whatever event, leaves every row
    of that parlay as it is, status included, and logs no win for it. *)
Theorem resolveParlaysForEvent_waits_for_every_leg eventId s pid sp pl :
  sp ∈ sports_parlays s → sp_parlay_id sp = pid →
  pl ∈ parlay_legs s → pl_parlay_id pl = pid → pl_result pl = None →
  let s' := after (resolveParlaysForEvent eventId) s in
  filter (λ r, sp_parlay_id r = pid) (sports_parlays s')
    = filter (λ r, sp_parlay_id r = pid) (sports_parlays s) ∧
  ∃ new, transactions s' = transactions s ++ new ∧
         Forall (λ tx, tx_description tx ≠ "Sports parlay win " +:+ pid) new.
Proof.
  intros Hsp Hid Hpl Hpid Hres. simpl.
  pose proof (legs_resolved_false pid s sp pl Hsp Hid Hpl Hpid Hres) as Hunres.
  split.
  - unfold after. rewrite resolveParlaysForEvent_spec. simpl.
    destruct (eventCache s !! eventId) as [event|]; [|done].
    case_decide; [|done]. by apply resolve_fold_keeps.
  - apply resolve_no_win_logged. intros c _ Hc. unfold wins. by rewrite Hc, Hunres.
Qed.

Lemma resolveParlaysForEvent_waits_for_every_leg_witness :
  filter (λ r, sp_parlay_id r = "p1")
    (sports_parlays (after (resolveParlaysForEvent "nfl_001") half_settled_db))
  = filter (λ r, sp_parlay_id r = "p1") (sports_parlays half_settled_db).
Proof.
  apply (resolveParlaysForEvent_waits_for_every_leg "nfl_001" half_settled_db "p1"
    {| sp_parlay_id := "p1"; sp_user_id := 8; sp_total_wager := 10;
       sp_potential_payout := 18; sp_status := Pending |}
    {| pl_leg_id := "leg_b"; pl_parlay_id := "p1"; pl_event_id := "nba_001";
       pl_pick := PickHome; pl_bet_type := Moneyline; pl_odds := 120;
       pl_result := None |}).
  - vm_compute. apply list_elem_of_In. by left.
  - reflexivity.
  - vm_compute. apply list_elem_of_In. right. by left.
  - reflexivity.
  - reflexivity.
Defined.

(** The status the loop gives a parlay it settles. *)
Lemma resolve_step_keeps_status s c pid st :
  verdict pid s = st →
  (∀ r, r ∈ sports_parlays s → sp_parlay_id r = pid → sp_status r = st) →
  ∀ r, r ∈ sports_parlays (resolve_step s c) → sp_parlay_id r = pid → sp_status r = st.
Proof.
  intros Hv Hs r. rewrite resolve_step_parlays.
  destruct (legs_resolved _ _); [|apply Hs].
  intros (r0 & Hr0 & ->)%elem_of_update_where. case_decide as Hid; simpl.
  - intros Hpid. congruence.
  - by apply Hs.
Qed.

Lemma resolve_fold_keeps_status cs s pid st :
  verdict pid s = st →
  (∀ r, r ∈ sports_parlays s → sp_parlay_id r = pid → sp_status r = st) →
  ∀ r, r ∈ sports_parlays (fold_left resolve_step cs s) → sp_parlay_id r = pid →
       sp_status r = st.
Proof.
  revert s. induction cs as [|c cs IH]; intros s Hv Hs; simpl; [done|].
  apply IH.
  - unfold verdict in *. by rewrite resolve_step_legs_query.
  - by apply resolve_step_keeps_status.
Qed.

Lemma resolve_fold_verdict cs s c :
  c ∈ cs → legs_resolved (c_parlay_id c) s = true →
  ∀ r, r ∈ sports_parlays (fold_left resolve_step cs s) →
       sp_parlay_id r = c_parlay_id c → sp_status r = verdict (c_parlay_id c) s.
Proof.
  revert s. induction cs as [|c0 cs IH]; intros s Hin Hres; simpl.
  - by apply elem_of_nil in Hin.
  - apply elem_of_cons in Hin as [->|Hin].
    + apply resolve_fold_keeps_status.
      * unfold verdict. by rewrite resolve_step_legs_query.
      * intros r. rewrite resolve_step_parlays, Hres.
        intros (r0 & Hr0 & ->)%elem_of_update_where. by case_decide.
    + intros r Hr Hid.
      assert (verdict (c_parlay_id c) s = verdict (c_parlay_id c) (resolve_step s c0)) as ->
        by (unfold verdict; by rewrite resolve_step_legs_query).
      apply IH; [done| |done|done].
      unfold legs_resolved in *. by rewrite resolve_step_legs_query.
Qed.

(** X12.  Only the result won wins.  For a completed event, a pending
    parlay with a leg on it, all of whose legs carry a result, one of them
    a result other than won (lost, or the value pending), is settled as
    lost: every row of the parlay has status lost afterwards, and no win is
    logged for it. *)
Theorem resolveParlaysForEvent_loses_on_a_leg_not_won eventId s event pid sp pl bad :
  eventCache s !! eventId = Some event → ev_status event = Completed →
  sp ∈ sports_parlays s → sp_parlay_id sp = pid → sp_status sp = Pending →
  pl ∈ parlay_legs s → pl_parlay_id pl = pid → pl_event_id pl = eventId →
  (∀ l, l ∈ parlay_legs s → pl_parlay_id l = pid → pl_result l ≠ None) →
  bad ∈ parlay_legs s → pl_parlay_id bad = pid → pl_result bad ≠ Some LegWon →
  let s' := after (resolveParlaysForEvent eventId) s in
  (∀ r, r ∈ sports_parlays s' → sp_parlay_id r = pid → sp_status r = Lost) ∧
  ∃ new, transactions s' = transactions s ++ new ∧
         Forall (λ tx, tx_description tx ≠ "Sports parlay win " +:+ pid) new.
Proof.
  intros Hev Hst Hsp Hid Hpend Hpl Hpid Hple Hall Hbad Hbadid Hbadres. simpl.
  assert (allLegsWon (legs_query pid s) = false) as Hlost.
  { apply not_true_is_false. unfold allLegsWon. rewrite forallb_forall.
    intros Hwon. specialize (Hwon bad). rewrite bool_decide_eq_true in Hwon.
    apply Hbadres, Hwon, list_elem_of_In, elem_of_legs_query.
    split_and!; [done..|]. by exists sp. }
  split.
  - rewrite (resolveParlaysForEvent_after eventId s event) by done.
    destruct (candidates_complete eventId s sp pl) as (c & Hc & Hcid);
      [done|done|congruence|done|done|].
    rewrite Hid in Hcid. intros r Hr Hrid.
    rewrite (resolve_fold_verdict _ s c Hc); [| |done|congruence].
    + unfold verdict. by rewrite Hcid, Hlost.
    + rewrite Hcid. by apply legs_resolved_true.
  - apply resolve_no_win_logged. intros c _ Hc. unfold wins.
    rewrite Hc, Hlost. apply andb_false_r.
Qed.

Lemma resolveParlaysForEvent_loses_on_a_leg_not_won_witness :
  (∀ r, r ∈ sports_parlays (after (resolveParlaysForEvent "nfl_001") pending_leg_db) →
        sp_parlay_id r = "p1" → sp_status r = Lost) ∧
  ∃ new, transactions (after (resolveParlaysForEvent "nfl_001") pending_leg_db)
         = transactions pending_leg_db ++ new ∧
         Forall (λ tx, tx_description tx ≠ "Sports parlay win " +:+ "p1") new.
Proof.
  assert (parlay_legs pending_leg_db =
    [{| pl_leg_id := "leg_a"; pl_parlay_id := "p1"; pl_event_id := "nfl_001";
        pl_pick := PickHome; pl_bet_type := Moneyline; pl_odds := 150;
        pl_result := Some LegWon |};
     {| pl_leg_id := "leg_b"; pl_parlay_id := "p1"; pl_event_id := "nba_001";
        pl_pick := PickHome; pl_bet_type := Moneyline; pl_odds := 120;
        pl_result := Some LegPending |}]) as Hlegs by (vm_compute; reflexivity).
  eapply (resolveParlaysForEvent_loses_on_a_leg_not_won "nfl_001" pending_leg_db _ "p1"
    {| sp_parlay_id := "p1"; sp_user_id := 8; sp_total_wager := 10;
       sp_potential_payout := 18; sp_status := Pending |}
    {| pl_leg_id := "leg_a"; pl_parlay_id := "p1"; pl_event_id := "nfl_001";
       pl_pick := PickHome; pl_bet_type := Moneyline; pl_odds := 150;
       pl_result := Some LegWon |}
    {| pl_leg_id := "leg_b"; pl_parlay_id := "p1"; pl_event_id := "nba_001";
       pl_pick := PickHome; pl_bet_type := Moneyline; pl_odds := 120;
       pl_result := Some LegPending |}).
  - vm_compute. reflexivity.
  - reflexivity.
  - vm_compute. apply list_elem_of_In. by left.
  - reflexivity.
  - reflexivity.
  - rewrite Hlegs. by left.
  - reflexivity.
  - reflexivity.
  - rewrite Hlegs. intros l [->|[->|[]%elem_of_nil]%elem_of_cons]%elem_of_cons _; done.
  - rewrite Hlegs. right. by left.
  - reflexivity.
  - done.
Defined.

(** ** What the public calls never do: properties *)

(** X13.  The public calls never settle a parlay.  In every database
    reached from an initial one by calls of the services, every cached
    event is still scheduled, every parlay is pending and no leg has a
    result: [updateEventScore], the one caller of
    [resolveParlaysForEvent], does not change the status the resolution
    reads, so that the resolution for any event does nothing, and no
    stake is ever paid out. *)
Theorem reachable_never_settles s :
  reachable s →
  (∀ id event, eventCache s !! id = Some event → ev_status event = Scheduled) ∧
  (∀ r, r ∈ sports_parlays s → sp_status r = Pending) ∧
  (∀ l, l ∈ parlay_legs s → pl_result l = None) ∧
  (∀ eventId, after (resolveParlaysForEvent eventId) s = s) ∧
  (∀ eventId homeScore awayScore,
     user_balances (after (updateEventScore eventId homeScore awayScore) s)
       = user_balances s ∧
     sports_parlays (after (updateEventScore eventId homeScore awayScore) s)
       = sports_parlays s).
Proof.
  intros (Hc & Hp & Hl)%reachable_unsettled.
  split_and!; [done|by apply Forall_forall|by apply Forall_forall| |].
  - intros eventId. apply resolveParlaysForEvent_noop.
    intros event Hev. by rewrite (Hc _ _ Hev).
  - intros eventId homeScore awayScore.
    destruct (eventCache s !! eventId) as [event|] eqn:Hev.
    + assert (ev_status event ≠ Completed) as Hst by by rewrite (Hc _ _ Hev).
      unfold after. by rewrite (updateEventScore_spec _ _ _ _ _ Hev Hst).
    + unfold after, updateEventScore. unfold_M. by rewrite Hev.
Qed.

Lemma reachable_never_settles_witness :
  (∀ r, r ∈ sports_parlays scored_db → sp_status r = Pending) ∧
  after (resolveParlaysForEvent "nfl_001") scored_db = scored_db.
Proof.
  destruct (reachable_never_settles scored_db) as (_ & Hp & _ & Hr & _).
  - apply reachable_run_all. constructor. apply fresh_db_initial.
  - split; [exact Hp|apply Hr].
Defined.

(** ** Score updates: further properties *)

(** X14.  The last score wins.  For a cached event that is not completed,
    two score updates in succession leave the database that the second
    alone would leave: in the cache and in [sports_events] the event has
    the second scores, and the row keeps the sport and the teams it had or
    was created with. *)
Theorem updateEventScore_last_write_wins eventId h1 a1 h2 a2 s event :
  eventCache s !! eventId = Some event → ev_status event ≠ Completed →
  after (updateEventScore eventId h2 a2) (after (updateEventScore eventId h1 a1) s)
  = after (updateEventScore eventId h2 a2) s.
Proof.
  intros Hev Hst. unfold after at 2 3.
  rewrite !(updateEventScore_spec _ _ _ _ _ Hev Hst). simpl.
  unfold after.
  rewrite (updateEventScore_spec eventId h2 a2 _ (set_scores h1 a1 event));
    [|by simpl; rewrite lookup_insert_eq|done].
  simpl. unfold score_updated, with_sports_events, with_eventCache. simpl.
  f_equal.
  - rewrite partial_alter_partial_alter_eq. apply partial_alter_ext.
    intros [row|] _; done.
  - by rewrite insert_insert_eq.
Qed.

Lemma updateEventScore_last_write_wins_witness :
  after (updateEventScore "nfl_001" 31 17) (after (updateEventScore "nfl_001" 7 0) fresh_db)
  = after (updateEventScore "nfl_001" 31 17) fresh_db.
Proof.
  eapply (updateEventScore_last_write_wins "nfl_001" 7 0 31 17 fresh_db).
  - vm_compute. reflexivity.
  - done.
Defined.

(** ** The POST /parlays handler: further properties *)

(** X15.  The handler answers 201 or 400 and nothing else.  It answers 201,
    with the parlay, exactly when the legs are a non-empty list, the wager
    is positive and [createParlay] returns.  Otherwise it answers 400 and
    the database is as before: "Invalid parlay legs" for legs that are
    missing or empty, else "Invalid wager amount" for a wager that is
    missing, 0 or negative, else the message of what [createParlay]
    threw. *)
Theorem post_parlays_outcomes parlay_id legIdOf userId legs totalWager s :
  let res := fst (post_parlays parlay_id legIdOf userId legs totalWager s) in
  let s' := snd (post_parlays parlay_id legIdOf userId legs totalWager s) in
  (res_status res = 201%Z ∧
   ∃ legs' w parlay,
     legs = Some legs' ∧ legs' ≠ [] ∧ totalWager = Some w ∧ (0 < w)%Q ∧
     createParlay parlay_id legIdOf userId legs' w s = (inr parlay, s') ∧
     res_json res = ParlayBody parlay) ∨
  (res_status res = 400%Z ∧ s' = s ∧
   (((legs = None ∨ legs = Some []) ∧
     res_json res = ErrorBody [Text "Invalid parlay legs"]) ∨
    ((∃ legs', legs = Some legs' ∧ legs' ≠ []) ∧
     (totalWager = None ∨ ∃ w, totalWager = Some w ∧ (w <= 0)%Q) ∧
     res_json res = ErrorBody [Text "Invalid wager amount"]) ∨
    (∃ legs' w e,
       legs = Some legs' ∧ legs' ≠ [] ∧ totalWager = Some w ∧ (0 < w)%Q ∧
       createParlay parlay_id legIdOf userId legs' w s = (inl e, s) ∧
       res_json res = ErrorBody (message e)))).
Proof.
  simpl. unfold post_parlays.
  destruct legs as [[|leg legs']|]; [right; simpl; auto 6| |right; simpl; auto 6].
  destruct totalWager as [w|].
  2:{ right. simpl. split_and!; [done..|]. right. left. split_and!; eauto. }
  destruct (Qeq_bool w 0) eqn:Hz; simpl.
  { apply Qeq_bool_iff in Hz. right. simpl. split_and!; [done..|]. right. left.
    split_and!; [eauto| |done]. right. exists w. split; [done|lra]. }
  destruct (Qleb w 0) eqn:Hw; simpl.
  { apply Qleb_le in Hw. right. simpl. split_and!; [done..|]. right. left.
    split_and!; [eauto| |done]. right. by exists w. }
  apply Qleb_gt in Hw.
  destruct (createParlay parlay_id legIdOf userId (leg :: legs') w s)
    as [[e|parlay] s1] eqn:Hrun; simpl.
  - destruct (createParlay_error_message _ _ _ _ _ _ _ _ Hrun) as [-> Hmsg].
    right. split_and!; [done..|]. right. right.
    exists (leg :: legs'), w, e. split_and!; [done..|].
    destruct (message e) as [|[[|]|] []]; done.
  - left. split; [done|]. by exists (leg :: legs'), w, parlay.
Qed.

(** The theorem at work on a wager of 10 on two legs: the answer is 201. *)
Lemma post_parlays_outcomes_witness :
  res_status (fst (post_parlays "p1" leg_ids 8 (Some two_legs) (Some 10%Q) fresh_db))
    = 201%Z.
Proof.
  destruct (post_parlays_outcomes "p1" leg_ids 8 (Some two_legs) (Some 10%Q) fresh_db)
    as [[H _]|(_ & _ & [[[H|H] _]|[(_ & [H|(w & [= <-] & H)] & _)|H]])].
  - exact H.
  - discriminate H.
  - discriminate H.
  - discriminate H.
  - vm_compute in H. by destruct H.
  - destruct H as (legs' & w & e & [= <-] & _ & [= <-] & _ & H & _).
    vm_compute in H. discriminate H.
Defined.

(** ** The betting slip of the client: properties *)

(** X16.  The slip holds at most one leg per event: adding a leg and
    removing one keep the events of the slip distinct, a leg on an event
    already on the slip is refused, and after a removal the event is on the
    slip no more. *)
Theorem slip_one_leg_per_event parlay event pick betType odds eventId' :
  NoDup (slip_eventId <$> parlay) →
  NoDup (slip_eventId <$> addLegToParlay parlay event pick betType odds) ∧
  NoDup (slip_eventId <$> removeLegFromParlay parlay eventId') ∧
  (eventId event ∈ slip_eventId <$> parlay →
   addLegToParlay parlay event pick betType odds = parlay) ∧
  eventId' ∉ slip_eventId <$> removeLegFromParlay parlay eventId'.
Proof.
  intros Hnd.
  assert (existsb (λ leg, bool_decide (slip_eventId leg = eventId event)) parlay = true
          ↔ eventId event ∈ slip_eventId <$> parlay) as Hex.
  { rewrite existsb_exists, list_elem_of_fmap. split.
    - intros (leg & Hin%list_elem_of_In & Heq%bool_decide_eq_true). by exists leg.
    - intros (leg & Heq & Hin). exists leg.
      split; [by apply list_elem_of_In|by apply bool_decide_eq_true]. }
  split_and!.
  - unfold addLegToParlay.
    destruct (existsb _ parlay) eqn:Hin; [done|].
    rewrite fmap_app. apply NoDup_app. split_and!; [done| |apply NoDup_singleton].
    intros e He [->|[]%elem_of_nil]%elem_of_cons.
    apply Hex in He. congruence.
  - unfold removeLegFromParlay. clear Hex.
    induction parlay as [|leg parlay IH]; [constructor|].
    rewrite fmap_cons in Hnd. apply NoDup_cons in Hnd as [Hleg Hnd].
    rewrite filter_cons. case_decide; [|by apply IH].
    rewrite fmap_cons. apply NoDup_cons. split; [|by apply IH].
    intros (l & Hl & [_ Hin]%list_elem_of_filter)%list_elem_of_fmap.
    apply Hleg, list_elem_of_fmap. by exists l.
  - intros Hin%Hex. unfold addLegToParlay. by rewrite Hin.
  - unfold removeLegFromParlay.
    intros (l & Hl & [Hne _]%list_elem_of_filter)%list_elem_of_fmap. by apply Hne.
Qed.

Lemma slip_one_leg_per_event_witness :
  addLegToParlay lakers_slip lakers_game PickAway Moneyline (-105) = lakers_slip.
Proof.
  apply (slip_one_leg_per_event lakers_slip lakers_game PickAway Moneyline (-105) "").
  - apply NoDup_singleton.
  - by left.
Defined.

(** X17.  Removing undoes adding: for an event that is not on the slip,
    adding a leg on it and removing the event gives the slip back. *)
Theorem removeLegFromParlay_undoes_add parlay event pick betType odds :
  eventId event ∉ slip_eventId <$> parlay →
  removeLegFromParlay (addLegToParlay parlay event pick betType odds) (eventId event)
  = parlay.
Proof.
  intros Hnew. unfold addLegToParlay, removeLegFromParlay.
  destruct (existsb _ parlay) eqn:Hin.
  { exfalso. apply Hnew. apply existsb_exists in Hin
      as (leg & Hl%list_elem_of_In & Heq%bool_decide_eq_true).
    apply list_elem_of_fmap. by exists leg. }
  rewrite filter_app, filter_cons_False, filter_nil, app_nil_r by (simpl; auto).
  induction parlay as [|leg parlay IH]; [done|].
  rewrite fmap_cons in Hnew. apply not_elem_of_cons in Hnew as [Hleg Hnew].
  simpl in Hin. apply orb_false_elim in Hin as [_ Hin].
  rewrite filter_cons_True by done. f_equal. by apply IH.
Qed.

Lemma removeLegFromParlay_undoes_add_witness :
  removeLegFromParlay lakers_slip "nba_001" = [].
Proof.
  apply (removeLegFromParlay_undoes_add [] lakers_game PickHome Moneyline (-115)).
  by intros ?%elem_of_nil.
Defined.

Lemma client_fold_payout_from parlay p :
  fold_left (λ payout leg, payout * (to_binary64 (slip_odds leg) / 100))%float parlay p
  = payout_from (sent_leg <$> parlay) p.
Proof.
  unfold payout_from. revert p.
  induction parlay as [|leg parlay IH]; intros p; [done|].
  rewrite fmap_cons. simpl. apply IH.
Qed.

(** X18.  The slip previews the payout of the server rounded by
    [Math.round(x * 100) / 100].  The slip and the server run the same
    chain of binary64 products, so that whenever [createParlay] returns
    for the legs the slip sends and its wager, the preview is that
    rounding of the potential payout returned; for a wager of 0 the
    preview is 0. *)
Theorem calculatePotentialPayout_agrees parlay totalWager parlay_id legIdOf userId s created :
  (outcome (createParlay parlay_id legIdOf userId (sent_leg <$> parlay) totalWager) s
     = inr created →
   calculatePotentialPayout parlay totalWager =
     (Math_round (potential_payout created * 100) / 100)%float) ∧
  ((totalWager == 0)%Q → calculatePotentialPayout parlay totalWager = 0%float).
Proof.
  unfold calculatePotentialPayout. split.
  - unfold outcome.
    destruct (createParlay_cases parlay_id legIdOf userId (sent_leg <$> parlay) totalWager s)
      as [[e ->]|(c & Hpos & _ & _ & _ & ->)]; [done|].
    intros [= <-]. simpl.
    assert (Qeq_bool totalWager 0 = false) as ->.
    { apply not_true_is_false. intros Hz%Qeq_bool_iff. lra. }
    by rewrite client_fold_payout_from.
  - intros Hz. apply Qeq_bool_iff in Hz. by rewrite Hz.
Qed.

(** The theorem at work on a wager of 5 at odds 110 and 145: the server
    returns 7.9749999999999996, and the slip previews 7.98. *)
Lemma calculatePotentialPayout_agrees_witness :
  calculatePotentialPayout spread_slip 5 =
    (Math_round (7.9749999999999996 * 100) / 100)%float ∧
  calculatePotentialPayout spread_slip 5 = 7.98%float.
Proof.
  split; [|vm_compute; reflexivity].
  eapply (calculatePotentialPayout_agrees spread_slip 5 "p5" leg_ids 8 fresh_db
    {| parlay_id := "p5"; user_id := 8; legs := sent_leg <$> spread_slip;
       total_wager := 5; potential_payout := 7.9749999999999996%float;
       parlay_status_of := Pending |}).
  vm_compute. reflexivity.
Defined.

Lemma post_parlays_negative_wager parlay_id legIdOf userId legs w s :
  legs ≠ [] → (w < 0)%Q →
  post_parlays parlay_id legIdOf userId (Some legs) (Some w) s =
  ({| res_status := 400; res_json := ErrorBody [Text "Invalid wager amount"] |}, s).
Proof.
  intros Hlegs Hneg. unfold post_parlays. destruct legs as [|leg legs]; [done|].
  assert (Qleb w 0 = true) as -> by (apply Qleb_le; lra).
  by rewrite orb_true_r.
Qed.

Lemma post_parlays_positive_wager parlay_id legIdOf userId legs w s :
  legs ≠ [] → (0 < w)%Q →
  snd (post_parlays parlay_id legIdOf userId (Some legs) (Some w) s) =
  after (createParlay parlay_id legIdOf userId legs w) s.
Proof.
  intros Hlegs Hpos. unfold post_parlays. destruct legs as [|leg legs]; [done|].
  assert (Qeq_bool w 0 = false) as ->.
  { apply not_true_is_false. intros Hz%Qeq_bool_iff. lra. }
  assert (Qleb w 0 = false) as -> by by apply Qleb_gt.
  simpl. unfold after. by destruct (createParlay _ _ _ _ _ _) as [[e|p] s'].
Qed.

(** X19.  What the slip sends, the handler never refuses for its legs.
    [placeBet] sends nothing for an empty slip or a wager of 0, the two
    requests the handler would refuse first; a request it does send is
    answered "Invalid wager amount", and changes nothing, exactly when the
    wager is negative, and otherwise reaches [createParlay] with the legs
    of the slip in order. *)
Theorem placeBet_then_post_parlays parlay totalWager parlay_id legIdOf userId s :
  (placeBet parlay totalWager = None ↔ parlay = [] ∨ (totalWager == 0)%Q) ∧
  ∀ legs w, placeBet parlay totalWager = Some (legs, w) →
    legs = sent_leg <$> parlay ∧ w = totalWager ∧
    ((w < 0)%Q →
     post_parlays parlay_id legIdOf userId (Some legs) (Some w) s =
     ({| res_status := 400; res_json := ErrorBody [Text "Invalid wager amount"] |}, s)) ∧
    ((0 < w)%Q →
     snd (post_parlays parlay_id legIdOf userId (Some legs) (Some w) s) =
     after (createParlay parlay_id legIdOf userId legs w) s).
Proof.
  unfold placeBet. split.
  - destruct parlay as [|leg parlay]; simpl; [split; auto|].
    destruct (Qeq_bool totalWager 0) eqn:Hz.
    + split; [|done]. intros _. right. by apply Qeq_bool_iff.
    + split; [done|]. intros [[=]|Hw%Qeq_bool_iff]. congruence.
  - intros legs w.
    destruct parlay as [|leg parlay]; [done|].
    rewrite bool_decide_eq_false_2, orb_false_l by done.
    destruct (Qeq_bool totalWager 0) eqn:Hz; [done|].
    intros [= <- <-]. split_and!; [done|done| |].
    + intros Hneg. by apply post_parlays_negative_wager.
    + intros Hpos. by apply post_parlays_positive_wager.
Qed.

Lemma placeBet_then_post_parlays_witness :
  post_parlays "p4" leg_ids 8 (Some (sent_leg <$> lakers_slip)) (Some (-10)%Q) fresh_db =
  ({| res_status := 400; res_json := ErrorBody [Text "Invalid wager amount"] |}, fresh_db).
Proof.
  destruct (placeBet_then_post_parlays lakers_slip (-10) "p4" leg_ids 8 fresh_db)
    as [_ H].
  destruct (H (sent_leg <$> lakers_slip) (-10)%Q) as (_ & _ & Hneg & _).
  - vm_compute. reflexivity.
  - apply Hneg. lra.
Defined.

(** ** SweepstakesService, terms and entry: properties *)

(** X20.  The verdict of [checkEligibility] and its reason go together, and
    every check is logged.  For a user that exists the call returns; the
    user is eligible exactly when no reason is given, and exactly when the
    age, state and country checks all pass; an age below 18 is the reason
    given whatever the state and the country, and the state is the reason
    given before the country; one row with the same age, state, verdict and
    reason is appended to [compliance_logs], and nothing else changes. *)
Theorem checkEligibility_verdict thisYear userId s user :
  users s !! userId = Some user →
  ∃ check,
    checkEligibility thisYear userId s =
      (inr check,
       with_compliance_logs (λ l, l ++
         [{| cl_user_id := userId; cl_check_type := "eligibility";
             cl_age := userAge check; cl_state := userState check;
             cl_is_eligible := isEligible check; cl_reason := reason check |}]) s) ∧
    userAge check = (thisYear - u_birth_year user)%Z ∧
    (isEligible check = true ↔ reason check = None) ∧
    (isEligible check = true ↔
     (18 ≤ userAge check)%Z ∧ isStateEligible user = true ∧ isCountryEligible user = true) ∧
    ((userAge check < 18)%Z → reason check = Some AgeReason) ∧
    ((18 ≤ userAge check)%Z → isStateEligible user = false →
     reason check = Some (StateReason (u_state user))) ∧
    ((18 ≤ userAge check)%Z → isStateEligible user = true →
     isCountryEligible user = false → reason check = Some CountryReason).
Proof.
  intros Huser. unfold checkEligibility. unfold_M. rewrite Huser. simpl.
  eexists. split; [apply pair_equal_spec; split; reflexivity|]. simpl.
  unfold isAgeEligible.
  destruct (decide (18 ≤ thisYear - u_birth_year user)%Z) as [Hage|Hage].
  - rewrite bool_decide_eq_true_2 by done. simpl.
    destruct (isStateEligible user), (isCountryEligible user); simpl;
      split_and!; try done; try lia;
      try (split; [done|by intros (_ & ? & ?)]).
  - rewrite bool_decide_eq_false_2 by done. simpl.
    split_and!; try done; try lia;
      try (split; [done|intros (? & _); lia]).
Qed.

Lemma checkEligibility_verdict_witness :
  ∃ check, outcome (checkEligibility 2026 2) users_db = inr check ∧
           userAge check = 11%Z ∧ reason check = Some AgeReason.
Proof.
  destruct (checkEligibility_verdict 2026 2 users_db
              {| u_birth_year := 2015; u_state := Some "OH"; u_country := None |})
    as (check & Hrun & Hage & _ & _ & Hreason & _).
  - vm_compute. reflexivity.
  - exists check. unfold outcome. rewrite Hrun. split_and!; [done|by rewrite Hage|].
    apply Hreason. rewrite Hage. simpl. lia.
Defined.

(** X21.  [verifyEligibilityForEntry] fails closed.  For a user that
    exists it returns, having logged one eligibility check and changed
    nothing else, and it reports the user eligible exactly when
    [checkEligibility] finds the user eligible and the user has a
    compliance row with the terms accepted; a failed eligibility check is
    reported with its reason, before the missing acceptance. *)
Theorem verifyEligibilityForEntry_fails_closed thisYear userId s user :
  users (rest_of_db s) !! userId = Some user →
  let ok := isAgeEligible thisYear user && isStateEligible user && isCountryEligible user in
  let accepted := default false (sc_terms_accepted <$> sweepstakes_compliance s !! userId) in
  ∃ verification s',
    verifyEligibilityForEntry thisYear userId s = (inr verification, s') ∧
    sweepstakes_compliance s' = sweepstakes_compliance s ∧
    rest_of_db s' = after (checkEligibility thisYear userId) (rest_of_db s) ∧
    eligible verification = ok && accepted ∧
    (isAgeEligible thisYear user = false →
     verification_message verification = AgeReason) ∧
    (isAgeEligible thisYear user = true → isStateEligible user = false →
     verification_message verification = StateReason (u_state user)) ∧
    (isAgeEligible thisYear user = true → isStateEligible user = true →
     isCountryEligible user = false →
     verification_message verification = CountryReason) ∧
    (ok = true → accepted = false →
     verification_message verification =
       "Must accept sweepstakes terms before participation").
Proof.
  intros Huser. simpl.
  unfold verifyEligibilityForEntry, lift, getComplianceStatus, after, checkEligibility.
  unfold_M. rewrite Huser. simpl.
  destruct (isAgeEligible thisYear user), (isStateEligible user),
    (isCountryEligible user); simpl;
    try (eexists _, _; split_and!; done).
  destruct (sweepstakes_compliance s !! userId) as [[[] ? ?]|]; simpl;
    eexists _, _; split_and!; done.
Qed.

Lemma verifyEligibilityForEntry_fails_closed_witness :
  ∃ verification s',
    verifyEligibilityForEntry 2026 4 entry_db = (inr verification, s') ∧
    eligible verification = false ∧
    verification_message verification =
      "Must accept sweepstakes terms before participation".
Proof.
  destruct (verifyEligibilityForEntry_fails_closed 2026 4 entry_db
              {| u_birth_year := 1990; u_state := Some "oh"; u_country := Some "us" |})
    as (v & s' & Hrun & _ & _ & Hel & _ & _ & _ & Hmsg).
  - vm_compute. reflexivity.
  - exists v, s'. split_and!; [exact Hrun| |].
    + rewrite Hel. vm_compute. reflexivity.
    + apply Hmsg; vm_compute; reflexivity.
Defined.

(** X22.  Accepting the terms is what opens the entry, and of two
    acceptances the later one remains.  [acceptTerms] returns [true] and
    leaves the user a row with the three acceptances and the time of the
    call; after it a user whom [checkEligibility] finds eligible is
    reported eligible by [verifyEligibilityForEntry]; a second
    [acceptTerms] leaves the database that it alone would leave, the time
    of acceptance being the only thing it changes; and the rows of the
    other users, and the rest of the database, are untouched. *)
Theorem acceptTerms_opens_the_entry thisYear now now' userId s user :
  users (rest_of_db s) !! userId = Some user →
  isAgeEligible thisYear user && isStateEligible user && isCountryEligible user = true →
  let s1 := snd (acceptTerms now userId s) in
  fst (acceptTerms now userId s) = inr true ∧
  sweepstakes_compliance s1 !! userId =
    Some {| sc_terms_accepted := true; sc_disclaimer_accepted := true;
            sc_privacy_accepted := true; sc_accepted_at := now |} ∧
  snd (acceptTerms now' userId s1) = snd (acceptTerms now' userId s) ∧
  (snd (acceptTerms now' userId s1) = s1 ↔ now' = now) ∧
  rest_of_db s1 = rest_of_db s ∧
  (∀ other, other ≠ userId →
     sweepstakes_compliance s1 !! other = sweepstakes_compliance s !! other) ∧
  ∃ s2, verifyEligibilityForEntry thisYear userId s1 =
          (inr {| eligible := true;
                  verification_message :=
                    "User is eligible for sweepstakes participation" |}, s2).
Proof.
  intros Huser Hok. simpl. split_and!.
  - done.
  - by rewrite lookup_insert_eq.
  - unfold acceptTerms. simpl. by rewrite insert_insert_eq.
  - unfold acceptTerms. simpl. rewrite insert_insert_eq. split.
    + intros H. apply (f_equal (λ d, sweepstakes_compliance d !! userId)) in H.
      simpl in H. rewrite !lookup_insert_eq in H. by injection H.
    + by intros ->.
  - done.
  - intros other Hne. by rewrite lookup_insert_ne.
  - unfold verifyEligibilityForEntry, lift, getComplianceStatus, checkEligibility.
    unfold_M. rewrite Huser. simpl. rewrite Hok. simpl.
    rewrite lookup_insert_eq. simpl. by eexists.
Qed.

Lemma acceptTerms_opens_the_entry_witness :
  ∃ s2, verifyEligibilityForEntry 2026 4 (snd (acceptTerms 1790000000 4 entry_db)) =
          (inr {| eligible := true;
                  verification_message :=
                    "User is eligible for sweepstakes participation" |}, s2).
Proof.
  apply (acceptTerms_opens_the_entry 2026 1790000000 1790000001 4 entry_db
           {| u_birth_year := 1990; u_state := Some "oh"; u_country := Some "us" |}).
  - vm_compute. reflexivity.
  - vm_compute. reflexivity.
Defined.

(** ** The poker route handlers: properties *)

(** X23.  Leaving through the route.  The handler answers 200 or 400;
    it answers 200 exactly when the cash-out is positive and the user has a
    seat row at the table, and then the database is the one [leaveTable]
    leaves; on 400 the database is unchanged: a cash-out of 0 is refused,
    so that a seat whose stack is gone cannot be left.  Whatever the
    request, balances that were all non-negative stay so. *)
Theorem post_leave_outcomes tableId userId cashOut s :
  let res := fst (post_leave tableId userId cashOut s) in
  let s' := snd (post_leave tableId userId cashOut s) in
  ((pres_status res = 200%Z ∧
    ∃ c, cashOut = Some c ∧ (0 < c)%Q ∧
         filter (seat_of tableId userId) (poker_players s) ≠ [] ∧
         s' = table_left tableId userId c s) ∨
   (pres_status res = 400%Z ∧ s' = s ∧
    (cashOut = None ∨ (∃ c, cashOut = Some c ∧ (c <= 0)%Q) ∨
     filter (seat_of tableId userId) (poker_players s) = []))) ∧
  (balances_nonneg s → balances_nonneg s').
Proof.
  simpl. unfold post_leave.
  destruct cashOut as [c|]; [|split; [right; simpl; auto|done]].
  destruct (Qeq_bool c 0) eqn:Hz; simpl.
  { apply Qeq_bool_iff in Hz. split; [right; simpl|done].
    split_and!; [done..|]. right. left. exists c. split; [done|lra]. }
  destruct (Qleb c 0) eqn:Hle; simpl.
  { apply Qleb_le in Hle. split; [right; simpl|done].
    split_and!; [done..|]. right. left. by exists c. }
  apply Qleb_gt in Hle. rewrite leaveTable_spec.
  case_decide as Hseat; simpl.
  - split; [right; auto|done].
  - split; [left; split; [done|]; by exists c|].
    intros Hs. unfold balances_nonneg. simpl.
    apply nonneg_alter_add; [lra|done].
Qed.

Lemma post_leave_outcomes_witness :
  balances_nonneg (snd (post_leave "t1" 8 (Some 25%Q) left_db)).
Proof.
  apply (post_leave_outcomes "t1" 8 (Some 25%Q) left_db), left_db_nonneg.
Defined.

(** X24.  Joining through the route.  The handler answers 200 or 400 and
    never 500.  It answers 200 exactly when the buy-in is positive and
    [joinTable] returns, the database being the one [joinTable] leaves.
    Otherwise it answers 400 and the database is unchanged: "Invalid
    buy-in amount" for a buy-in that is missing, 0 or negative, else the
    message of what [joinTable] threw.  Whatever the request, balances
    that were all non-negative stay so. *)
Theorem post_join_outcomes tableId userId buyIn s :
  let res := fst (post_join tableId userId buyIn s) in
  let s' := snd (post_join tableId userId buyIn s) in
  ((pres_status res = 200%Z ∧
    ∃ b, buyIn = Some b ∧ (0 < b)%Q ∧
         joinTable tableId userId b s = (inr true, s') ∧
         s' = table_joined tableId userId b s) ∨
   (pres_status res = 400%Z ∧ s' = s ∧
    (((buyIn = None ∨ ∃ b, buyIn = Some b ∧ (b <= 0)%Q) ∧
      pres_json res = PokerError [Text "Invalid buy-in amount"]) ∨
     (∃ b e, buyIn = Some b ∧ (0 < b)%Q ∧
             joinTable tableId userId b s = (inl e, s) ∧
             pres_json res = PokerError (message e))))) ∧
  (balances_nonneg s → balances_nonneg s').
Proof.
  simpl. unfold post_join.
  destruct buyIn as [b|]; [|split; [right; simpl; auto 6|done]].
  destruct (Qeq_bool b 0) eqn:Hz; simpl.
  { apply Qeq_bool_iff in Hz. split; [|done]. right. simpl. split_and!; [done..|].
    left. split; [|done]. right. exists b. split; [done|lra]. }
  destruct (Qleb b 0) eqn:Hle; simpl.
  { apply Qleb_le in Hle. split; [|done]. right. simpl. split_and!; [done..|].
    left. split; [|done]. right. by exists b. }
  apply Qleb_gt in Hle.
  destruct (joinTable_cases tableId userId b s)
    as [[e He]|(table & c & _ & _ & _ & _ & Hc & Hbc & Hok)].
  - rewrite He. simpl. split; [|done]. right. split_and!; [done..|].
    right. exists b, e. split_and!; [done..|].
    destruct (joinTable_error_message _ _ _ _ _ _ He) as [_ Hmsg].
    unfold message_or. destruct (message e) as [|[[|]|] []]; done.
  - rewrite Hok. simpl. split; [left; split; [done|]; by exists b|].
    intros Hs. unfold balances_nonneg. simpl. by eapply nonneg_alter_sub.
Qed.

(** The theorem at work on a buy-in of 40 at the table of [table_db]: the
    answer is 200, and the balances stay non-negative. *)
Lemma post_join_outcomes_witness :
  pres_status (fst (post_join "t1" 8 (Some 40%Q) table_db)) = 200%Z ∧
  balances_nonneg (snd (post_join "t1" 8 (Some 40%Q) table_db)).
Proof.
  destruct (post_join_outcomes "t1" 8 (Some 40%Q) table_db) as [Hres Hbal].
  split.
  - destruct Hres as [[H _]|(_ & _ & [[[H|(b & [= <-] & H)] _]|H])].
    + exact H.
    + discriminate H.
    + vm_compute in H. by destruct H.
    + destruct H as (b & e & [= <-] & _ & H & _). vm_compute in H. discriminate H.
  - apply Hbal. unfold balances_nonneg. rewrite table_db_balances.
    apply fresh_db_initial.
Defined.

(** X25.  A table opened with a negative big blind can never be joined.
    The route refuses a missing or empty name and blinds that are missing
    or 0, but not negative blinds; for a negative big blind it answers 201,
    and the table it creates, under an identifier no table carries, has a
    minimum buy-in of 20 big blinds above its maximum of 500, so that
    [joinTable] throws the buy-in error for every user and every buy-in. *)
Theorem post_tables_negative_blind tableId name smallBlind bigBlind maxPlayers s :
  name ≠ "" → ¬ (smallBlind == 0)%Q → (bigBlind < 0)%Q →
  (∀ r, r ∈ poker_tables s → pt_table_id r ≠ tableId) →
  let res := fst (post_tables tableId (Some name) (Some smallBlind) (Some bigBlind)
                    maxPlayers s) in
  let s' := snd (post_tables tableId (Some name) (Some smallBlind) (Some bigBlind)
                   maxPlayers s) in
  pres_status res = 201%Z ∧
  ∀ userId buyIn,
    joinTable tableId userId buyIn s'
    = (inl (InvalidBuyIn (bigBlind * 20) (bigBlind * 500)), s').
Proof.
  intros Hname Hsb Hbb Hfresh. simpl. unfold post_tables.
  rewrite bool_decide_eq_false_2 by done.
  assert (Qeq_bool smallBlind 0 = false) as ->.
  { apply not_true_is_false. by intros ?%Qeq_bool_iff. }
  assert (Qeq_bool bigBlind 0 = false) as ->.
  { apply not_true_is_false. intros ?%Qeq_bool_iff. lra. }
  simpl. split; [done|]. intros userId buyIn.
  unfold joinTable, createTable. unfold_M.
  rewrite filter_app, (filter_none _ (poker_tables s)), filter_cons_True by done.
  simpl.
  destruct (Qltb buyIn (bigBlind * 20)) eqn:Hlo; [done|].
  destruct (Qltb (bigBlind * 500) buyIn) eqn:Hhi; [done|].
  apply Qltb_ge in Hlo, Hhi. lra.
Qed.

Lemma post_tables_negative_blind_witness :
  joinTable "t5" 8 40
    (snd (post_tables "t5" (Some "odd") (Some (-1)%Q) (Some (-2)%Q) None fresh_db))
  = (inl (InvalidBuyIn (-2 * 20) (-2 * 500)),
     snd (post_tables "t5" (Some "odd") (Some (-1)%Q) (Some (-2)%Q) None fresh_db)).
Proof.
  apply (post_tables_negative_blind "t5" "odd" (-1) (-2) None fresh_db).
  - done.
  - intros H. vm_compute in H. discriminate.
  - lra.
  - by intros r ?%elem_of_nil.
Defined.

(** X26.  Dealing through the route never succeeds.  Whatever the table,
    with a row or without one, the handler answers 500 "Failed to deal
    hand", what the service threw not being shown, and the database is
    unchanged. *)
Theorem post_deal_outcomes handId tableId s :
  post_deal handId tableId s =
  ({| pres_status := 500; pres_json := PokerError [Text "Failed to deal hand"] |}, s).
Proof. unfold post_deal. by rewrite dealHand_throws. Qed.

(** The theorem at work at the table of [table_db], which has a row. *)
Lemma post_deal_outcomes_witness :
  pres_status (fst (post_deal "h1" "t1" table_db)) = 500%Z ∧
  poker_hands (snd (post_deal "h1" "t1" table_db)) = [].
Proof. by rewrite (post_deal_outcomes "h1" "t1" table_db). Defined.

(** X27.  Completing through the route never succeeds.  The handler
    answers 400 when the winner is missing or 0 or the winning hand is
    missing or empty, so that user 0 can never be declared the winner, and
    500 "Failed to complete hand" otherwise, whether the hand has a row or
    not; the database is unchanged in every case. *)
Theorem post_complete_outcomes handId winnerId winningHand s :
  ((winnerId = None ∨ winnerId = Some 0%Z ∨
    winningHand = None ∨ winningHand = Some "") ∧
   post_complete handId winnerId winningHand s =
   ({| pres_status := 400;
       pres_json := PokerError
         [Text "Missing required fields: winnerId, winningHand"] |}, s)) ∨
  ((∃ w h, winnerId = Some w ∧ w ≠ 0%Z ∧ winningHand = Some h ∧ h ≠ "") ∧
   post_complete handId winnerId winningHand s =
   ({| pres_status := 500;
       pres_json := PokerError [Text "Failed to complete hand"] |}, s)).
Proof.
  destruct winnerId as [w|], winningHand as [h|]; unfold post_complete;
    [|left; auto..].
  destruct (decide (w = 0%Z)) as [->|Hw]; [left; auto|].
  destruct (decide (h = "")) as [->|Hh].
  { left. rewrite (bool_decide_eq_true_2 ("" = "")), orb_true_r by done. auto. }
  right. rewrite !bool_decide_eq_false_2, completeHand_throws by done.
  split; [by exists w, h|done].
Qed.

(** The theorem at work on a hand that has a row: the answer is 500. *)
Lemma post_complete_outcomes_witness :
  post_complete "h1" (Some 7%Z) (Some "pair") finished_hand_db =
  ({| pres_status := 500;
      pres_json := PokerError [Text "Failed to complete hand"] |}, finished_hand_db).
Proof.
  destruct (post_complete_outcomes "h1" (Some 7%Z) (Some "pair") finished_hand_db)
    as [[[H|[H|[H|H]]] _]|[_ H]]; [discriminate H..|exact H].
Defined.

(** ** The statistics of the parlays: properties *)

Lemma default_sql_sum_Q l : default 0%Q (sql_sum_Q l) = foldr Qplus 0%Q l.
Proof. by destruct l. Qed.

Lemma NoDup_fmap_inj_on {A B} (f : A → B) (l : list A) x y :
  NoDup (f <$> l) → x ∈ l → y ∈ l → f x = f y → x = y.
Proof.
  induction l as [|a l IH]; [by intros _ ?%elem_of_nil|].
  rewrite fmap_cons, NoDup_cons. intros [Hnot Hnd].
  intros [->|Hx]%elem_of_cons [->|Hy]%elem_of_cons Hf; [done| | |by apply IH].
  - destruct Hnot. rewrite Hf. by apply list_elem_of_fmap_2.
  - destruct Hnot. rewrite <- Hf. by apply list_elem_of_fmap_2.
Qed.

(** The UPDATE of one pending parlay, the only row of its identifier,
    raises the sum over the won parlays by its payout when it is set won,
    and not at all otherwise. *)
Lemma won_payouts_update st rows sp :
  NoDup (sp_parlay_id <$> rows) → sp ∈ rows → sp_status sp = Pending →
  (won_payouts (update_where (λ r, sp_parlay_id r = sp_parlay_id sp) (set_status st) rows)
   == won_payouts rows + (if decide (st = Won) then sp_potential_payout sp else 0))%Q.
Proof.
  unfold won_payouts.
  induction rows as [|r rows IH]; [by intros _ ?%elem_of_nil|].
  rewrite fmap_cons, NoDup_cons. intros [Hnot Hnd] Hin Hst.
  unfold update_where. rewrite fmap_cons. fold (update_where
    (λ r, sp_parlay_id r = sp_parlay_id sp) (set_status st) rows).
  destruct (decide (sp_parlay_id r = sp_parlay_id sp)) as [Hid|Hid].
  - assert (sp = r) as ->.
    { apply elem_of_cons in Hin as [->|Hin]; [done|].
      destruct Hnot. rewrite Hid. by apply list_elem_of_fmap_2. }
    rewrite update_where_none.
    2:{ apply filter_none. intros r' Hr' Hid'. destruct Hnot.
        rewrite <- Hid'. by apply list_elem_of_fmap_2. }
    rewrite (filter_cons_False _ r) by (rewrite Hst; done).
    destruct (decide (st = Won)) as [->|Hw].
    + rewrite filter_cons_True by done. rewrite fmap_cons. cbn [foldr].
      change (sp_potential_payout (set_status Won r)) with (sp_potential_payout r).
      lra.
    + rewrite filter_cons_False by done. lra.
  - apply elem_of_cons in Hin as [->|Hin]; [done|].
    specialize (IH Hnd Hin Hst).
    destruct (decide (sp_status r = Won)).
    + rewrite !filter_cons_True by done. rewrite !fmap_cons. cbn [foldr].
      rewrite IH. lra.
    + rewrite !filter_cons_False by done. done.
Qed.

(** The loop over candidates that are pending rows of distinct identifiers:
    what it adds to the sum over the won parlays is what it logs as wins. *)
Lemma resolve_fold_payouts cs s :
  NoDup (sp_parlay_id <$> sports_parlays s) →
  NoDup (c_parlay_id <$> cs) →
  (∀ c, c ∈ cs → ∃ sp, sp ∈ sports_parlays s ∧ sp_status sp = Pending ∧
                       c = candidate_of sp) →
  ∃ logged,
    transactions (fold_left resolve_step cs s) = transactions s ++ logged ∧
    Forall (λ t, tx_transaction_type t = Win) logged ∧
    (won_payouts (sports_parlays (fold_left resolve_step cs s))
     == won_payouts (sports_parlays s) + foldr Qplus 0 (tx_amount <$> logged))%Q.
Proof.
  revert s. induction cs as [|c cs IH]; intros s Hids Hcs Hrows; simpl.
  { exists []. rewrite app_nil_r. split_and!; [done..|]. simpl. lra. }
  rewrite fmap_cons, NoDup_cons in Hcs. destruct Hcs as [Hc Hcs].
  destruct (Hrows c) as (sp & Hsp & Hst & ->); [by left|].
  destruct (resolve_step_frame s (candidate_of sp)) as (_ & _ & Hids').
  destruct (IH (resolve_step s (candidate_of sp))) as (logged & Htx & Hwin & Hsum).
  - by rewrite Hids'.
  - done.
  - intros c' Hc'. destruct (Hrows c') as (sp' & Hsp' & Hst' & ->); [by right|].
    exists sp'. split_and!; [|done..].
    rewrite resolve_step_parlays. destruct (legs_resolved _ _); [|done].
    apply elem_of_update_where. exists sp'. split; [done|].
    rewrite decide_False; [done|]. simpl. intros Hid. apply Hc.
    apply (list_elem_of_fmap_2 c_parlay_id) in Hc'. simpl in *. by rewrite <- Hid.
  - destruct (resolve_step_ledger s (candidate_of sp)) as [_ Hlog].
    rewrite Hlog in Htx. rewrite resolve_step_parlays in Hsum.
    unfold wins, verdict in *.
    change (c_parlay_id (candidate_of sp)) with (sp_parlay_id sp) in *.
    destruct (legs_resolved (sp_parlay_id sp) s); cbn [andb] in *.
    + rewrite (won_payouts_update _ _ sp) in Hsum by done.
      destruct (allLegsWon (legs_query (sp_parlay_id sp) s)).
      * exists (win_transaction (candidate_of sp) :: logged).
        rewrite <- app_assoc in Htx. split_and!; [done|by constructor|].
        rewrite Hsum, decide_True, fmap_cons by done. cbn [foldr].
        change (tx_amount (win_transaction (candidate_of sp)))
          with (sp_potential_payout sp).
        lra.
      * exists logged. split_and!; [done..|].
        rewrite Hsum, decide_False by done. lra.
    + by exists logged.
Qed.

(** X28.  The payouts the statistics report are the payouts that have been
    logged.  When no two parlays share an identifier, a results feed for an
    event adds to the [total_payouts] of [getAdminStats] (its NULL over no
    won parlay read as 0) exactly the sum of the transactions it appends,
    all of them wins; it changes neither the number of parlays nor the
    [total_wagers]. *)
Theorem resolveParlaysForEvent_payouts_are_logged eventId s stats stats' :
  NoDup (sp_parlay_id <$> sports_parlays s) →
  let s' := after (resolveParlaysForEvent eventId) s in
  fst (getAdminStats_sports s) = inr (Some stats) →
  fst (getAdminStats_sports s') = inr (Some stats') →
  ∃ logged,
    transactions s' = transactions s ++ logged ∧
    Forall (λ t, tx_transaction_type t = Win) logged ∧
    (default 0 (total_payouts stats')
     == default 0 (total_payouts stats) + foldr Qplus 0 (tx_amount <$> logged))%Q ∧
    total_parlays stats' = total_parlays stats ∧
    total_wagers stats' = total_wagers stats.
Proof.
  intros Hids s'.
  assert (∃ logged,
    transactions s' = transactions s ++ logged ∧
    Forall (λ t, tx_transaction_type t = Win) logged ∧
    (won_payouts (sports_parlays s')
     == won_payouts (sports_parlays s) + foldr Qplus 0 (tx_amount <$> logged))%Q ∧
    sp_total_wager <$> sports_parlays s' = sp_total_wager <$> sports_parlays s)
    as (logged & Htx & Hwin & Hsum & Hwagers).
  { subst s'. unfold after. rewrite resolveParlaysForEvent_spec. simpl.
    assert (∃ logged, transactions s = transactions s ++ logged ∧
      Forall (λ t, tx_transaction_type t = Win) logged ∧
      (won_payouts (sports_parlays s)
       == won_payouts (sports_parlays s) + foldr Qplus 0 (tx_amount <$> logged))%Q ∧
      sp_total_wager <$> sports_parlays s = sp_total_wager <$> sports_parlays s) as Hsame.
    { exists []. rewrite app_nil_r. split_and!; [done..| |done]. simpl. lra. }
    destruct (eventCache s !! eventId) as [event|]; [|done].
    case_decide; [|done]. clear Hsame.
    destruct (resolve_fold_payouts (candidates eventId s) s) as (logged & ? & ? & ?).
    - done.
    - apply NoDup_fmap_2_strong; [|apply candidates_NoDup].
      intros c1 c2 (sp1 & _ & H1 & _ & _ & _ & _ & ->)%elem_of_candidates
        (sp2 & _ & H2 & _ & _ & _ & _ & ->)%elem_of_candidates Hid.
      f_equal. by apply (NoDup_fmap_inj_on sp_parlay_id (sports_parlays s)).
    - intros c (sp & _ & ? & _ & _ & _ & ? & ->)%elem_of_candidates. by exists sp.
    - exists logged. split_and!; [done..|].
      generalize (candidates eventId s). intros cs. clear.
      revert s. induction cs as [|c cs IH]; intros s; simpl; [done|].
      rewrite IH, resolve_step_parlays. destruct (legs_resolved _ _); [|done].
      by apply update_where_preserves. }
  unfold getAdminStats_sports, gets. simpl.
  intros Hstats Hstats'.
  destruct (sports_parlays s) as [|r rows] eqn:Hrows; [done|].
  destruct (sports_parlays s') as [|r' rows'] eqn:Hrows'; [done|].
  injection Hstats as <-. injection Hstats' as <-.
  cbn [total_payouts total_parlays total_wagers].
  exists logged. split_and!; [done..| | |].
  - rewrite !default_sql_sum_Q. apply Hsum.
  - apply (f_equal length) in Hwagers. by rewrite !length_fmap in Hwagers.
  - simpl in Hwagers. injection Hwagers as -> ->. done.
Qed.

Lemma resolveParlaysForEvent_payouts_are_logged_witness :
  ∃ logged,
    transactions (after (resolveParlaysForEvent "nfl_001") settled_db)
    = transactions settled_db ++ logged ∧
    Forall (λ t, tx_transaction_type t = Win) logged ∧
    (default 0 (Some 18%Q)
     == default 0 None + foldr Qplus 0 (tx_amount <$> logged))%Q ∧
    1%nat = 1%nat ∧ Some (10 + 0)%Q = Some (10 + 0)%Q.
Proof.
  apply (resolveParlaysForEvent_payouts_are_logged "nfl_001" settled_db
    {| total_parlays := 1; winning_parlays := 0; losing_parlays := 0;
       pending_parlays := 1; total_wagers := Some (10 + 0)%Q; total_payouts := None |}
    {| total_parlays := 1; winning_parlays := 1; losing_parlays := 0;
       pending_parlays := 0; total_wagers := Some (10 + 0)%Q;
       total_payouts := Some 18%Q |}).
  - assert (sp_parlay_id <$> sports_parlays settled_db = ["p1"]) as ->
      by (vm_compute; reflexivity).
    apply NoDup_singleton.
  - vm_compute. reflexivity.
  - vm_compute. reflexivity.
Defined.
